(** * Keystone neural engine: a shallow embedding of [neural-engine.js]

    The development follows the source file class by class:
    [SIMDOpsService] (numeric kernels), [NeuralMindService] (the facet
    arena), [RingBufferService] (the circular buffer),
    [PrometheusService] (the threshold monitor) and [NeuralRouterService]
    (the router).

    Modelling conventions.
    - JavaScript numbers and [Float32Array] cells are idealised as real
      numbers: rounding, NaN and infinities are outside the model (the one
      place where the source uses [-Infinity] as a sentinel gets a
      dedicated constructor). Statements about the kernels are kept to
      what also holds of the rounded operations; where the rounding
      itself is the point, the module [Binary64] runs the kernel on
      IEEE binary64 numbers.
    - A typed array is a [list R]; a view [new Float32Array(buf, off, n)]
      is the window [take n (drop off cells)] of the cells of [buf], and
      [view.set(src)] is [list_inserts off src cells].
    - The [Uint32Array] header of the ring is a record of integers; the
      generation counter wraps modulo [2^32] as [Atomics.add] does.
    - A [throw] is the [Throw] constructor of [outcome]; a function that
      throws leaves the state it was given untouched, as the source throws
      before it mutates.
    - The operations are modelled for one caller at a time, so the
      compare-and-exchange of [push] succeeds at its first attempt. *)

From Stdlib Require Import Reals Lra ZArith Lia.
From Stdlib Require PrimFloat SpecFloat FloatOps.
From stdpp Require Import base list sorting gmap strings.

Set Default Proof Using "Type".

(** ** Constants *)

Definition FACET_SIZE : nat := 512.
Definition NUM_FACETS : Z := 16.
Definition RING_SLOTS : Z := 32.
(** [MIND_SIZE_BYTES / 4]: the number of float cells of the 64 KB bank. *)
Definition MIND_FLOATS : nat := 32 * FACET_SIZE.
(** [RING_SLOTS * FACET_SIZE]: the number of float cells of the ring. *)
Definition RING_FLOATS : nat := 32 * FACET_SIZE.

#[global] Arguments FACET_SIZE : simpl never.
#[global] Arguments MIND_FLOATS : simpl never.
#[global] Arguments RING_FLOATS : simpl never.

(** ** Errors *)

Inductive error : Type :=
  | LengthMismatch   (* "... must be 512 (floats)" *)
  | InvalidIndex     (* "Invalid facet i", "Index i out of bounds" *)
  | BufferFull       (* "Ring buffer full" *)
  | NotInitialized.  (* "Tool map not initialized" *)

Inductive outcome (A : Type) : Type :=
  | Ok (a : A)
  | Throw (e : error).
Arguments Ok {A} a.
Arguments Throw {A} e.

(** The error monad: [x ← m; k] runs [k] on the value of [m] and
    propagates a [Throw]. *)
#[global] Instance outcome_bind : MBind outcome := λ A B k m,
  match m with
  | Ok a => k a
  | Throw e => Throw e
  end.
#[global] Instance outcome_ret : MRet outcome := @Ok.

(** ** Typed-array views *)

(** The window of [n] cells that starts at cell [off]. *)
Definition view (off n : nat) (cells : list R) : list R :=
  take n (drop off cells).

(** [cells[i]]; every read of the model is in range, the default is
    never observed. *)
Definition cell (cells : list R) (i : nat) : R :=
  default 0%R (cells !! i).

(** Two vectors of the specification's tests: the zero vector and the
    basis vector [e0]. *)
Definition zeros : list R := replicate FACET_SIZE 0%R.
Definition e0 : list R := 1%R :: replicate (FACET_SIZE - 1) 0%R.

(** ** RingBufferService *)

Record RingBufferService : Type := mkRing {
  rb_head : Z;          (* header[0] *)
  rb_tail : Z;          (* header[1] *)
  rb_gen : Z;           (* header[2] *)
  rb_flags : Z;         (* header[3] *)
  rb_slots : list R     (* this.slots *)
}.

Module Ring.

(** [new RingBufferService()]: a zero-filled shared buffer. *)
Definition new : RingBufferService :=
  mkRing 0 0 0 0 (replicate RING_FLOATS 0%R).

(** The view [new Float32Array(ring, RING_HEADER_SIZE + off*4, FACET_SIZE)]
    with [off = idx * FACET_SIZE]. *)
Definition slot_view (rb : RingBufferService) (idx : Z) : list R :=
  view (Z.to_nat idx * FACET_SIZE) FACET_SIZE (rb_slots rb).

Definition push (rb : RingBufferService) (embedding : list R)
  : outcome (RingBufferService * Z) :=
  if decide (length embedding ≠ FACET_SIZE) then Throw LengthMismatch else
  let head := rb_head rb in
  let next := ((head + 1) mod RING_SLOTS)%Z in
  let tail := rb_tail rb in
  if decide (next = tail) then Throw BufferFull else
  let offset := Z.to_nat head * FACET_SIZE in
  let slots' := list_inserts offset embedding (rb_slots rb) in
  let gen' := if decide (next = 0%Z)
              then ((rb_gen rb + 1) mod 2 ^ 32)%Z else rb_gen rb in
  Ok (mkRing next tail gen' (rb_flags rb) slots', head).

(** [None] is the source's [null]. The returned vector is the content of
    the view at the time of the call. *)
Definition readNext (rb : RingBufferService)
  : RingBufferService * option (list R) :=
  let head := rb_head rb in
  let tail := rb_tail rb in
  if decide (head = tail ∧ rb_gen rb = 0%Z) then (rb, None) else
  let slotIdx := tail in
  let v := slot_view rb slotIdx in
  let nextTail := ((tail + 1) mod RING_SLOTS)%Z in
  (mkRing head nextTail (rb_gen rb) (rb_flags rb) (rb_slots rb), Some v).

Definition getSlot (rb : RingBufferService) (idx : Z) : outcome (list R) :=
  if decide (idx < 0 ∨ idx >= RING_SLOTS)%Z then Throw InvalidIndex
  else Ok (slot_view rb idx).

Definition getHead (rb : RingBufferService) : Z := rb_head rb.
Definition getTail (rb : RingBufferService) : Z := rb_tail rb.
Definition getGeneration (rb : RingBufferService) : Z := rb_gen rb.

Definition isFull (rb : RingBufferService) : bool :=
  let next := ((getHead rb + 1) mod RING_SLOTS)%Z in
  bool_decide (next = getTail rb) && bool_decide (rb_gen rb > 0)%Z.

Definition available (rb : RingBufferService) : Z :=
  let h := getHead rb in
  let t := getTail rb in
  if decide (h >= t)%Z then (h - t)%Z else (RING_SLOTS - t + h)%Z.

Definition reset (rb : RingBufferService) : RingBufferService :=
  mkRing 0 0 0 0 (replicate (length (rb_slots rb)) 0%R).

(** *** Drivers: a run of pushes, a run of reads *)

Fixpoint push_all (rb : RingBufferService) (vs : list (list R))
  : outcome RingBufferService :=
  match vs with
  | [] => Ok rb
  | v :: vs' => '(rb', _) ← push rb v; push_all rb' vs'
  end.

Fixpoint read_n (n : nat) (rb : RingBufferService)
  : RingBufferService * list (option (list R)) :=
  match n with
  | O => (rb, [])
  | S n' =>
      let '(rb1, r) := readNext rb in
      let '(rb2, rs) := read_n n' rb1 in
      (rb2, r :: rs)
  end.

(** The vectors of the repository's ring tests: a vector marked with
    its index in its first cell ([vec[0] = i]). *)
Definition marked (i : nat) : list R :=
  INR i :: replicate (FACET_SIZE - 1) 0%R.

(** States the two operations can produce from a new buffer. *)
Inductive reachable : RingBufferService → Prop :=
  | reach_new : reachable new
  | reach_reset rb : reachable rb → reachable (reset rb)
  | reach_push rb v rb' i :
      reachable rb → push rb v = Ok (rb', i) → reachable rb'
  | reach_read rb : reachable rb → reachable (readNext rb).1.

(** The representation invariant of the header and the slot array. *)
Record wf (rb : RingBufferService) : Prop := mkWf {
  wf_head : (0 ≤ rb_head rb < RING_SLOTS)%Z;
  wf_tail : (0 ≤ rb_tail rb < RING_SLOTS)%Z;
  wf_gen : (0 ≤ rb_gen rb < 2 ^ 32)%Z;
  wf_slots : length (rb_slots rb) = RING_FLOATS
}.

(** The number of unread slots, and the unread vectors in reading order:
    the abstract queue the buffer represents. *)
Definition avail (rb : RingBufferService) : nat :=
  Z.to_nat ((rb_head rb - rb_tail rb) mod RING_SLOTS).

Definition queue (rb : RingBufferService) : list (list R) :=
  (λ j : nat, slot_view rb ((rb_tail rb + Z.of_nat j) mod RING_SLOTS)%Z)
    <$> seq 0 (avail rb).

(** [readSlot(idx, dst)]: the result is the new content of [dst]. *)
Definition readSlot (rb : RingBufferService) (idx : Z) (dst : list R)
  : outcome (list R) :=
  if decide (length dst ≠ FACET_SIZE) then Throw LengthMismatch else
  s ← getSlot rb idx; Ok (list_inserts 0 s dst).

(** The generator [iterate()], run to its end with no push or read in
    between: the views it yields, in order. [head] is read once, before
    the loop; [fuel] bounds the number of times the loop condition is
    tested, and [None] says that it ran out. *)
Fixpoint iterate_loop (fuel : nat) (rb : RingBufferService) (head cur : Z)
  : option (outcome (list (list R))) :=
  match fuel with
  | O => None
  | S fuel' =>
      if decide (cur ≠ head) then
        match getSlot rb cur with
        | Throw e => Some (Throw e)
        | Ok v =>
            match iterate_loop fuel' rb head ((cur + 1) mod RING_SLOTS)%Z with
            | Some (Ok vs) => Some (Ok (v :: vs))
            | Some (Throw e) => Some (Throw e)
            | None => None
            end
        end
      else Some (Ok [])
  end.

Definition iterate (fuel : nat) (rb : RingBufferService)
  : option (outcome (list (list R))) :=
  let head := getHead rb in
  iterate_loop fuel rb head (getTail rb).

(** [getMemoryUsage()], in bytes. *)
Record MemoryUsage : Type := mkUsage {
  mem_allocated : Z;
  mem_used : Z;
  mem_overhead : Z
}.

Definition RING_HEADER_SIZE : Z := 16.
Definition RING_SIZE_BYTES : Z := RING_SLOTS * Z.of_nat FACET_SIZE * 4.

Definition getMemoryUsage (rb : RingBufferService) : MemoryUsage :=
  let total := (RING_HEADER_SIZE + RING_SIZE_BYTES)%Z in
  mkUsage total (available rb * Z.of_nat FACET_SIZE * 4)%Z RING_HEADER_SIZE.

End Ring.

(** ** SIMDOpsService *)

#[global] Instance R_eq_dec : EqDecision R := Req_dec_T.
#[global] Instance Rlt_decision : RelDecision Rlt := Rlt_dec.
#[global] Instance Rle_decision : RelDecision Rle := Rle_dec.
#[global] Instance Rgt_decision : RelDecision Rgt := Rgt_dec.

Module SIMDOps.

(** The body of the [for(i=0;i<FACET_SIZE;i+=4)] loop of
    [cosineSimilarity], [n] iterations to go from index [i], with the
    accumulators [(dot, na, nb)]. *)
Fixpoint cosine_loop (n i : nat) (a b : list R) (acc : R * R * R)
  : R * R * R :=
  match n with
  | O => acc
  | S n' =>
      let '(dot, na, nb) := acc in
      let a0 := cell a i in let a1 := cell a (i + 1) in
      let a2 := cell a (i + 2) in let a3 := cell a (i + 3) in
      let b0 := cell b i in let b1 := cell b (i + 1) in
      let b2 := cell b (i + 2) in let b3 := cell b (i + 3) in
      cosine_loop n' (i + 4) a b
        (dot + (a0 * b0 + a1 * b1 + a2 * b2 + a3 * b3),
         na + (a0 * a0 + a1 * a1 + a2 * a2 + a3 * a3),
         nb + (b0 * b0 + b1 * b1 + b2 * b2 + b3 * b3))%R
  end.

Definition cosineSimilarity (a b : list R) : outcome R :=
  if decide (length a ≠ FACET_SIZE ∨ length b ≠ FACET_SIZE)
  then Throw LengthMismatch else
  let '(dot, na, nb) := cosine_loop (FACET_SIZE / 4) 0 a b (0, 0, 0)%R in
  let denom := sqrt (na * nb) in
  if decide (denom = 0%R) then Ok 0%R else Ok (dot / denom)%R.

(** [let sum=0; for(i=0;i<FACET_SIZE;++i) sum+=v[i]*v[i]] *)
Fixpoint sumsq_loop (n i : nat) (v : list R) (sum : R) : R :=
  match n with
  | O => sum
  | S n' => sumsq_loop n' (S i) v (sum + cell v i * cell v i)%R
  end.

(** [for(i=0;i<FACET_SIZE;++i) v[i]*=inv] *)
Fixpoint scale_loop (n i : nat) (inv : R) (v : list R) : list R :=
  match n with
  | O => v
  | S n' => scale_loop n' (S i) inv (<[i := (cell v i * inv)%R]> v)
  end.

(** [normalize(v)], in place: the result is the new content of [v]. *)
Definition normalize (v : list R) : list R :=
  let sum := sumsq_loop FACET_SIZE 0 v 0%R in
  let norm := sqrt sum in
  if decide (norm > 0)%R
  then let inv := (1 / norm)%R in scale_loop FACET_SIZE 0 inv v
  else v.

(** The loop of [addScaled], four cells per iteration; the result is
    the new content of [target]. Each cell of [source] is read before
    the cell of [target] at the same index is written. *)
Fixpoint addScaled_loop (n i : nat) (source : list R) (scale : R)
    (target : list R) : list R :=
  match n with
  | O => target
  | S n' =>
      let t := <[i := (cell target i + cell source i * scale)%R]> target in
      let t := <[i + 1 := (cell t (i + 1) + cell source (i + 1) * scale)%R]> t in
      let t := <[i + 2 := (cell t (i + 2) + cell source (i + 2) * scale)%R]> t in
      let t := <[i + 3 := (cell t (i + 3) + cell source (i + 3) * scale)%R]> t in
      addScaled_loop n' (i + 4) source scale t
  end.

Definition addScaled (target source : list R) (scale : R) : list R :=
  addScaled_loop (FACET_SIZE / 4) 0 source scale target.

(** [clipGradient(g, max)], in place. *)
Definition clipGradient (g : list R) (max : R) : list R :=
  let sum := sumsq_loop FACET_SIZE 0 g 0%R in
  let norm := sqrt sum in
  if decide (norm > max)%R
  then let scale := (max / norm)%R in scale_loop FACET_SIZE 0 scale g
  else g.

(** The first loop of [softmax]: the running maximum from index [i]. *)
Fixpoint max_loop (n i : nat) (v : list R) (max : R) : R :=
  match n with
  | O => max
  | S n' =>
      max_loop n' (S i) v (if decide (cell v i > max)%R then cell v i else max)
  end.

(** The second loop: [v[i]=Math.exp(v[i]-max); sum+=v[i]]. *)
Fixpoint exp_loop (n i : nat) (max : R) (v : list R) (sum : R)
  : list R * R :=
  match n with
  | O => (v, sum)
  | S n' =>
      let v' := <[i := exp (cell v i - max)]> v in
      exp_loop n' (S i) max v' (sum + cell v' i)%R
  end.

(** [softmax(v)], in place. *)
Definition softmax (v : list R) : list R :=
  let max := max_loop (FACET_SIZE - 1) 1 v (cell v 0) in
  let '(v', sum) := exp_loop FACET_SIZE 0 max v 0%R in
  let inv := (1 / sum)%R in
  scale_loop FACET_SIZE 0 inv v'.

(** The loop of [relu], four cells per iteration. *)
Fixpoint relu_loop (n i : nat) (v : list R) : list R :=
  match n with
  | O => v
  | S n' =>
      let v := <[i := Rmax 0 (cell v i)]> v in
      let v := <[i + 1 := Rmax 0 (cell v (i + 1))]> v in
      let v := <[i + 2 := Rmax 0 (cell v (i + 2))]> v in
      let v := <[i + 3 := Rmax 0 (cell v (i + 3))]> v in
      relu_loop n' (i + 4) v
  end.

Definition relu (v : list R) : list R := relu_loop (FACET_SIZE / 4) 0 v.

End SIMDOps.

(** *** The mathematics the kernels are compared with *)

(** The inner product, the Euclidean norm and the cosine of the angle. *)
Definition dot (a b : list R) : R :=
  foldr Rplus 0%R (zip_with Rmult a b).
Definition norm (a : list R) : R := sqrt (dot a a).
Definition cosine (a b : list R) : R := (dot a b / (norm a * norm b))%R.

(** ** NeuralMindService *)

Record NeuralMindService : Type := mkMind {
  mind : list R;               (* the cells of this.mind (mindView) *)
  lastSnapshot : list (list R) (* one separate array per facet *)
}.

Module Mind.

(** [new NeuralMindService()] *)
Definition new : NeuralMindService :=
  mkMind (replicate MIND_FLOATS 0%R)
         (replicate (Z.to_nat NUM_FACETS) (replicate FACET_SIZE 0%R)).

(** [facetViews[idx]]: the view at byte offset [idx*FACET_SIZE*4]. *)
Definition facetView (m : NeuralMindService) (idx : Z) : list R :=
  view (Z.to_nat idx * FACET_SIZE) FACET_SIZE (mind m).

Definition getFacet (m : NeuralMindService) (idx : Z) : outcome (list R) :=
  if decide (idx < 0 ∨ idx >= NUM_FACETS)%Z then Throw InvalidIndex
  else Ok (facetView m idx).

(** [readFacet(idx, dst)]: the result is the new content of [dst]. *)
Definition readFacet (m : NeuralMindService) (idx : Z) (dst : list R)
  : outcome (list R) :=
  if decide (length dst ≠ FACET_SIZE) then Throw LengthMismatch else
  f ← getFacet m idx; Ok (list_inserts 0 f dst).

Definition writeFacet (m : NeuralMindService) (idx : Z) (src : list R)
  : outcome NeuralMindService :=
  if decide (length src ≠ FACET_SIZE) then Throw LengthMismatch else
  _ ← getFacet m idx;
  Ok (mkMind (list_inserts (Z.to_nat idx * FACET_SIZE) src (mind m))
             (lastSnapshot m)).

(** The loop of [applyGradient]: [target[i]] is cell [off + i] of the
    bank, [snap] is [lastSnapshot[facet]]. Iteration [i] reads
    [delta[i]] before it writes [target[i]] and [snap[i]], so a [delta]
    that is itself a view of the bank reads the same values. *)
Fixpoint applyGradient_loop (n i off : nat) (delta : list R) (lr mom : R)
    (cells snap : list R) : list R * list R :=
  match n with
  | O => (cells, snap)
  | S n' =>
      let prev := (cell cells (off + i) - cell snap i)%R in
      let t := (cell cells (off + i) + (lr * cell delta i + mom * prev))%R in
      applyGradient_loop n' (S i) off delta lr mom
        (<[off + i := t]> cells) (<[i := t]> snap)
  end.

Definition applyGradient (m : NeuralMindService) (facet : Z)
    (delta : list R) (lr mom : R) : outcome NeuralMindService :=
  if decide (length delta ≠ FACET_SIZE) then Throw LengthMismatch else
  _ ← getFacet m facet;
  let snap := default [] (lastSnapshot m !! Z.to_nat facet) in
  let '(cells', snap') :=
    applyGradient_loop FACET_SIZE 0 (Z.to_nat facet * FACET_SIZE)
      delta lr mom (mind m) snap in
  Ok (mkMind cells' (<[Z.to_nat facet := snap']> (lastSnapshot m))).

(** [fill(0)] on an array. *)
Definition fill0 (v : list R) : list R := replicate (length v) 0%R.

Definition reset (m : NeuralMindService) : NeuralMindService :=
  mkMind (fill0 (mind m)) (fill0 <$> lastSnapshot m).

Definition resetFacet (m : NeuralMindService) (idx : Z)
  : outcome NeuralMindService :=
  t ← getFacet m idx;
  Ok (mkMind (list_inserts (Z.to_nat idx * FACET_SIZE) (fill0 t) (mind m))
             (alter fill0 (Z.to_nat idx) (lastSnapshot m))).

(** What one iteration of [applyGradient] stores, from the cell [c],
    the snapshot cell [s] and the delta cell [d]. *)
Definition step (lr mom c s d : R) : R := (c + (lr * d + mom * (c - s)))%R.

(** The representation invariant of the arena. *)
Record wf (m : NeuralMindService) : Prop := mkWf {
  wf_mind : length (mind m) = MIND_FLOATS;
  wf_snaps : length (lastSnapshot m) = Z.to_nat NUM_FACETS;
  wf_snap : Forall (λ s, length s = FACET_SIZE) (lastSnapshot m)
}.

(** [lastSnapshot[idx]] *)
Definition shadow (m : NeuralMindService) (idx : Z) : list R :=
  default [] (lastSnapshot m !! Z.to_nat idx).

(** The loop of [snapshot()]: facet [i] is copied into a new array and
    stored under the key [i]. The timestamp is not modelled. *)
Fixpoint snapshot_loop (n : nat) (i : Z) (m : NeuralMindService)
    (map : gmap Z (list R)) : outcome (gmap Z (list R)) :=
  match n with
  | O => Ok map
  | S n' =>
      f ← getFacet m i;
      let copy := list_inserts 0 f (replicate FACET_SIZE 0%R) in
      snapshot_loop n' (i + 1)%Z m (<[i := copy]> map)
  end.

Definition snapshot (m : NeuralMindService) : outcome (gmap Z (list R)) :=
  snapshot_loop (Z.to_nat NUM_FACETS) 0 m ∅.

(** [getRawView()]: all the cells of the bank. *)
Definition getRawView (m : NeuralMindService) : list R := mind m.

End Mind.

(** ** PrometheusService *)

Record ThresholdConfig : Type := mkCfg {
  cfg_facet : Z;
  cfg_threshold : R;
  cfg_learningRate : R;
  cfg_momentum : R
}.

(** Of the monitor, the threshold table ([this.thresholds], a [Map] from
    facet to configuration object) is what [adapt] reads and writes; the
    snapshots, handlers and timer are not part of this model. Each key
    has a configuration object of its own. *)
Record PrometheusService : Type := mkPrometheus {
  thresholds : gmap Z ThresholdConfig
}.

Module Prometheus.

Definition defaultCfg (f : Z) : ThresholdConfig :=
  mkCfg f 0.7%R 0.01%R 0.9%R.

(** INTENT, CONTEXT, EMOTION, ACTION, ERROR *)
Definition monitored : list Z := [0; 1; 2; 3; 11]%Z.

(** The threshold table the constructor builds. *)
Definition new : PrometheusService :=
  mkPrometheus
    (foldl (λ (t : gmap Z ThresholdConfig) f, <[f := defaultCfg f]> t)
           ∅ monitored).

Definition adapt (p : PrometheusService) (facet : Z) (observed : R)
  : PrometheusService :=
  match thresholds p !! facet with
  | None => p
  | Some cfg =>
      let err := (cfg_threshold cfg - observed)%R in
      let upd := (cfg_learningRate cfg * err)%R in
      let newThr := (cfg_threshold cfg - upd)%R in
      let newThr := Rmax 0.5%R (Rmin 0.95%R newThr) in
      mkPrometheus
        (<[facet := mkCfg (cfg_facet cfg) newThr (cfg_learningRate cfg)
                          (cfg_momentum cfg)]> (thresholds p))
  end.

Definition setThreshold (p : PrometheusService) (cfg : ThresholdConfig)
  : PrometheusService :=
  mkPrometheus (<[cfg_facet cfg := cfg]> (thresholds p)).

Definition getThreshold (p : PrometheusService) (facet : Z)
  : option ThresholdConfig :=
  thresholds p !! facet.

(** The notification of [check]: [{facet, similarity, delta}]; the
    timestamp is not modelled. *)
Record Interrupt : Type := mkIntr {
  intr_facet : Z;
  intr_similarity : R;
  intr_delta : list R
}.

(** The monitor with what [check] needs besides the threshold table:
    the last-observed snapshots ([this.lastStates]) and the order in
    which the keys were inserted into the [Map]s, which is the order
    [check] visits them in. The handlers are taken to be observers:
    they receive the notifications and write neither to the arena nor
    to the monitor, so [check] is described by the notifications it
    fires and the state it leaves. *)
Record Monitor : Type := mkMonitor {
  mon_service : PrometheusService;
  mon_lastStates : gmap Z (list R);
  mon_order : list Z
}.

(** The state the constructor leaves: a snapshot of every monitored
    facet of the arena [m]. *)
Definition newMonitor (m : NeuralMindService) : Monitor :=
  mkMonitor new
    (foldl (λ (t : gmap Z (list R)) f,
              <[f := list_inserts 0 (Mind.facetView m f)
                       (replicate FACET_SIZE 0%R)]> t)
           ∅ monitored)
    monitored.

(** The body of the loop of [check] for the key [f]. *)
Definition check_facet (m : NeuralMindService) (mon : Monitor) (f : Z)
  : outcome (Monitor * list Interrupt) :=
  match thresholds (mon_service mon) !! f with
  | None => Ok (mon, [])
  | Some cfg =>
      curr ← Mind.getFacet m f;
      match mon_lastStates mon !! f with
      | None => Throw InvalidIndex   (* not reached: every key has a snapshot *)
      | Some last =>
          sim ← SIMDOps.cosineSimilarity curr last;
          if decide (sim < cfg_threshold cfg)%R then
            let delta := (λ i, cell curr i - cell last i)%R <$> seq 0 FACET_SIZE in
            let intr := mkIntr f sim delta in
            let last' := list_inserts 0 curr last in
            Ok (mkMonitor (adapt (mon_service mon) f sim)
                          (<[f := last']> (mon_lastStates mon))
                          (mon_order mon),
                [intr])
          else Ok (mon, [])
      end
  end.

(** [check()]: the loop over the keys [fs], in order. *)
Fixpoint check_loop (m : NeuralMindService) (mon : Monitor) (fs : list Z)
  : outcome (Monitor * list Interrupt) :=
  match fs with
  | [] => Ok (mon, [])
  | f :: fs' =>
      '(mon1, fired1) ← check_facet m mon f;
      '(mon2, fired2) ← check_loop m mon1 fs';
      Ok (mon2, fired1 ++ fired2)
  end.

Definition check (m : NeuralMindService) (mon : Monitor)
  : outcome (Monitor * list Interrupt) :=
  check_loop m mon (mon_order mon).

(** What [check] relies on: the keys of the threshold table, each
    listed once in the order of the [Map], are facet ids, and every key
    has a snapshot buffer of [FACET_SIZE] cells. *)
Record mon_wf (mon : Monitor) : Prop := mkMonWf {
  mon_keys : ∀ f, f ∈ mon_order mon ↔
                  is_Some (thresholds (mon_service mon) !! f);
  mon_nodup : NoDup (mon_order mon);
  mon_range : ∀ f, f ∈ mon_order mon → (0 ≤ f < NUM_FACETS)%Z;
  mon_snap : ∀ f, f ∈ mon_order mon →
    ∃ last, mon_lastStates mon !! f = Some last ∧ length last = FACET_SIZE
}.

End Prometheus.

(** ** NeuralRouterService *)

Record Tool : Type := mkTool {
  toolId : Z;
  name : string;
  centroid : list R;
  hitCount : Z;
  accuracy : R
}.

(** [-Infinity] or a number: the value of [bestSim] in [route]. *)
Inductive xreal : Type :=
  | NegInfinity
  | Finite (r : R).

Record RouteResult : Type := mkResult {
  res_toolId : Z;
  res_confidence : xreal;
  res_intentVector : list R
  (* latency: wall-clock time, not modelled *)
}.

(** A candidate of [routeTopK]: [{index, sim}]. *)
Record Cand : Type := mkCand {
  cand_index : nat;
  cand_sim : R
}.

(** What [updateTool] leaves on the console. *)
Inductive console : Type :=
  | Silent
  | Warn (id : Z).   (* "[NeuralRouter] Tool id not found" *)

Module Router.

Definition INTENT : Z := 0.

(** [sim > bestSim] *)
Definition xgt (sim : R) (bestSim : xreal) : bool :=
  match bestSim with
  | NegInfinity => true
  | Finite b => bool_decide (sim > b)%R
  end.

(** The order of [-Infinity] and the numbers. *)
Definition xle (a b : xreal) : Prop :=
  match a, b with
  | NegInfinity, _ => True
  | Finite _, NegInfinity => False
  | Finite x, Finite y => (x <= y)%R
  end.

(** The order a stable sort by descending similarity puts candidates
    in: higher similarity first, and on equal similarity the lower
    registration index first. *)
Definition before (a b : Cand) : Prop :=
  (cand_sim a > cand_sim b)%R ∨
  (cand_sim a = cand_sim b ∧ cand_index a < cand_index b).

(** The loop of [route] over [toolMap[i..]], with the running [best]
    and [bestSim]. *)
Fixpoint route_loop (intent : list R) (tools : list Tool) (i best : nat)
    (bestSim : xreal) : outcome (nat * xreal) :=
  match tools with
  | [] => Ok (best, bestSim)
  | t :: tools' =>
      sim ← SIMDOps.cosineSimilarity intent (centroid t);
      if xgt sim bestSim
      then route_loop intent tools' (S i) i (Finite sim)
      else route_loop intent tools' (S i) best bestSim
  end.

(** [route()] on the arena [m] and the tool map [toolMap]. *)
Definition route (m : NeuralMindService) (toolMap : list Tool)
  : outcome RouteResult :=
  if decide (length toolMap = 0) then Throw NotInitialized else
  intent ← Mind.getFacet m INTENT;
  '(best, bestSim) ← route_loop intent toolMap 0 0 NegInfinity;
  match toolMap !! best with
  | Some t => Ok (mkResult (toolId t) bestSim intent)
  | None => Throw InvalidIndex   (* not reached: [best] indexes [toolMap] *)
  end.

(** [toolMap.map((t,i) => ({index:i, sim:cosineSimilarity(intent, t.centroid)}))],
    on [toolMap[i..]]. *)
Fixpoint candidates (intent : list R) (tools : list Tool) (i : nat)
  : outcome (list Cand) :=
  match tools with
  | [] => Ok []
  | t :: tools' =>
      sim ← SIMDOps.cosineSimilarity intent (centroid t);
      cs ← candidates intent tools' (S i);
      Ok (mkCand i sim :: cs)
  end.

(** [Array.prototype.sort(cmp)]: the language requires a stable sort,
    and for a comparator that is a total preorder the stable sorted
    permutation is unique. It is computed here by insertion from the
    right: an element goes in front of the first later element that it
    does not have to follow. *)
Fixpoint sort_insert {A} (cmp : A → A → R) (x : A) (l : list A) : list A :=
  match l with
  | [] => [x]
  | y :: l' =>
      if decide (cmp x y <= 0)%R then x :: y :: l'
      else y :: sort_insert cmp x l'
  end.

Definition js_sort {A} (cmp : A → A → R) (l : list A) : list A :=
  foldr (sort_insert cmp) [] l.

(** [arr.slice(0, k)] for an integer [k]: a negative [k] counts from
    the end. *)
Definition slice0 {A} (k : Z) (l : list A) : list A :=
  if decide (k < 0)%Z then take (Z.to_nat (Z.of_nat (length l) + k)) l
  else take (Z.to_nat k) l.

(** The comparator of [routeTopK]: [(a,b) => b.sim - a.sim]. *)
Definition by_sim_desc (a b : Cand) : R := (cand_sim b - cand_sim a)%R.

(** The sorted, cut list of candidates of [routeTopK]. *)
Definition topCandidates (m : NeuralMindService) (toolMap : list Tool)
    (k : Z) : outcome (list Cand) :=
  if decide (length toolMap = 0) then Throw NotInitialized else
  intent ← Mind.getFacet m INTENT;
  cand ← candidates intent toolMap 0;
  let cand := js_sort by_sim_desc cand in
  Ok (slice0 k cand).

Definition routeTopK (m : NeuralMindService) (toolMap : list Tool) (k : Z)
  : outcome (list RouteResult) :=
  cs ← topCandidates m toolMap k;
  intent ← Mind.getFacet m INTENT;
  mapM (λ c, match toolMap !! cand_index c with
             | Some t => Ok (mkResult (toolId t) (Finite (cand_sim c)) intent)
             | None => Throw InvalidIndex
             end) cs.

(** The loop of [updateTool]:
    [delta = feedback[i]-centroid[i]; centroid[i] += lr*delta]. *)
Fixpoint blend_loop (n i : nat) (feedback : list R) (lr : R) (c : list R)
  : list R :=
  match n with
  | O => c
  | S n' =>
      let delta := (cell feedback i - cell c i)%R in
      blend_loop n' (S i) feedback lr (<[i := (cell c i + lr * delta)%R]> c)
  end.

(** [updateTool(toolId, feedback, lr)]: the new tool map and what was
    written to the console. *)
Definition updateTool (toolMap : list Tool) (id : Z) (feedback : list R)
    (lr : R) : outcome (list Tool * console) :=
  match list_find (λ t, toolId t = id) toolMap with
  | None => Ok (toolMap, Warn id)
  | Some (i, t) =>
      if decide (length feedback ≠ FACET_SIZE) then Throw LengthMismatch else
      let c := blend_loop FACET_SIZE 0 feedback lr (centroid t) in
      let c := SIMDOps.normalize c in
      Ok (<[i := mkTool (toolId t) (name t) c (hitCount t + 1) (accuracy t)]>
            toolMap, Silent)
  end.

(** A tool map in the shape of the repository's router tests. The
    first and the third centroid are the same vector, so they tie. *)
Definition demoTools : list Tool :=
  [mkTool 1 "Navigate" e0 0 0%R; mkTool 2 "Search" zeros 0 0%R;
   mkTool 3 "Analyze" e0 0 0%R].

(** The update rule of the specification, cell by cell, and the
    normalisation it is followed by. *)
Definition blend (lr : R) (c feedback : list R) : list R :=
  zip_with (λ ci fi, ci + lr * (fi - ci))%R c feedback.

Definition unit_scale (v : list R) : list R :=
  (λ x, x / norm v)%R <$> v.

(** [recordAccuracy(toolId, correct)]: the new tool map. *)
Definition recordAccuracy (toolMap : list Tool) (id : Z) (correct : bool)
  : list Tool :=
  match list_find (λ t, toolId t = id) toolMap with
  | None => toolMap
  | Some (i, t) =>
      let alpha := 0.1%R in
      <[i := mkTool (toolId t) (name t) (centroid t) (hitCount t)
               (alpha * (if correct then 1 else 0) + (1 - alpha) * accuracy t)%R]>
        toolMap
  end.

(** [getToolStats(toolId)]: [None] is [undefined]. *)
Definition getToolStats (toolMap : list Tool) (id : Z) : option Tool :=
  snd <$> list_find (λ t, toolId t = id) toolMap.

End Router.

(** The similarity the specification describes: the cosine, and 0 when
    one of the norms is 0. *)
Definition similarity (a b : list R) : R :=
  if decide (norm a = 0%R ∨ norm b = 0%R) then 0%R else cosine a b.


(** ** The similarity kernel on binary64 numbers

    [cosineSimilarity] as it runs: a JavaScript number is an IEEE
    binary64 number, a cell of a [Float32Array] is a binary64 number
    that is a binary32 value, and the kernel only reads its operands.
    The operations are the primitive ones of the prover's binary64
    floats (round to nearest, ties to even). *)

Module Binary64.
Import PrimFloat.

(** [Math.fround]: the binary32 value nearest to a binary64 number,
    which is what a store into a [Float32Array] keeps. *)
Definition fround (x : float) : float :=
  match FloatOps.Prim2SF x with
  | SpecFloat.S754_finite s m e =>
      FloatOps.SF2Prim (SpecFloat.binary_round 24 128 s m e)
  | _ => x
  end.

(** [a[i]]; [undefined], which arithmetic turns into NaN, out of range. *)
Definition cell (a : list float) (i : nat) : float := default nan (a !! i).

Fixpoint cosine_loop (n i : nat) (a b : list float)
    (acc : float * float * float) : float * float * float :=
  match n with
  | O => acc
  | S n' =>
      let '(dot, na, nb) := acc in
      let a0 := cell a i in let a1 := cell a (i + 1) in
      let a2 := cell a (i + 2) in let a3 := cell a (i + 3) in
      let b0 := cell b i in let b1 := cell b (i + 1) in
      let b2 := cell b (i + 2) in let b3 := cell b (i + 3) in
      cosine_loop n' (i + 4) a b
        (dot + (a0 * b0 + a1 * b1 + a2 * b2 + a3 * b3),
         na + (a0 * a0 + a1 * a1 + a2 * a2 + a3 * a3),
         nb + (b0 * b0 + b1 * b1 + b2 * b2 + b3 * b3))%float
  end.

Definition cosineSimilarity (a b : list float) : outcome float :=
  if decide (length a ≠ FACET_SIZE ∨ length b ≠ FACET_SIZE)
  then Throw LengthMismatch else
  let '(dot, na, nb) := cosine_loop (FACET_SIZE / 4) 0 a b (0, 0, 0)%float in
  let denom := sqrt (na * nb) in
  if (denom =? 0)%float then Ok 0%float else Ok (dot / denom)%float.

(** Two parallel vectors of binary32 cells: the binary32 values of
    0.1 and 0.8, and of 0.7 and 5.6, followed by zeros. *)
Definition a_parallel : list float :=
  [0x1.99999ap-4; 0x1.99999ap-1]%float ++ replicate (FACET_SIZE - 2) 0%float.
Definition b_parallel : list float :=
  [0x1.666666p-1; 0x1.666666p+2]%float ++ replicate (FACET_SIZE - 2) 0%float.

(** The binary64 number next above 1. *)
Definition above_1 : float := 0x1.0000000000001p+0%float.

End Binary64.

(** ** spindle-worker.js *)

(** What the worker posts as the payload of an [error] message. *)
Inductive failure : Type :=
  | Thrown (e : error)          (* the message of a caught exception *)
  | RingTooSmall                (* "Ring buffer too small" *)
  | UnknownMessage (type : string).  (* "Unknown message <type>" *)

Inductive response : Type :=
  | Initialized
  | ToolResultPushed (slotIndex toolId : Z)
  | EmbeddingPushed (slotIndex toolId : Z)
  | Stats (head tail generation available : Z)
  | ResetComplete
  | ErrorMsg (f : failure).

(** A request: its [type] and its payload. A string is its list of
    UTF-16 code units; the ring buffer of [init] is the header words
    and the float cells behind the header, or nothing. *)
Inductive message : Type :=
  | MInit (ringBuffer : option RingBufferService)
  | MPushToolResult (result : list Z) (toolId : Z)
  | MPushEmbedding (embedding : list R) (toolId : Z)
  | MGetStats
  | MReset
  | MOther (type : string).

Module Worker.

(** The state of the worker: [ringHeader] and [ringSlots], [None]
    while they are [null]. [ringSlots] is the view of the first
    [RING_SLOTS*FACET_SIZE] cells behind the header. *)
Definition state : Type := option RingBufferService.

(** [init(mindBuffer, ringBuffer)]: [None] is the throw of
    "Ring buffer too small"; the byte length is too small when fewer
    than [RING_SLOTS*FACET_SIZE] cells fit behind the header. *)
Definition init (ringBuffer : option RingBufferService)
  : option RingBufferService :=
  match ringBuffer with
  | None => None
  | Some buf =>
      if decide (length (rb_slots buf) < RING_FLOATS) then None
      else Some (mkRing 0 0 0 0 (rb_slots buf))
  end.

Definition rotateHead (rb : RingBufferService)
  : outcome (RingBufferService * Z) :=
  let head := rb_head rb in
  let next := ((head + 1) mod RING_SLOTS)%Z in
  let tail := rb_tail rb in
  if decide (next = tail) then Throw BufferFull else
  let gen' := if decide (next = 0%Z)
              then ((rb_gen rb + 1) mod 2 ^ 32)%Z else rb_gen rb in
  Ok (mkRing next tail gen' (rb_flags rb) (rb_slots rb), head).

Definition pushEmbedding (w : state) (emb : list R)
  : outcome (RingBufferService * Z) :=
  match w with
  | None => Throw NotInitialized
  | Some rb =>
      if decide (length emb ≠ FACET_SIZE) then Throw LengthMismatch else
      '(rb', idx) ← rotateHead rb;
      Ok (mkRing (rb_head rb') (rb_tail rb') (rb_gen rb') (rb_flags rb')
            (list_inserts (Z.to_nat idx * FACET_SIZE) emb (rb_slots rb')),
          idx)
  end.

(** [x|0] and [x>>>0] on an integer. *)
Definition to_int32 (z : Z) : Z := ((z + 2 ^ 31) mod 2 ^ 32 - 2 ^ 31)%Z.
Definition to_uint32 (z : Z) : Z := (z mod 2 ^ 32)%Z.

(** [hash = ((hash<<5)-hash)+str.charCodeAt(i); hash|=0] *)
Definition hash_step (hash c : Z) : Z :=
  to_int32 (to_int32 (hash * 32) - hash + c).

Definition hashString (str : list Z) : Z := foldl hash_step 0%Z str.

(** The generator of [encodeString]:
    [rng = (rng*1664525+1013904223)>>>0; emb[i] = (rng/4294967296)*2-1].
    The products are exact in
    the source's double arithmetic as long as the seed is below [2^32]
    in absolute value, which it is for tool ids up to 65535. *)
Definition lcg_next (rng : Z) : Z := to_uint32 (rng * 1664525 + 1013904223).
Definition lcg_value (rng : Z) : R := (IZR rng / 4294967296 * 2 - 1)%R.

Fixpoint lcg_loop (n i : nat) (rng : Z) (emb : list R) : list R :=
  match n with
  | O => emb
  | S n' =>
      let rng := lcg_next rng in
      lcg_loop n' (S i) rng (<[i := lcg_value rng]> emb)
  end.

(** [for(i) emb[i]/=norm] *)
Fixpoint div_loop (n i : nat) (norm : R) (emb : list R) : list R :=
  match n with
  | O => emb
  | S n' => div_loop n' (S i) norm (<[i := (cell emb i / norm)%R]> emb)
  end.

Definition encodeString (str : list Z) (toolId : Z) : list R :=
  let emb := replicate FACET_SIZE 0%R in
  let hash := hashString str in
  let rng := (hash + toolId * 31337)%Z in
  let emb := lcg_loop FACET_SIZE 0 rng emb in
  let sum := SIMDOps.sumsq_loop FACET_SIZE 0 emb 0%R in
  let norm := sqrt sum in
  if decide (norm > 0)%R then div_loop FACET_SIZE 0 norm emb else emb.

Definition getAvailableSlots (w : state) : Z :=
  match w with
  | None => 0%Z
  | Some rb =>
      let head := rb_head rb in
      let tail := rb_tail rb in
      if decide (head >= tail)%Z then (head - tail)%Z
      else (RING_SLOTS - tail + head)%Z
  end.

(** [ringSlots.fill(0)]: the cells of the view, not the cells behind. *)
Definition fillSlots (cells : list R) : list R :=
  replicate (RING_FLOATS `min` length cells) 0%R ++ drop RING_FLOATS cells.

(** [messageHandler]: the new state and the messages posted. *)
Definition messageHandler (w : state) (msg : message)
  : state * list response :=
  match msg with
  | MInit ringBuffer =>
      match init ringBuffer with
      | Some rb => (Some rb, [Initialized; Initialized])
      | None => (w, [ErrorMsg RingTooSmall])
      end
  | MPushToolResult result toolId =>
      let emb := encodeString result toolId in
      match pushEmbedding w emb with
      | Ok (rb, idx) => (Some rb, [ToolResultPushed idx toolId])
      | Throw e => (w, [ErrorMsg (Thrown e)])
      end
  | MPushEmbedding embedding tid =>
      match pushEmbedding w embedding with
      | Ok (rb, idx2) => (Some rb, [EmbeddingPushed idx2 tid])
      | Throw e => (w, [ErrorMsg (Thrown e)])
      end
  | MGetStats =>
      match w with
      | Some rb =>
          (w, [Stats (rb_head rb) (rb_tail rb) (rb_gen rb)
                     (getAvailableSlots w)])
      | None => (w, [])
      end
  | MReset =>
      match w with
      | Some rb =>
          (Some (mkRing 0 0 0 0 (fillSlots (rb_slots rb))), [ResetComplete])
      | None => (w, [])
      end
  | MOther type => (w, [ErrorMsg (UnknownMessage type)])
  end.

(** A run of requests, handled one after the other. *)
Fixpoint run (w : state) (msgs : list message) : state * list response :=
  match msgs with
  | [] => (w, [])
  | msg :: msgs' =>
      let '(w1, out1) := messageHandler w msg in
      let '(w2, out2) := run w1 msgs' in
      (w2, out1 ++ out2)
  end.

End Worker.

(** * Proofs *)

(** ** Views of a cell array *)

Lemma view_lookup off n cells i :
  view off n cells !! i =
  if decide (i < n) then cells !! (off + i) else None.
Proof.
  unfold view. rewrite lookup_take. case_decide; [|done].
  by rewrite lookup_drop.
Qed.

Lemma view_length off n cells :
  off + n ≤ length cells → length (view off n cells) = n.
Proof. unfold view. rewrite length_take, length_drop. lia. Qed.

(** Reading back the window that was just written. *)
Lemma view_inserts_eq off v cells :
  off + length v ≤ length cells →
  view off (length v) (list_inserts off v cells) = v.
Proof.
  intros Hlen. apply list_eq. intros i. rewrite view_lookup.
  case_decide as Hi.
  - rewrite list_lookup_inserts by lia. f_equal. lia.
  - symmetry. apply lookup_ge_None. lia.
Qed.

(** A write to one window leaves a disjoint window as it was. *)
Lemma view_inserts_ne off off' n v cells :
  off' + n ≤ off ∨ off + length v ≤ off' →
  view off' n (list_inserts off v cells) = view off' n cells.
Proof.
  intros Hdisj. apply list_eq. intros i. rewrite !view_lookup.
  case_decide as Hi; [|done].
  destruct Hdisj.
  - apply list_lookup_inserts_lt. lia.
  - apply list_lookup_inserts_ge. lia.
Qed.

Lemma view_replicate off n m (x : R) :
  off + n ≤ m → view off n (replicate m x) = replicate n x.
Proof.
  intros. unfold view. rewrite drop_replicate, take_replicate.
  f_equal. lia.
Qed.

(** ** The ring buffer *)

Module RingFacts.
Import Ring.

Ltac rsimpl :=
  cbn [rb_head rb_tail rb_gen rb_flags rb_slots fst snd seq fmap list_fmap].
Ltac zdiv := Z.to_euclidean_division_equations; lia.

Lemma ring_wf_new : wf new.
Proof.
  split; unfold new; rsimpl; unfold RING_SLOTS; try lia.
  by rewrite length_replicate.
Qed.

Lemma wf_reset rb : wf rb → wf (reset rb).
Proof.
  intros [? ? ? Hs]. split; unfold reset; rsimpl; unfold RING_SLOTS; try lia.
  by rewrite length_replicate.
Qed.

(** What a push does when it goes through. *)
Lemma push_Ok rb v :
  length v = FACET_SIZE →
  ((rb_head rb + 1) mod RING_SLOTS)%Z ≠ rb_tail rb →
  push rb v =
  Ok (mkRing ((rb_head rb + 1) mod RING_SLOTS)%Z (rb_tail rb)
        (if decide (((rb_head rb + 1) mod RING_SLOTS)%Z = 0%Z)
         then ((rb_gen rb + 1) mod 2 ^ 32)%Z else rb_gen rb)
        (rb_flags rb)
        (list_inserts (Z.to_nat (rb_head rb) * FACET_SIZE) v (rb_slots rb)),
      rb_head rb).
Proof.
  intros Hv Hnext. unfold push.
  rewrite decide_False by (by intros []).
  by rewrite decide_False.
Qed.

Lemma push_full rb v :
  length v = FACET_SIZE →
  ((rb_head rb + 1) mod RING_SLOTS)%Z = rb_tail rb →
  push rb v = Throw BufferFull.
Proof.
  intros Hv Hnext. unfold push.
  rewrite decide_False by (by intros []).
  by rewrite decide_True.
Qed.

Lemma push_wf rb v rb' i : wf rb → push rb v = Ok (rb', i) → wf rb'.
Proof.
  intros [Hh Ht Hg Hs]. unfold push.
  repeat case_decide; try done.
  all: intros [= <- <-]; split; rsimpl; try done.
  all: unfold RING_SLOTS in *; try zdiv.
  all: by rewrite length_inserts.
Qed.

Lemma readNext_wf rb : wf rb → wf (readNext rb).1.
Proof.
  intros [Hh Ht Hg Hs]. unfold readNext.
  case_decide; [done|]. split; rsimpl; try done.
  unfold RING_SLOTS in *. zdiv.
Qed.

(** Every state the operations produce satisfies the invariant. *)
Lemma reachable_wf rb : reachable rb → wf rb.
Proof.
  induction 1; eauto using ring_wf_new, wf_reset, push_wf, readNext_wf.
Qed.

Lemma available_avail rb : wf rb → available rb = Z.of_nat (avail rb).
Proof.
  intros [Hh Ht _ _]. unfold available, avail, getHead, getTail.
  unfold RING_SLOTS in *. case_decide; zdiv.
Qed.

Lemma queue_length rb : length (queue rb) = avail rb.
Proof. unfold queue. by rewrite length_fmap, length_seq. Qed.

Lemma slot_view_inserts_eq rb (i : Z) v :
  wf rb → (0 ≤ i < RING_SLOTS)%Z → length v = FACET_SIZE →
  view (Z.to_nat i * FACET_SIZE) FACET_SIZE
    (list_inserts (Z.to_nat i * FACET_SIZE) v (rb_slots rb)) = v.
Proof.
  intros [_ _ _ Hs] Hi Hv. rewrite <- Hv at 2.
  apply view_inserts_eq. rewrite Hs, Hv.
  unfold RING_FLOATS, RING_SLOTS in *. nia.
Qed.

Lemma slot_view_inserts_ne (i j : Z) v cells :
  (0 ≤ i)%Z → (0 ≤ j)%Z → i ≠ j → length v = FACET_SIZE →
  view (Z.to_nat j * FACET_SIZE) FACET_SIZE
    (list_inserts (Z.to_nat i * FACET_SIZE) v cells) =
  view (Z.to_nat j * FACET_SIZE) FACET_SIZE cells.
Proof.
  intros Hi Hj Hne Hv. apply view_inserts_ne. rewrite Hv. nia.
Qed.

(** A push onto a buffer with fewer than 31 unread slots goes through,
    returns the old head, and appends the vector to the queue. *)
Lemma push_queue rb v :
  wf rb → length v = FACET_SIZE → avail rb < 31 →
  ∃ rb', push rb v = Ok (rb', rb_head rb) ∧ wf rb' ∧
         rb_tail rb' = rb_tail rb ∧ queue rb' = queue rb ++ [v] ∧
         rb_head rb' = ((rb_head rb + 1) mod RING_SLOTS)%Z ∧
         rb_gen rb' = (if decide (rb_head rb + 1 < RING_SLOTS)%Z
                       then rb_gen rb else ((rb_gen rb + 1) mod 2 ^ 32)%Z) ∧
         rb_slots rb' =
           list_inserts (Z.to_nat (rb_head rb) * FACET_SIZE) v (rb_slots rb).
Proof.
  intros Hwf Hv Hav. pose proof Hwf as [Hh Ht Hg Hs].
  assert (((rb_head rb + 1) mod RING_SLOTS)%Z ≠ rb_tail rb) as Hnext.
  { unfold avail, RING_SLOTS in *. zdiv. }
  eexists. split; [by apply push_Ok|].
  split; [eapply push_wf; [done|by apply push_Ok]|].
  split; [done|].
  split; [|split; [done|split; [|done]]].
  2:{ rsimpl. unfold RING_SLOTS in *. repeat case_decide; try done; zdiv. }
  unfold queue, avail at 1. rsimpl.
  replace (Z.to_nat (((rb_head rb + 1) mod RING_SLOTS - rb_tail rb)
             mod RING_SLOTS)) with (avail rb + 1).
  2:{ unfold avail, RING_SLOTS in *. zdiv. }
  rewrite seq_app, fmap_app. rsimpl. f_equal.
  - apply list_fmap_ext. intros k j Hj%lookup_seq. destruct Hj as [-> Hj].
    unfold slot_view. rsimpl. apply slot_view_inserts_ne; [lia| |  |done].
    + unfold RING_SLOTS. zdiv.
    + unfold avail, RING_SLOTS in *. zdiv.
  - f_equal. unfold slot_view. rsimpl.
    replace ((rb_tail rb + Z.of_nat (0 + avail rb)) mod RING_SLOTS)%Z
      with (rb_head rb) by (unfold avail, RING_SLOTS in *; zdiv).
    by apply slot_view_inserts_eq.
Qed.

(** A read of a buffer whose queue is not empty returns the front of
    the queue and drops it. *)
Lemma readNext_queue rb v q :
  wf rb → queue rb = v :: q →
  ∃ rb', readNext rb = (rb', Some v) ∧ wf rb' ∧
         rb_head rb' = rb_head rb ∧ queue rb' = q.
Proof.
  intros Hwf Hq. pose proof Hwf as [Hh Ht Hg Hs].
  assert (avail rb = S (length q)) as Hav.
  { by rewrite <- queue_length, Hq. }
  assert (rb_head rb ≠ rb_tail rb) as Hne.
  { intros Heq. unfold avail in Hav. rewrite Heq, Z.sub_diag in Hav.
    by compute in Hav. }
  pose proof (readNext_wf rb Hwf) as Hwf'.
  unfold readNext in *. rewrite decide_False in * by (by intros []).
  eexists. split; [|split; [done|split; [done|]]].
  - do 2 f_equal. unfold queue in Hq. rewrite Hav in Hq. cbn [seq fmap list_fmap] in Hq.
    injection Hq as <- _. f_equal. unfold RING_SLOTS in *. zdiv.
  - unfold queue in *. rewrite Hav in Hq. cbn [seq fmap list_fmap] in Hq.
    injection Hq as _ <-. unfold avail at 1. rsimpl.
    replace (Z.to_nat ((rb_head rb - (rb_tail rb + 1) mod RING_SLOTS)
               mod RING_SLOTS)) with (length q).
    2:{ unfold avail, RING_SLOTS in *. zdiv. }
    rewrite <- fmap_S_seq, <- list_fmap_compose.
    apply list_fmap_ext. intros k j _. unfold compose, slot_view. rsimpl.
    do 3 f_equal. unfold RING_SLOTS in *. zdiv.
Qed.

Lemma readNext_slots rb : rb_slots (readNext rb).1 = rb_slots rb.
Proof. unfold readNext. by case_decide. Qed.

Lemma readNext_gen rb : rb_gen (readNext rb).1 = rb_gen rb.
Proof. unfold readNext. by case_decide. Qed.

(** A run of pushes that fits goes through and appends to the queue. *)
Lemma push_all_queue vs : ∀ rb,
  wf rb → Forall (λ v, length v = FACET_SIZE) vs →
  avail rb + length vs ≤ 31 →
  ∃ rb', push_all rb vs = Ok rb' ∧ wf rb' ∧
         rb_tail rb' = rb_tail rb ∧ queue rb' = queue rb ++ vs ∧
         rb_head rb' =
           ((rb_head rb + Z.of_nat (length vs)) mod RING_SLOTS)%Z ∧
         rb_gen rb' = if decide (rb_head rb + Z.of_nat (length vs)
                                 < RING_SLOTS)%Z
                      then rb_gen rb else ((rb_gen rb + 1) mod 2 ^ 32)%Z.
Proof.
  induction vs as [|v vs IH]; intros rb Hwf Hvs Hfit.
  - exists rb. pose proof Hwf as [Hh _ Hg _]. cbn [push_all length].
    rewrite app_nil_r, Z.add_0_r.
    split_and!; try done.
    + unfold RING_SLOTS in *. zdiv.
    + unfold RING_SLOTS in *. by rewrite decide_True by lia.
  - apply Forall_cons in Hvs as [Hv Hvs]. cbn [length] in Hfit.
    destruct (push_queue rb v)
      as (rb1 & Hpush & Hwf1 & Ht1 & Hq1 & Hh1 & Hg1 & _); [done..|lia|].
    assert (avail rb1 = avail rb + 1) as Hav1.
    { rewrite <- (queue_length rb1), <- (queue_length rb), Hq1, length_app.
      done. }
    destruct (IH rb1) as (rb' & Hall & Hwf' & Ht' & Hq' & Hh' & Hg');
      [done..|lia|].
    exists rb'. cbn [push_all]. rewrite Hpush. cbn.
    split; [done|]. split; [done|]. split; [congruence|].
    split; [by rewrite Hq', Hq1, <- app_assoc|].
    pose proof Hwf as [Hh _ Hg _]. pose proof Hwf as [_ Ht _ _].
    assert (avail rb = Z.to_nat ((rb_head rb - rb_tail rb) mod RING_SLOTS))
      as Hav by done.
    rewrite Hh', Hg', Hh1, Hg1. cbn [length].
    unfold RING_SLOTS in *. split; [zdiv|].
    repeat case_decide; try done; zdiv.
Qed.

(** A run of reads returns a prefix of the queue, in order. *)
Lemma read_n_queue vs : ∀ rb q,
  wf rb → queue rb = vs ++ q →
  ∃ rb', read_n (length vs) rb = (rb', Some <$> vs) ∧ wf rb' ∧
         rb_head rb' = rb_head rb ∧ queue rb' = q ∧
         rb_slots rb' = rb_slots rb ∧ rb_gen rb' = rb_gen rb.
Proof.
  induction vs as [|v vs IH]; intros rb q Hwf Hq.
  - by exists rb.
  - destruct (readNext_queue rb v (vs ++ q)) as (rb1 & Hr & Hwf1 & Hh1 & Hq1);
      [done|done|].
    destruct (IH rb1 q) as (rb' & Hrs & Hwf' & Hh' & Hq' & Hs' & Hg');
      [done..|].
    exists rb'. cbn [read_n length]. rewrite Hr, Hrs.
    pose proof (readNext_slots rb) as Hs1.
    pose proof (readNext_gen rb) as Hg1. rewrite Hr in Hs1, Hg1.
    cbn [fst] in Hs1, Hg1.
    split_and!; try done; congruence.
Qed.

Lemma push_all_reachable vs : ∀ rb rb',
  reachable rb → push_all rb vs = Ok rb' → reachable rb'.
Proof.
  induction vs as [|v vs IH]; intros rb rb' Hrb; cbn [push_all].
  - by intros [= <-].
  - destruct (push rb v) as [[rb1 i]|e] eqn:Hpush; [|done]. cbn.
    apply IH. by eapply reach_push.
Qed.

Lemma read_n_reachable n : ∀ rb, reachable rb → reachable (read_n n rb).1.
Proof.
  induction n as [|n IH]; intros rb Hrb; cbn [read_n]; [done|].
  pose proof (reach_read rb Hrb) as H1.
  destruct (readNext rb) as [rb1 r]. apply IH in H1. cbn [fst] in H1.
  by destruct (read_n n rb1).
Qed.

Lemma queue_empty rb : wf rb → rb_head rb = rb_tail rb → queue rb = [].
Proof.
  intros _ Heq. unfold queue, avail. by rewrite Heq, Z.sub_diag.
Qed.

Lemma marked_length i : length (marked i) = FACET_SIZE.
Proof. unfold marked. cbn [length]. by rewrite length_replicate. Qed.

Lemma Forall_marked (l : list nat) :
  Forall (λ v, length v = FACET_SIZE) (marked <$> l).
Proof. apply Forall_fmap, Forall_true. intros i. apply marked_length. Qed.

Lemma avail_new : avail new = 0.
Proof. reflexivity. Qed.

(** A reset buffer is a new buffer. *)
Lemma reset_new rb : wf rb → reset rb = new.
Proof. intros [_ _ _ Hs]. unfold reset, new. by rewrite Hs. Qed.

(** The run of the repository's ring tests, which share one buffer: a
    push and a read first (head = tail = 1), then the 31 pushes. The
    31st push wraps the head to slot 0, the generation becomes 1, and
    only therefore [isFull()] answers [true] there. *)
Lemma isFull_true_after_push_read_31_pushes :
  ∃ rb1 rb2 rb3,
    push new (marked 0) = Ok (rb1, 0%Z) ∧
    readNext rb1 = (rb2, Some (marked 0)) ∧
    push_all rb2 (marked <$> seq 0 31) = Ok rb3 ∧
    rb_gen rb3 = 1%Z ∧ isFull rb3 = true.
Proof.
  destruct (push_queue new (marked 0))
    as (rb1 & Hp1 & Hwf1 & Ht1 & Hq1 & Hh1 & Hg1 & _);
    [apply ring_wf_new|apply marked_length|rewrite avail_new; lia|].
  change (queue rb1 = [marked 0]) in Hq1.
  change (rb_head rb1 = 1%Z) in Hh1. change (rb_gen rb1 = 0%Z) in Hg1.
  destruct (readNext_queue rb1 (marked 0) [])
    as (rb2 & Hr2 & Hwf2 & Hh2 & Hq2); [done..|].
  pose proof (readNext_gen rb1) as Hg2. rewrite Hr2 in Hg2. cbn [fst] in Hg2.
  assert (avail rb2 = 0) as Hav2 by by rewrite <- queue_length, Hq2.
  assert (rb_tail rb2 = 1%Z) as Ht2.
  { pose proof Hwf2 as [_ Ht _ _]. unfold avail in Hav2.
    rewrite Hh2, Hh1 in Hav2. unfold RING_SLOTS in *. zdiv. }
  destruct (push_all_queue (marked <$> seq 0 31) rb2)
    as (rb3 & Hp3 & Hwf3 & Ht3 & _ & Hh3 & Hg3);
    [done|apply Forall_marked|rewrite Hav2, length_fmap, length_seq; lia|].
  rewrite length_fmap, length_seq, Hh2, Hh1 in Hh3, Hg3.
  rewrite Hg2, Hg1 in Hg3.
  change (rb_head rb3 = 0%Z) in Hh3. change (rb_gen rb3 = 1%Z) in Hg3.
  exists rb1, rb2, rb3. split; [exact Hp1|]. split; [exact Hr2|].
  split; [exact Hp3|]. split; [exact Hg3|].
  unfold isFull, getHead, getTail. by rewrite Hh3, Ht3, Ht2, Hg3.
Qed.

(** C1. On a new buffer, 31 pushes with no read go through and leave
    31 unread slots; the push after them fails with the buffer-full
    error, yet [isFull()] answers [false]: no wrap has happened, the
    generation is still 0, and [isFull] asks for a generation above 0. *)
Theorem isFull_false_after_31_pushes :
  ∃ rb31,
    push_all new (marked <$> seq 0 31) = Ok rb31 ∧
    available rb31 = 31%Z ∧
    push rb31 (marked 31) = Throw BufferFull ∧
    isFull rb31 = false.
Proof.
  destruct (push_all_queue (marked <$> seq 0 31) new)
    as (rb & Hpush & Hwf & Ht & Hq & Hh & Hg).
  { apply ring_wf_new. }
  { apply Forall_marked. }
  { rewrite avail_new, length_fmap, length_seq. lia. }
  exists rb. rewrite length_fmap, length_seq in Hh, Hg.
  change (rb_head rb = 31%Z) in Hh. change (rb_gen rb = 0%Z) in Hg.
  change (rb_tail rb = 0%Z) in Ht.
  split_and!; [done| | |].
  - unfold available, getHead, getTail. by rewrite Hh, Ht.
  - apply push_full; [apply marked_length|]. by rewrite Hh, Ht.
  - unfold isFull, getHead, getTail. by rewrite Hh, Ht, Hg.
Qed.

(** C3. Round trip through the ring. On a buffer with no unread slot
    ([head = tail]), a pushed vector is what the next [readNext]
    returns; and any [k <= 31] vectors pushed in a row come back from
    [k] reads in the order they were pushed, after which
    [available()] is 0. *)
Theorem push_read_fifo (rb : RingBufferService) (vs : list (list R)) :
  wf rb → rb_head rb = rb_tail rb →
  Forall (λ v, length v = FACET_SIZE) vs → length vs ≤ 31 →
  (∀ v, length v = FACET_SIZE →
     ∃ rb1 rb2, push rb v = Ok (rb1, rb_head rb) ∧
                readNext rb1 = (rb2, Some v)) ∧
  ∃ rb1 rb2,
    push_all rb vs = Ok rb1 ∧
    read_n (length vs) rb1 = (rb2, Some <$> vs) ∧
    available rb2 = 0%Z.
Proof.
  intros Hwf Hempty Hvs Hk.
  assert (avail rb = 0) as Hav.
  { unfold avail. by rewrite Hempty, Z.sub_diag. }
  pose proof (queue_empty rb Hwf Hempty) as Hq0.
  split.
  - intros v Hv.
    destruct (push_queue rb v) as (rb1 & Hpush & Hwf1 & _ & Hq1 & _);
      [done..|lia|].
    rewrite Hq0 in Hq1.
    destruct (readNext_queue rb1 v []) as (rb2 & Hread & _); [done..|].
    by exists rb1, rb2.
  - destruct (push_all_queue vs rb) as (rb1 & Hpush & Hwf1 & _ & Hq1 & _);
      [done..|lia|].
    rewrite Hq0 in Hq1. cbn [app] in Hq1.
    destruct (read_n_queue vs rb1 []) as (rb2 & Hread & Hwf2 & _ & Hq2 & _);
      [done|by rewrite app_nil_r|].
    exists rb1, rb2. split_and!; [done..|].
    rewrite available_avail by done.
    by rewrite <- queue_length, Hq2.
Qed.

Lemma push_read_fifo_witness :
  wf new ∧ rb_head new = rb_tail new ∧
  (∀ v, length v = FACET_SIZE →
     ∃ rb1 rb2, push new v = Ok (rb1, rb_head new) ∧
                readNext rb1 = (rb2, Some v)) ∧
  (∃ rb1 rb2,
     push_all new (marked <$> [0; 1; 2]) = Ok rb1 ∧
     read_n (length (marked <$> [0; 1; 2])) rb1 =
       (rb2, Some <$> (marked <$> [0; 1; 2])) ∧
     available rb2 = 0%Z).
Proof.
  split; [apply ring_wf_new|]. split; [reflexivity|].
  apply (push_read_fifo new (marked <$> [0; 1; 2])).
  - apply ring_wf_new.
  - reflexivity.
  - apply Forall_marked.
  - cbn [length fmap list_fmap]. lia.
Defined.

(** C10. [readNext] answers [null] exactly when [head = tail] and the
    generation is 0. After a wrap the guard no longer fires: on a new
    buffer push 31 vectors, read them all, push one more (the head wraps
    to slot 0 and the generation becomes 1) and read it. Now
    [head = tail] with generation 1 and nothing unread, and [readNext]
    returns the content of slot 0, the first vector, which was consumed
    long ago, and moves the tail on by one. *)
Theorem readNext_stale_after_wrap :
  (∀ rb, (readNext rb).2 = None ↔ rb_head rb = rb_tail rb ∧ rb_gen rb = 0%Z) ∧
  ∃ rb1 rb2 rb3 rb4 rb5 i,
    push_all new (marked <$> seq 0 31) = Ok rb1 ∧
    read_n 31 rb1 = (rb2, Some <$> (marked <$> seq 0 31)) ∧
    push rb2 (marked 31) = Ok (rb3, i) ∧
    readNext rb3 = (rb4, Some (marked 31)) ∧
    reachable rb4 ∧
    rb_head rb4 = rb_tail rb4 ∧ (rb_gen rb4 > 0)%Z ∧ available rb4 = 0%Z ∧
    readNext rb4 = (rb5, Some (marked 0)) ∧
    slot_view rb4 (rb_tail rb4) = marked 0 ∧
    rb_tail rb5 = ((rb_tail rb4 + 1) mod RING_SLOTS)%Z.
Proof.
  split.
  { intros rb. unfold readNext. case_decide as Hd; cbn [snd]; [done|].
    split; [done|]. intros Hc. by destruct Hd. }
  destruct (push_all_queue (marked <$> seq 0 31) new)
    as (rb1 & Hpush & Hwf1 & Ht1 & Hq1 & Hh1 & Hg1).
  { apply ring_wf_new. }
  { apply Forall_marked. }
  { rewrite avail_new, length_fmap, length_seq. lia. }
  rewrite length_fmap, length_seq in Hh1, Hg1.
  change (rb_head rb1 = 31%Z) in Hh1. change (rb_gen rb1 = 0%Z) in Hg1.
  change (rb_tail rb1 = 0%Z) in Ht1.
  change (queue rb1 = marked <$> seq 0 31) in Hq1.
  (* slot 0 holds the first vector *)
  assert (slot_view rb1 0 = marked 0) as Hslot0.
  { assert (queue rb1 !! 0 = Some (marked 0)) as H0 by by rewrite Hq1.
    unfold queue in H0. rewrite list_lookup_fmap in H0.
    destruct (seq 0 (avail rb1) !! 0) as [j|] eqn:Hj; [|done].
    apply lookup_seq in Hj as [-> _]. rewrite Ht1 in H0.
    by injection H0. }
  destruct (read_n_queue (marked <$> seq 0 31) rb1 [])
    as (rb2 & Hread & Hwf2 & Hh2 & Hq2 & Hs2 & Hg2);
    [done|by rewrite app_nil_r|].
  rewrite length_fmap, length_seq in Hread.
  assert (rb_tail rb2 = 31%Z) as Ht2.
  { pose proof Hwf2 as [_ Ht _ _].
    assert (avail rb2 = 0) as Hav by by rewrite <- queue_length, Hq2.
    unfold avail in Hav. rewrite Hh2, Hh1 in Hav.
    unfold RING_SLOTS in *. zdiv. }
  destruct (push_queue rb2 (marked 31))
    as (rb3 & Hpush3 & Hwf3 & Ht3 & Hq3 & Hh3 & Hg3 & Hs3);
    [done|apply marked_length|by rewrite <- queue_length, Hq2; cbn; lia|].
  rewrite Hq2 in Hq3. cbn [app] in Hq3.
  rewrite Hh2, Hh1 in Hh3. rewrite Hh2, Hh1, Hg2, Hg1 in Hg3.
  change (rb_head rb3 = 0%Z) in Hh3. change (rb_gen rb3 = 1%Z) in Hg3.
  assert (slot_view rb3 0 = marked 0) as Hslot0'.
  { unfold slot_view in *. rewrite Hs3, Hh2, Hh1, Hs2.
    rewrite slot_view_inserts_ne; [done|lia..|]. apply marked_length. }
  destruct (readNext_queue rb3 (marked 31) [])
    as (rb4 & Hread4 & Hwf4 & Hh4 & Hq4); [done..|].
  pose proof (readNext_slots rb3) as Hs4.
  pose proof (readNext_gen rb3) as Hg4.
  rewrite Hread4 in Hs4, Hg4. cbn [fst] in Hs4, Hg4.
  assert (rb_tail rb4 = 0%Z) as Ht4.
  { pose proof Hwf4 as [_ Ht _ _].
    assert (avail rb4 = 0) as Hav by by rewrite <- queue_length, Hq4.
    unfold avail in Hav. rewrite Hh4, Hh3 in Hav.
    unfold RING_SLOTS in *. zdiv. }
  assert (slot_view rb4 (rb_tail rb4) = marked 0) as Hstale.
  { rewrite Ht4. unfold slot_view in *. by rewrite Hs4. }
  assert (reachable rb4) as Hreach.
  { pose proof (reach_read rb3) as Hr. rewrite Hread4 in Hr. apply Hr.
    eapply reach_push; [|done].
    pose proof (read_n_reachable 31 rb1) as Hr2. rewrite Hread in Hr2.
    apply Hr2. eapply push_all_reachable; [apply reach_new|done]. }
  exists rb1, rb2, rb3, rb4.
  exists (mkRing (rb_head rb4) ((rb_tail rb4 + 1) mod RING_SLOTS)%Z
            (rb_gen rb4) (rb_flags rb4) (rb_slots rb4)), (rb_head rb2).
  split; [exact Hpush|]. split; [exact Hread|]. split; [exact Hpush3|].
  split; [exact Hread4|]. split; [exact Hreach|].
  split; [congruence|].
  split; [rewrite Hg4, Hg3; lia|].
  split; [unfold available, getHead, getTail; by rewrite Hh4, Hh3, Ht4|].
  split; [|split; [exact Hstale|reflexivity]].
  unfold readNext. rewrite decide_False.
  - by rewrite Hstale.
  - rewrite Hg4, Hg3. by intros [_ ?].
Qed.

End RingFacts.

(** ** The threshold monitor *)

Module PrometheusFacts.
Import Prometheus.

Lemma clamp_range (x : R) : (0.5 <= Rmax 0.5 (Rmin 0.95 x) <= 0.95)%R.
Proof.
  unfold Rmax, Rmin. repeat destruct Rle_dec; lra.
Qed.

Lemma new_lookup_INTENT : thresholds new !! 0%Z = Some (defaultCfg 0).
Proof.
  unfold new, monitored. cbn [foldl thresholds].
  rewrite !lookup_insert_ne by done. apply lookup_insert_eq.
Qed.

(** A facet that is not monitored has no threshold to adapt. *)
Lemma adapt_unmonitored p facet s :
  thresholds p !! facet = None → adapt p facet s = p.
Proof. intros H. unfold adapt. by rewrite H. Qed.

Lemma clamp_not_above (x t : R) :
  (x <= t → 0.5 <= t → Rmax 0.5 (Rmin 0.95 x) <= t)%R.
Proof.
  intros Hx Ht. unfold Rmax, Rmin. repeat destruct Rle_dec; lra.
Qed.

(** C5. For a monitored facet with threshold [t] and learning rate
    [lr], [adapt(facet, s)] stores [t - lr*(t - s)] clamped into
    [0.5, 0.95], and keeps the learning rate. The stored threshold is
    in that range for every [s]; and when [s < t], with a learning
    rate that is not negative and [t] not below the lower end of the
    range, the stored threshold is not above [t]. *)
Theorem adapt_clamped (p : PrometheusService) (facet : Z)
    (cfg : ThresholdConfig) (s : R) :
  thresholds p !! facet = Some cfg →
  ∃ cfg',
    thresholds (adapt p facet s) !! facet = Some cfg' ∧
    cfg_threshold cfg' =
      Rmax 0.5 (Rmin 0.95
        (cfg_threshold cfg - cfg_learningRate cfg * (cfg_threshold cfg - s)))%R ∧
    cfg_learningRate cfg' = cfg_learningRate cfg ∧
    (0.5 <= cfg_threshold cfg' <= 0.95)%R ∧
    ((0 <= cfg_learningRate cfg)%R → (0.5 <= cfg_threshold cfg)%R →
     (s < cfg_threshold cfg)%R →
     (cfg_threshold cfg' <= cfg_threshold cfg)%R).
Proof.
  intros Hcfg. unfold adapt. rewrite Hcfg. eexists.
  split; [apply lookup_insert_eq|]. cbn [cfg_threshold cfg_learningRate].
  split; [done|]. split; [done|]. split; [apply clamp_range|].
  intros Hlr Ht Hs. apply clamp_not_above; [nra|done].
Qed.

Lemma adapt_clamped_witness :
  thresholds new !! 0%Z = Some (defaultCfg 0) ∧
  ∃ cfg',
    thresholds (adapt new 0 0.2%R) !! 0%Z = Some cfg' ∧
    cfg_threshold cfg' = Rmax 0.5 (Rmin 0.95 (0.7 - 0.01 * (0.7 - 0.2)))%R ∧
    (0.5 <= cfg_threshold cfg' <= 0.95)%R ∧
    (cfg_threshold cfg' <= 0.7)%R.
Proof.
  split; [apply new_lookup_INTENT|].
  destruct (adapt_clamped new 0 (defaultCfg 0) 0.2%R new_lookup_INTENT)
    as (cfg' & Hl & Hv & _ & Hr & Hdec).
  exists cfg'. split; [exact Hl|]. split; [exact Hv|]. split; [exact Hr|].
  apply Hdec; cbn [defaultCfg cfg_learningRate cfg_threshold]; lra.
Defined.

(** C5, the reading that fails: a threshold at the lower end of the
    range does not decrease. An observation of -100 takes the default
    threshold 0.7 of the INTENT facet down to 0.5; the next call, with
    the observation 0.2 below that threshold, stores 0.5 again. *)
Lemma adapt_strict_decrease_counterexample :
  ∃ cfg cfg',
    thresholds (adapt new 0 (-100)%R) !! 0%Z = Some cfg ∧
    cfg_threshold cfg = 0.5%R ∧ (0.2 < cfg_threshold cfg)%R ∧
    thresholds (adapt (adapt new 0 (-100)%R) 0 0.2%R) !! 0%Z = Some cfg' ∧
    cfg_threshold cfg' = 0.5%R ∧
    ¬ (cfg_threshold cfg' < cfg_threshold cfg)%R.
Proof.
  assert (∀ x : R, (x <= 0.5)%R → Rmax 0.5 (Rmin 0.95 x) = 0.5%R) as Hfloor.
  { intros x Hx. unfold Rmax, Rmin. repeat destruct Rle_dec; lra. }
  assert (thresholds (adapt new 0 (-100)%R) !! 0%Z =
          Some (mkCfg 0 0.5%R 0.01%R 0.9%R)) as H1.
  { unfold adapt at 1. rewrite new_lookup_INTENT.
    cbn [thresholds defaultCfg cfg_threshold cfg_learningRate cfg_facet
         cfg_momentum].
    rewrite lookup_insert_eq, Hfloor by lra. done. }
  eexists _, _. split; [exact H1|]. cbn [cfg_threshold].
  split; [done|]. split; [lra|].
  unfold adapt at 1. rewrite H1.
  cbn [thresholds cfg_threshold cfg_learningRate cfg_facet cfg_momentum].
  rewrite lookup_insert_eq, Hfloor by lra.
  split; [done|]. cbn [cfg_threshold]. split; [done|]. lra.
Qed.

End PrometheusFacts.

(** ** Inner products *)

Lemma dot_nil_l b : dot [] b = 0%R.
Proof. done. Qed.

Lemma dot_cons x a y b : dot (x :: a) (y :: b) = (x * y + dot a b)%R.
Proof. done. Qed.

Lemma dot_self_nonneg a : (0 <= dot a a)%R.
Proof.
  induction a as [|x a IH]; [rewrite dot_nil_l; lra|].
  rewrite dot_cons. nra.
Qed.

Lemma dot_replicate_0_l n b : dot (replicate n 0%R) b = 0%R.
Proof.
  revert b. induction n as [|n IH]; intros [|y b]; try done.
  cbn [replicate]. rewrite dot_cons, IH. lra.
Qed.

(** A vector of norm 0 is orthogonal to every vector. *)
Lemma dot_self_0 a : dot a a = 0%R → ∀ b, dot a b = 0%R.
Proof.
  induction a as [|x a IH]; intros Ha [|y b]; try done.
  rewrite dot_cons in *. pose proof (dot_self_nonneg a).
  assert (x = 0)%R as -> by nra.
  rewrite IH by nra. lra.
Qed.

Lemma dot_comm a : ∀ b, dot a b = dot b a.
Proof.
  induction a as [|x a IH]; intros [|y b]; try done.
  rewrite !dot_cons, IH. lra.
Qed.

(** The quadratic [Σ (s*a_i - t*b_i)^2], which is never negative. *)
Lemma dot_quadratic (s t : R) a : ∀ b, length a = length b →
  (0 <= s * s * dot a a - 2 * s * t * dot a b + t * t * dot b b)%R.
Proof.
  induction a as [|x a IH]; intros [|y b] Hlen; try done.
  - rewrite !dot_nil_l. lra.
  - injection Hlen as Hlen. specialize (IH b Hlen).
    rewrite !dot_cons.
    pose proof (Rle_0_sqr (s * x - t * y)) as Hsq. unfold Rsqr in Hsq. lra.
Qed.

(** The Cauchy-Schwarz inequality. *)
Lemma cauchy_schwarz a b : length a = length b →
  (dot a b * dot a b <= dot a a * dot b b)%R.
Proof.
  intros Hlen. pose proof (dot_self_nonneg a) as Ha.
  pose proof (dot_self_nonneg b) as Hb.
  destruct (decide (dot a a = 0%R)) as [H0|H0].
  - rewrite (dot_self_0 a H0 b), H0. lra.
  - pose proof (dot_quadratic (dot a b) (dot a a) a b Hlen) as Hq.
    assert (0 <= dot a a * (dot a a * dot b b - dot a b * dot a b))%R
      as Hp by nra.
    assert (0 < dot a a)%R as Hpos by lra. nra.
Qed.

Lemma norm_nonneg a : (0 <= norm a)%R.
Proof. apply sqrt_pos. Qed.

Lemma norm_0 a : norm a = 0%R ↔ dot a a = 0%R.
Proof.
  unfold norm. split.
  - intros H. apply sqrt_eq_0; [apply dot_self_nonneg|done].
  - intros ->. apply sqrt_0.
Qed.

Lemma norm_mult a b : (norm a * norm b)%R = sqrt (dot a a * dot b b).
Proof.
  unfold norm. symmetry. apply sqrt_mult; apply dot_self_nonneg.
Qed.

(** Over the real numbers the cosine of two vectors of the same length
    lies in [-1, 1]; the rounded result of the kernel need not. *)
Lemma cosine_range a b : length a = length b →
  norm a ≠ 0%R → norm b ≠ 0%R → (-1 <= cosine a b <= 1)%R.
Proof.
  intros Hlen Ha Hb. unfold cosine.
  pose proof (norm_nonneg a). pose proof (norm_nonneg b).
  assert (0 < norm a * norm b)%R as Hpos by nra.
  assert (Rabs (dot a b) <= norm a * norm b)%R as Habs.
  { rewrite norm_mult, <- sqrt_Rsqr_abs. apply sqrt_le_1_alt.
    unfold Rsqr. by apply cauchy_schwarz. }
  assert (dot a b / (norm a * norm b) * (norm a * norm b) = dot a b)%R
    as Hq by (field; lra).
  unfold Rabs in Habs. destruct (Rcase_abs (dot a b)); nra.
Qed.

(** ** The numeric kernels *)

Lemma cell_lookup (l : list R) i x : l !! i = Some x → cell l i = x.
Proof. intros H. unfold cell. by rewrite H. Qed.

Lemma view_0 off cells : view off 0 cells = [].
Proof. done. Qed.

Lemma view_S off n cells :
  off < length cells →
  view off (S n) cells = cell cells off :: view (S off) n cells.
Proof.
  intros Hlt. destruct (lookup_lt_is_Some_2 cells off Hlt) as [x Hx].
  unfold view. rewrite (drop_S _ _ _ Hx), (cell_lookup _ _ _ Hx). done.
Qed.

Lemma view_all cells n : length cells = n → view 0 n cells = cells.
Proof. intros <-. unfold view. rewrite drop_0. apply firstn_all. Qed.

Module SIMDFacts.
Import SIMDOps.

(** The unrolled loop adds up the three inner products of the windows
    it walks over. *)
Lemma cosine_loop_spec n : ∀ i a b d x y,
  i + 4 * n ≤ length a → i + 4 * n ≤ length b →
  cosine_loop n i a b (d, x, y) =
  ((d + dot (view i (4 * n) a) (view i (4 * n) b))%R,
   (x + dot (view i (4 * n) a) (view i (4 * n) a))%R,
   (y + dot (view i (4 * n) b) (view i (4 * n) b))%R).
Proof.
  induction n as [|n IH]; intros i a b d x y Ha Hb.
  - cbn [cosine_loop]. rewrite !view_0, !dot_nil_l.
    by rewrite !Rplus_0_r.
  - cbn [cosine_loop]. rewrite IH by lia.
    replace (4 * S n) with (S (S (S (S (4 * n))))) by lia.
    replace (i + 1) with (S i) by lia.
    replace (i + 2) with (S (S i)) by lia.
    replace (i + 3) with (S (S (S i))) by lia.
    replace (i + 4) with (S (S (S (S i)))) by lia.
    rewrite !(view_S i), !(view_S (S i)), !(view_S (S (S i))),
      !(view_S (S (S (S i)))) by lia.
    rewrite !dot_cons. f_equal; [f_equal|]; lra.
Qed.

(** On two vectors of the right length the kernel returns the
    similarity of the specification. *)
Lemma cosineSimilarity_similarity a b :
  length a = FACET_SIZE → length b = FACET_SIZE →
  cosineSimilarity a b = Ok (similarity a b).
Proof.
  intros Ha Hb. unfold cosineSimilarity.
  rewrite decide_False by (intros [?|?]; done).
  change (FACET_SIZE / 4) with 128.
  rewrite cosine_loop_spec by (rewrite ?Ha, ?Hb; unfold FACET_SIZE; lia).
  change (4 * 128) with FACET_SIZE.
  rewrite !(view_all a), !(view_all b), !Rplus_0_l, <- norm_mult by done.
  unfold similarity, cosine.
  destruct (decide (norm a * norm b = 0)%R) as [Hz|Hz].
  - apply Rmult_integral in Hz. by rewrite decide_True.
  - rewrite decide_False; [done|]. intros [H1|H1]; rewrite H1 in Hz; lra.
Qed.

(** C6. [cosineSimilarity(a, b)] throws the length error when an
    operand does not have [FACET_SIZE] cells; on operands of the right
    length it returns 0 when one of the Euclidean norms is 0 and
    otherwise the cosine of the two vectors, as the inner product
    divided by the square root of the product of the two squared
    norms. *)
Theorem cosineSimilarity_spec (a b : list R) :
  (length a ≠ FACET_SIZE ∨ length b ≠ FACET_SIZE →
   cosineSimilarity a b = Throw LengthMismatch) ∧
  (length a = FACET_SIZE → length b = FACET_SIZE →
   (norm a = 0%R ∨ norm b = 0%R → cosineSimilarity a b = Ok 0%R) ∧
   (norm a ≠ 0%R → norm b ≠ 0%R →
    cosineSimilarity a b = Ok (dot a b / sqrt (dot a a * dot b b))%R)).
Proof.
  split.
  - intros Hlen. unfold cosineSimilarity. by rewrite decide_True.
  - intros Ha Hb. rewrite cosineSimilarity_similarity by done.
    unfold similarity. split.
    + intros H0. by rewrite decide_True.
    + intros Hna Hnb. rewrite decide_False by (by intros [?|?]).
      unfold cosine. by rewrite norm_mult.
Qed.

(** C6, the reading that fails: the value returned is not always in
    [-1, 1]. On two parallel vectors of binary32 cells the kernel,
    run on binary64 numbers, returns the number next above 1. *)
Lemma cosineSimilarity_range_counterexample :
  length Binary64.a_parallel = FACET_SIZE ∧
  length Binary64.b_parallel = FACET_SIZE ∧
  Forall (λ x, Binary64.fround x = x) Binary64.a_parallel ∧
  Forall (λ x, Binary64.fround x = x) Binary64.b_parallel ∧
  Binary64.cosineSimilarity Binary64.a_parallel Binary64.b_parallel =
    Ok Binary64.above_1 ∧
  PrimFloat.ltb PrimFloat.one Binary64.above_1 = true.
Proof.
  split; [by vm_compute|]. split; [by vm_compute|].
  split; [apply Forall_forall; intros x Hx; vm_compute in Hx;
          repeat (apply elem_of_cons in Hx as [->|Hx]; [by vm_compute|]);
          by apply elem_of_nil in Hx|].
  split; [apply Forall_forall; intros x Hx; vm_compute in Hx;
          repeat (apply elem_of_cons in Hx as [->|Hx]; [by vm_compute|]);
          by apply elem_of_nil in Hx|].
  split; by vm_compute.
Qed.

End SIMDFacts.

(** ** The test vectors *)

Lemma zeros_length : length zeros = FACET_SIZE.
Proof. apply length_replicate. Qed.

Lemma e0_length : length e0 = FACET_SIZE.
Proof. unfold e0. cbn [length]. by rewrite length_replicate. Qed.

Lemma cell_replicate n (x : R) i : i < n → cell (replicate n x) i = x.
Proof. intros Hi. apply cell_lookup, lookup_replicate. done. Qed.

Lemma cell_zeros i : cell zeros i = 0%R.
Proof.
  unfold cell, zeros. destruct (replicate FACET_SIZE 0%R !! i) eqn:H; [|done].
  by apply lookup_replicate in H as [-> _].
Qed.

Lemma cell_e0_0 : cell e0 0 = 1%R.
Proof. done. Qed.

Lemma norm_zeros : norm zeros = 0%R.
Proof. unfold norm, zeros. rewrite dot_replicate_0_l. apply sqrt_0. Qed.

Lemma norm_e0 : norm e0 = 1%R.
Proof.
  unfold norm, e0. rewrite dot_cons, dot_replicate_0_l.
  replace (1 * 1 + 0)%R with 1%R by lra. apply sqrt_1.
Qed.

Lemma cosineSimilarity_spec_witness :
  SIMDOps.cosineSimilarity [] e0 = Throw LengthMismatch ∧
  SIMDOps.cosineSimilarity zeros e0 = Ok 0%R ∧
  SIMDOps.cosineSimilarity e0 e0 = Ok (dot e0 e0 / sqrt (dot e0 e0 * dot e0 e0))%R.
Proof.
  split; [|split].
  - apply (SIMDFacts.cosineSimilarity_spec [] e0). by left.
  - apply (SIMDFacts.cosineSimilarity_spec zeros e0);
      [apply zeros_length|apply e0_length|]. left. apply norm_zeros.
  - apply (SIMDFacts.cosineSimilarity_spec e0 e0);
      [apply e0_length..| |]; rewrite norm_e0; lra.
Defined.

(** ** The facet arena *)

Lemma view_ext off n (l1 l2 : list R) :
  (∀ j, off ≤ j < off + n → l1 !! j = l2 !! j) →
  view off n l1 = view off n l2.
Proof.
  intros H. apply list_eq. intros i. rewrite !view_lookup.
  case_decide; [|done]. apply H. lia.
Qed.

Lemma cell_view off n cells i :
  i < n → cell (view off n cells) i = cell cells (off + i).
Proof. intros Hi. unfold cell. rewrite view_lookup. by rewrite decide_True. Qed.

Module MindFacts.
Import Mind.

Ltac msimpl := cbn [mind lastSnapshot fst snd].

Lemma mind_wf_new : wf new.
Proof.
  split; unfold new; msimpl.
  - apply length_replicate.
  - apply length_replicate.
  - apply Forall_replicate, length_replicate.
Qed.

Lemma getFacet_Ok m idx :
  (0 ≤ idx < NUM_FACETS)%Z → getFacet m idx = Ok (facetView m idx).
Proof. intros H. unfold getFacet. rewrite decide_False; [done|lia]. Qed.

Lemma getFacet_Ok_inv m idx v :
  getFacet m idx = Ok v → (0 ≤ idx < NUM_FACETS)%Z ∧ v = facetView m idx.
Proof.
  unfold getFacet. case_decide; [done|]. intros [= <-]. split; [lia|done].
Qed.

Lemma facetView_length m idx :
  wf m → (0 ≤ idx < NUM_FACETS)%Z → length (facetView m idx) = FACET_SIZE.
Proof.
  intros [Hm _ _] Hidx. apply view_length. rewrite Hm.
  unfold MIND_FLOATS, NUM_FACETS in *. nia.
Qed.

Lemma shadow_length m idx :
  wf m → (0 ≤ idx < NUM_FACETS)%Z → length (shadow m idx) = FACET_SIZE.
Proof.
  intros [_ Hn Hs] Hidx. unfold shadow.
  destruct (lookup_lt_is_Some_2 (lastSnapshot m) (Z.to_nat idx)) as [s Hl].
  { rewrite Hn. lia. }
  rewrite Hl. cbn. by eapply Forall_lookup_1 in Hs.
Qed.

(** The loop touches the cells [off+i .. off+i+n-1] of the bank and the
    cells [i .. i+n-1] of the snapshot, and nothing else. *)
Lemma applyGradient_loop_frame off delta lr mom n : ∀ i cells snap,
  let r := applyGradient_loop n i off delta lr mom cells snap in
  length r.1 = length cells ∧ length r.2 = length snap ∧
  (∀ j, j < off + i ∨ off + i + n ≤ j → r.1 !! j = cells !! j) ∧
  (∀ j, j < i ∨ i + n ≤ j → r.2 !! j = snap !! j).
Proof.
  induction n as [|n IH]; intros i cells snap; cbn [applyGradient_loop].
  - done.
  - cbv zeta in *. destruct (IH (S i) (<[off + i :=
      step lr mom (cell cells (off + i)) (cell snap i) (cell delta i)]> cells)
      (<[i := step lr mom (cell cells (off + i)) (cell snap i)
                (cell delta i)]> snap)) as (Hl1 & Hl2 & Hc & Hs).
    rewrite !length_insert in *. split_and!; [done..| |].
    + intros j Hj. rewrite Hc by lia. apply list_lookup_insert_ne. lia.
    + intros j Hj. rewrite Hs by lia. apply list_lookup_insert_ne. lia.
Qed.

(** Inside its range the loop stores the stepped value in both arrays. *)
Lemma applyGradient_loop_cells off delta lr mom n : ∀ i cells snap,
  off + i + n ≤ length cells → i + n ≤ length snap →
  let r := applyGradient_loop n i off delta lr mom cells snap in
  ∀ j, i ≤ j < i + n →
    r.1 !! (off + j) =
      Some (step lr mom (cell cells (off + j)) (cell snap j) (cell delta j)) ∧
    r.2 !! j =
      Some (step lr mom (cell cells (off + j)) (cell snap j) (cell delta j)).
Proof.
  induction n as [|n IH]; intros i cells snap Hc Hs.
  - intros r j Hj. lia.
  - set (t := step lr mom (cell cells (off + i)) (cell snap i) (cell delta i)).
    change (applyGradient_loop (S n) i off delta lr mom cells snap)
      with (applyGradient_loop n (S i) off delta lr mom
              (<[off + i := t]> cells) (<[i := t]> snap)).
    cbv zeta in *. intros j Hj.
    destruct (decide (j = i)) as [->|Hne].
    + pose proof (applyGradient_loop_frame off delta lr mom n (S i)
        (<[off + i := t]> cells) (<[i := t]> snap)) as Hf.
      cbv zeta in Hf. destruct Hf as (_ & _ & Hfc & Hfs).
      rewrite Hfc, Hfs by lia.
      rewrite !list_lookup_insert_eq by lia. done.
    + specialize (IH (S i) (<[off + i := t]> cells) (<[i := t]> snap)).
      rewrite !length_insert in IH.
      destruct (IH ltac:(lia) ltac:(lia) j ltac:(lia)) as [H1 H2].
      rewrite H1, H2. unfold cell.
      rewrite !list_lookup_insert_ne by lia. done.
Qed.

(** What [applyGradient] does on a well-formed arena: it succeeds, and
    cell by cell the facet and its snapshot both receive the stepped
    value. *)
Lemma applyGradient_result m f delta lr mom :
  wf m → (0 ≤ f < NUM_FACETS)%Z → length delta = FACET_SIZE →
  ∃ m', applyGradient m f delta lr mom = Ok m' ∧ wf m' ∧
    (∀ i, i < FACET_SIZE →
       cell (facetView m' f) i =
       step lr mom (cell (facetView m f) i) (cell (shadow m f) i)
            (cell delta i)) ∧
    shadow m' f = facetView m' f.
Proof.
  intros Hwf Hf Hd. pose proof Hwf as [Hm Hn Hs].
  pose proof (shadow_length m f Hwf Hf) as Hsh.
  assert (Z.to_nat f * FACET_SIZE + FACET_SIZE ≤ length (mind m)) as Hfit.
  { rewrite Hm. unfold MIND_FLOATS, NUM_FACETS in *. nia. }
  unfold applyGradient. rewrite decide_False by (by intros []).
  rewrite getFacet_Ok by done. cbn [mbind outcome_bind].
  fold (shadow m f).
  pose proof (applyGradient_loop_frame (Z.to_nat f * FACET_SIZE) delta lr mom
    FACET_SIZE 0 (mind m) (shadow m f)) as Hfr.
  pose proof (applyGradient_loop_cells (Z.to_nat f * FACET_SIZE) delta lr mom
    FACET_SIZE 0 (mind m) (shadow m f) ltac:(lia) ltac:(lia)) as Hce.
  cbv zeta in Hfr, Hce.
  destruct (applyGradient_loop FACET_SIZE 0 (Z.to_nat f * FACET_SIZE) delta
    lr mom (mind m) (shadow m f)) as [cells' snap'].
  cbn [fst snd] in Hfr, Hce. destruct Hfr as (Hl1 & Hl2 & _ & _).
  eexists. split; [done|].
  assert (Z.to_nat f < length (lastSnapshot m)) as Hidx by (rewrite Hn; lia).
  split_and!.
  - split; msimpl; [congruence|by rewrite length_insert|].
    apply Forall_insert; [done|congruence].
  - intros i Hi. unfold facetView. msimpl. rewrite !cell_view by done.
    destruct (Hce i ltac:(lia)) as [H1 _]. by rewrite (cell_lookup _ _ _ H1).
  - unfold shadow, facetView. msimpl.
    rewrite list_lookup_insert_eq by done.
    change (default [] (Some snap')) with snap'.
    apply list_eq. intros i. rewrite view_lookup. case_decide as Hi.
    + destruct (Hce i ltac:(lia)) as [H1 H2]. by rewrite H1, H2.
    + apply lookup_ge_None. lia.
Qed.

(** The three mutators leave the window of every other facet alone. *)
Lemma writeFacet_frame m f v m' g :
  writeFacet m f v = Ok m' → (0 ≤ g)%Z → g ≠ f →
  facetView m' g = facetView m g ∧ lastSnapshot m' = lastSnapshot m.
Proof.
  unfold writeFacet. case_decide as Hv; [done|].
  destruct (getFacet m f) as [t|e] eqn:Hg; [|done].
  apply getFacet_Ok_inv in Hg as [Hf _]. cbn [mbind outcome_bind].
  intros [= <-] Hg Hne. split; [|done]. unfold facetView. msimpl.
  apply view_inserts_ne. assert (length v = FACET_SIZE) as -> by lia. nia.
Qed.

Lemma applyGradient_frame m f delta lr mom m' g :
  applyGradient m f delta lr mom = Ok m' → (0 ≤ g)%Z → g ≠ f →
  facetView m' g = facetView m g ∧ shadow m' g = shadow m g.
Proof.
  unfold applyGradient. case_decide as Hv; [done|].
  destruct (getFacet m f) as [t|e] eqn:Hg; [|done].
  apply getFacet_Ok_inv in Hg as [Hf _]. cbn [mbind outcome_bind].
  pose proof (applyGradient_loop_frame (Z.to_nat f * FACET_SIZE) delta lr mom
    FACET_SIZE 0 (mind m) (default [] (lastSnapshot m !! Z.to_nat f))) as Hfr.
  cbv zeta in Hfr.
  destruct (applyGradient_loop _ _ _ _ _ _ _ _) as [cells' snap'].
  cbn [fst snd] in Hfr. destruct Hfr as (_ & _ & Hc & _).
  intros [= <-] Hg Hne. split.
  - unfold facetView. msimpl. apply view_ext. intros j Hj. apply Hc. nia.
  - unfold shadow. msimpl. rewrite list_lookup_insert_ne; [done|lia].
Qed.

Lemma resetFacet_frame m f m' g :
  resetFacet m f = Ok m' → (0 ≤ g)%Z → g ≠ f →
  facetView m' g = facetView m g ∧ shadow m' g = shadow m g.
Proof.
  unfold resetFacet.
  destruct (getFacet m f) as [t|e] eqn:Hg; [|done].
  apply getFacet_Ok_inv in Hg as [Hf ->]. cbn [mbind outcome_bind].
  intros [= <-] Hg Hne. split.
  - unfold facetView. msimpl. apply view_inserts_ne.
    unfold fill0. rewrite length_replicate.
    assert (length (view (Z.to_nat f * FACET_SIZE) FACET_SIZE (mind m))
            ≤ FACET_SIZE) by (unfold view; rewrite length_take; lia).
    nia.
  - unfold shadow. msimpl. rewrite list_lookup_alter_ne; [done|lia].
Qed.

Lemma writeFacet_Ok m f v :
  (0 ≤ f < NUM_FACETS)%Z → length v = FACET_SIZE →
  writeFacet m f v =
  Ok (mkMind (list_inserts (Z.to_nat f * FACET_SIZE) v (mind m))
             (lastSnapshot m)).
Proof.
  intros Hf Hv. unfold writeFacet. rewrite decide_False by (by intros []).
  by rewrite getFacet_Ok.
Qed.

Lemma resetFacet_Ok m f :
  (0 ≤ f < NUM_FACETS)%Z →
  resetFacet m f =
  Ok (mkMind (list_inserts (Z.to_nat f * FACET_SIZE)
                (fill0 (facetView m f)) (mind m))
             (alter fill0 (Z.to_nat f) (lastSnapshot m))).
Proof. intros Hf. unfold resetFacet. by rewrite getFacet_Ok. Qed.

(** C9. No cross-slot effects: for a facet [f] of the arena,
    [writeFacet], [applyGradient] and [resetFacet] on [f] leave the
    content and the shadow of every other facet [g] as they were, and
    [writeFacet] leaves every shadow as it was. *)
Theorem arena_no_cross_slot_effects (m : NeuralMindService) (f g : Z) :
  (0 ≤ f < NUM_FACETS)%Z → (0 ≤ g < NUM_FACETS)%Z → g ≠ f →
  (∀ v m', writeFacet m f v = Ok m' →
     facetView m' g = facetView m g ∧ shadow m' g = shadow m g ∧
     lastSnapshot m' = lastSnapshot m) ∧
  (∀ delta lr mom m', applyGradient m f delta lr mom = Ok m' →
     facetView m' g = facetView m g ∧ shadow m' g = shadow m g) ∧
  (∀ m', resetFacet m f = Ok m' →
     facetView m' g = facetView m g ∧ shadow m' g = shadow m g).
Proof.
  intros Hf Hg Hne. split_and!.
  - intros v m' Hw.
    destruct (writeFacet_frame m f v m' g Hw) as [Hv Hs]; [lia|done|].
    unfold shadow. by rewrite Hs.
  - intros delta lr mom m' Ha. eapply applyGradient_frame; [done|lia|done].
  - intros m' Hr. eapply resetFacet_frame; [done|lia|done].
Qed.

Lemma arena_no_cross_slot_effects_witness :
  ∃ m1 m2 m3,
    writeFacet new 0 e0 = Ok m1 ∧
    applyGradient new 0 e0 1 0 = Ok m2 ∧
    resetFacet new 0 = Ok m3 ∧
    (facetView m1 1 = facetView new 1 ∧ shadow m1 1 = shadow new 1 ∧
     lastSnapshot m1 = lastSnapshot new) ∧
    (facetView m2 1 = facetView new 1 ∧ shadow m2 1 = shadow new 1) ∧
    (facetView m3 1 = facetView new 1 ∧ shadow m3 1 = shadow new 1).
Proof.
  assert (0 ≤ 0 < NUM_FACETS)%Z as H0 by (unfold NUM_FACETS; lia).
  assert (0 ≤ 1 < NUM_FACETS)%Z as H1 by (unfold NUM_FACETS; lia).
  destruct (applyGradient_result new 0 e0 1 0 mind_wf_new H0 e0_length)
    as (m2 & Ha & _).
  pose proof (arena_no_cross_slot_effects new 0 1 H0 H1 ltac:(lia))
    as (Hw & Hg & Hr).
  eexists _, m2, _.
  split; [exact (writeFacet_Ok new 0 e0 H0 e0_length)|].
  split; [exact Ha|].
  split; [exact (resetFacet_Ok new 0 H0)|].
  split; [exact (Hw _ _ (writeFacet_Ok new 0 e0 H0 e0_length))|].
  split; [exact (Hg _ _ _ _ Ha)|].
  exact (Hr _ (resetFacet_Ok new 0 H0)).
Defined.

Lemma facetView_new f :
  (0 ≤ f < NUM_FACETS)%Z → facetView new f = zeros.
Proof.
  intros Hf. unfold facetView, new, zeros. msimpl.
  apply view_replicate. unfold MIND_FLOATS, NUM_FACETS in *. nia.
Qed.

Lemma shadow_new f : (0 ≤ f < NUM_FACETS)%Z → shadow new f = zeros.
Proof.
  intros Hf. unfold shadow, new. msimpl.
  rewrite lookup_replicate_2 by lia. done.
Qed.

(** After [resetFacet] the facet and its shadow are zero. *)
Lemma resetFacet_zeros m f m' :
  wf m → resetFacet m f = Ok m' →
  facetView m' f = zeros ∧ shadow m' f = zeros.
Proof.
  intros Hwf Hr. pose proof Hwf as [Hm Hn Hs].
  unfold resetFacet in Hr.
  destruct (getFacet m f) as [t|e] eqn:Hg; [|done].
  apply getFacet_Ok_inv in Hg as [Hf ->]. cbn [mbind outcome_bind] in Hr.
  injection Hr as <-.
  pose proof (facetView_length m f Hwf Hf) as Hfl.
  pose proof (shadow_length m f Hwf Hf) as Hsl.
  unfold facetView, shadow in *. msimpl. unfold fill0. split.
  - rewrite Hfl. rewrite <- (length_replicate FACET_SIZE 0%R) at 2.
    rewrite view_inserts_eq; [done|].
    rewrite length_replicate, Hm. unfold MIND_FLOATS, NUM_FACETS in *. nia.
  - rewrite list_lookup_alter_eq.
    destruct (lastSnapshot m !! Z.to_nat f) as [sn|]; [|done].
    cbn in Hsl. cbn. by rewrite Hsl.
Qed.

(** C2, as the code has it. [applyGradient(f, delta, lr, m)] adds
    [lr*delta[i] + m*(slot[i] - shadow[i])] to every cell of the slot,
    where the shadow is the snapshot of the slot that the preceding
    [applyGradient] on [f] (or the constructor, or a reset) left; and
    afterwards the shadow equals the new content of the slot. *)
Theorem applyGradient_snapshot (m : NeuralMindService) (f : Z)
    (delta : list R) (lr mom : R) :
  wf m → (0 ≤ f < NUM_FACETS)%Z → length delta = FACET_SIZE →
  ∃ m', applyGradient m f delta lr mom = Ok m' ∧
    (∀ i, i < FACET_SIZE →
       cell (facetView m' f) i =
       (cell (facetView m f) i +
        (lr * cell delta i +
         mom * (cell (facetView m f) i - cell (shadow m f) i)))%R) ∧
    shadow m' f = facetView m' f.
Proof.
  intros Hwf Hf Hd.
  destruct (applyGradient_result m f delta lr mom Hwf Hf Hd)
    as (m' & Ha & _ & Hc & Hs).
  by exists m'.
Qed.

Lemma applyGradient_snapshot_witness :
  ∃ m', applyGradient new 0 e0 0.01 0.9 = Ok m' ∧
    (∀ i, i < FACET_SIZE →
       cell (facetView m' 0) i =
       (cell (facetView new 0) i +
        (0.01 * cell e0 i +
         0.9 * (cell (facetView new 0) i - cell (shadow new 0) i)))%R) ∧
    shadow m' 0 = facetView m' 0.
Proof.
  apply (applyGradient_snapshot new 0 e0 0.01 0.9).
  - apply mind_wf_new.
  - unfold NUM_FACETS. lia.
  - apply e0_length.
Defined.

(** C2 with the shadow read as the last applied delta fails on two
    calls in a row. On a new arena, with [delta = e0], [lr = 1] and
    momentum 1, the first call applies the delta 1 to cell 0. That
    reading makes the second call add [lr*delta[0] + m*1 = 2]; the
    code adds 1, because the shadow holds the slot's value and
    [slot[0] - shadow[0]] is 0. After the second call the shadow is the
    slot's value 2, not the delta 1 that was applied. *)
Lemma applyGradient_momentum_counterexample :
  ∃ m1 m2,
    applyGradient new 0 e0 1 1 = Ok m1 ∧
    applyGradient m1 0 e0 1 1 = Ok m2 ∧
    (cell (facetView m1 0) 0 - cell (facetView new 0) 0 = 1)%R ∧
    (cell (facetView m2 0) 0 - cell (facetView m1 0) 0 = 1)%R ∧
    (cell (facetView m2 0) 0 ≠
     cell (facetView m1 0) 0 +
     (1 * cell e0 0 +
      1 * (cell (facetView m1 0) 0 - cell (facetView new 0) 0)))%R ∧
    cell (shadow m2 0) 0 = 2%R ∧
    (cell (shadow m2 0) 0 ≠
     cell (facetView m2 0) 0 - cell (facetView m1 0) 0)%R.
Proof.
  assert (0 ≤ 0 < NUM_FACETS)%Z as H0 by (unfold NUM_FACETS; lia).
  assert (0 < FACET_SIZE) as Hpos by (unfold FACET_SIZE; lia).
  destruct (applyGradient_result new 0 e0 1 1 mind_wf_new H0 e0_length)
    as (m1 & Ha1 & Hwf1 & Hc1 & Hs1).
  destruct (applyGradient_result m1 0 e0 1 1 Hwf1 H0 e0_length)
    as (m2 & Ha2 & Hwf2 & Hc2 & Hs2).
  specialize (Hc1 0 Hpos). specialize (Hc2 0 Hpos).
  rewrite Hs1 in Hc2. rewrite facetView_new, shadow_new in Hc1 by done.
  rewrite cell_zeros, cell_e0_0 in Hc1. rewrite cell_e0_0 in Hc2.
  unfold step in Hc1, Hc2.
  exists m1, m2. rewrite Hs2, facetView_new, cell_zeros, cell_e0_0 by done.
  split; [exact Ha1|]. split; [exact Ha2|].
  rewrite Hc2, Hc1. split_and!; lra.
Qed.

End MindFacts.

(** ** The router *)

Module RouterFacts.
Import SIMDOps Router.

Lemma xle_trans a b c : xle a b → xle b c → xle a c.
Proof. destruct a, b, c; cbn; try done. lra. Qed.

Lemma xle_refl a : xle a a.
Proof. destruct a; cbn; [done|lra]. Qed.

Lemma xgt_true s b : xgt s b = true → xle b (Finite s).
Proof.
  destruct b as [|b]; cbn; [done|]. intros H%bool_decide_eq_true. lra.
Qed.

Lemma xgt_false s b : xgt s b = false → xle (Finite s) b.
Proof.
  destruct b as [|b]; cbn; [done|]. intros H%bool_decide_eq_false. lra.
Qed.

Section route.
Variable intent : list R.
Hypothesis intent_length : length intent = FACET_SIZE.


(** The scan keeps the running maximum: its result bounds every
    similarity it has seen and the bound it started from, and it is
    either where it started or at a tool of the scanned list. *)
Lemma route_loop_spec tools : ∀ i best bestSim,
  Forall (λ t, length (centroid t) = FACET_SIZE) tools →
  ∃ best' bestSim',
    route_loop intent tools i best bestSim = Ok (best', bestSim') ∧
    (∀ t, t ∈ tools → xle (Finite (similarity intent (centroid t))) bestSim') ∧
    xle bestSim bestSim' ∧
    ((best' = best ∧ bestSim' = bestSim) ∨
     (∃ j t, tools !! j = Some t ∧ best' = i + j ∧
             bestSim' = Finite (similarity intent (centroid t)))).
Proof using intent_length.
  induction tools as [|t tools IH]; intros i best bestSim Hlen.
  - exists best, bestSim. split; [done|].
    split; [by intros t Ht%elem_of_nil|]. split; [apply xle_refl|by left].
  - apply Forall_cons in Hlen as [Ht Hlen]. cbn [route_loop].
    rewrite SIMDFacts.cosineSimilarity_similarity by done.
    cbn [mbind outcome_bind].
  set (s := similarity intent (centroid t)) in *.
    destruct (xgt s bestSim) eqn:Hgt.
    + destruct (IH (S i) i (Finite s) Hlen)
        as (best' & bestSim' & Hr & Hall & Hle & Hwhere).
      exists best', bestSim'. split; [done|]. split_and!.
      * intros t' [->|Hin]%elem_of_cons; [done|by apply Hall].
      * eapply xle_trans; [by apply xgt_true|done].
      * right. destruct Hwhere as [[-> ->]|(j & t' & Hj & -> & ->)].
        -- exists 0, t. split; [done|]. split; [lia|done].
        -- exists (S j), t'. split; [done|]. split; [lia|done].
    + destruct (IH (S i) best bestSim Hlen)
        as (best' & bestSim' & Hr & Hall & Hle & Hwhere).
      exists best', bestSim'. split; [done|]. split_and!.
      * intros t' [->|Hin]%elem_of_cons; [|by apply Hall].
        eapply xle_trans; [by apply xgt_false|done].
      * done.
      * destruct Hwhere as [?|(j & t' & Hj & -> & ->)]; [by left|].
        right. exists (S j), t'. split; [done|]. split; [lia|done].
Qed.

(** A scan of a list that is not empty ends at a tool of maximal
    similarity. *)
Lemma route_loop_max tools :
  tools ≠ [] → Forall (λ t, length (centroid t) = FACET_SIZE) tools →
  ∃ j t, tools !! j = Some t ∧
    route_loop intent tools 0 0 NegInfinity = Ok (j, Finite (similarity intent (centroid t))) ∧
    ∀ t', t' ∈ tools → (similarity intent (centroid t') <=
     similarity intent (centroid t))%R.
Proof using intent_length.
  intros Hne Hlen.
  destruct (route_loop_spec tools 0 0 NegInfinity Hlen)
    as (best' & bestSim' & Hr & Hall & _ & Hwhere).
  destruct Hwhere as [[-> ->]|(j & t & Hj & -> & ->)].
  - destruct tools as [|t tools]; [done|].
    destruct (Hall t); apply elem_of_cons; by left.
  - exists j, t. split; [done|]. split; [done|].
    intros t' Ht'. by apply Hall in Ht'.
Qed.

End route.

(** C4. [route()] with no registered centroid fails with the
    not-initialized error. With at least one, it returns the tool id of
    a registered centroid whose similarity to the INTENT facet is the
    largest of all registered centroids, and that similarity as the
    confidence. *)
Theorem route_returns_best (m : NeuralMindService) (toolMap : list Tool) :
  Mind.wf m →
  Forall (λ t, length (centroid t) = FACET_SIZE) toolMap →
  (toolMap = [] → route m toolMap = Throw NotInitialized) ∧
  (toolMap ≠ [] →
   ∃ t, t ∈ toolMap ∧
     route m toolMap =
       Ok (mkResult (toolId t)
             (Finite (similarity (Mind.facetView m INTENT) (centroid t)))
             (Mind.facetView m INTENT)) ∧
     ∀ t', t' ∈ toolMap →
       (similarity (Mind.facetView m INTENT) (centroid t') <=
        similarity (Mind.facetView m INTENT) (centroid t))%R).
Proof.
  intros Hwf Hlen. split.
  - intros ->. done.
  - intros Hne. unfold route.
    rewrite decide_False by (by destruct toolMap).
    assert (0 ≤ INTENT < NUM_FACETS)%Z as Hi by (unfold INTENT, NUM_FACETS; lia).
    rewrite MindFacts.getFacet_Ok by done. cbn [mbind outcome_bind].
    destruct (route_loop_max (Mind.facetView m INTENT)
                (MindFacts.facetView_length m INTENT Hwf Hi) toolMap Hne Hlen)
      as (j & t & Hj & Hr & Hmax).
    rewrite Hr. cbn [mbind outcome_bind]. rewrite Hj.
    exists t. split; [by eapply list_elem_of_lookup_2|done].
Qed.

Lemma route_returns_best_witness :
  route Mind.new [] = Throw NotInitialized ∧
  ∃ t, t ∈ [mkTool 1 "Navigate" e0 0 0; mkTool 2 "Search" zeros 0 0] ∧
    route Mind.new [mkTool 1 "Navigate" e0 0 0; mkTool 2 "Search" zeros 0 0] =
      Ok (mkResult (toolId t)
            (Finite (similarity (Mind.facetView Mind.new INTENT) (centroid t)))
            (Mind.facetView Mind.new INTENT)) ∧
    ∀ t', t' ∈ [mkTool 1 "Navigate" e0 0 0; mkTool 2 "Search" zeros 0 0] →
      (similarity (Mind.facetView Mind.new INTENT) (centroid t') <=
       similarity (Mind.facetView Mind.new INTENT) (centroid t))%R.
Proof.
  split.
  - apply (route_returns_best Mind.new []); [apply MindFacts.mind_wf_new|done|done].
  - apply (route_returns_best Mind.new); [apply MindFacts.mind_wf_new| |done].
    constructor; [apply e0_length|].
    constructor; [apply zeros_length|]. constructor.
Defined.

(** *** The stable sort *)

Lemma sort_insert_perm {A} (cmp : A → A → R) x l :
  sort_insert cmp x l ≡ₚ x :: l.
Proof.
  induction l as [|y l IH]; cbn [sort_insert]; [done|].
  case_decide; [done|]. rewrite IH. apply perm_swap.
Qed.

Lemma js_sort_perm {A} (cmp : A → A → R) l : js_sort cmp l ≡ₚ l.
Proof.
  induction l as [|x l IH]; [done|].
  change (js_sort cmp (x :: l)) with (sort_insert cmp x (js_sort cmp l)).
  rewrite sort_insert_perm. by f_equiv.
Qed.

Lemma before_sim a b : before a b → (cand_sim b <= cand_sim a)%R.
Proof. intros [?|[? _]]; lra. Qed.

(** An element that was registered before all of [l] goes to its place
    in the order [before]. *)
Lemma sort_insert_before x l :
  StronglySorted before l →
  Forall (λ y, cand_index x < cand_index y) l →
  StronglySorted before (sort_insert by_sim_desc x l).
Proof.
  induction l as [|y l IH]; intros Hs Hx; cbn [sort_insert].
  - by repeat constructor.
  - apply StronglySorted_inv in Hs as [Hs Hy].
    apply Forall_cons in Hx as [Hxy Hx].
    unfold by_sim_desc at 1. case_decide as Hc.
    + constructor; [by constructor|].
      constructor.
      * destruct (decide (cand_sim x = cand_sim y)); [by right|left; lra].
      * rewrite Forall_forall in Hy, Hx. apply Forall_forall. intros z Hz.
        pose proof (before_sim _ _ (Hy z Hz)) as Hyz. specialize (Hx z Hz).
        destruct (decide (cand_sim x = cand_sim z)); [by right|left; lra].
    + constructor; [by apply IH|].
      rewrite sort_insert_perm. constructor; [left; lra|done].
Qed.

(** Sorting a list whose registration indices increase gives the
    order [before], on the same elements. *)
Lemma js_sort_before l :
  StronglySorted (λ a b, cand_index a < cand_index b) l →
  StronglySorted before (js_sort by_sim_desc l).
Proof.
  induction l as [|x l IH]; intros Hs; [constructor|].
  apply StronglySorted_inv in Hs as [Hs Hx].
  change (js_sort by_sim_desc (x :: l))
    with (sort_insert by_sim_desc x (js_sort by_sim_desc l)).
  apply sort_insert_before; [by apply IH|].
  by rewrite js_sort_perm.
Qed.

(** Candidates numbered from [i] on have increasing indices. *)
Lemma numbered_increasing (sims : list R) : ∀ i,
  StronglySorted (λ a b, cand_index a < cand_index b)
    (zip_with mkCand (seq i (length sims)) sims) ∧
  Forall (λ c, i ≤ cand_index c)
    (zip_with mkCand (seq i (length sims)) sims).
Proof.
  induction sims as [|s sims IH]; intros i; cbn [length seq zip_with].
  - split; constructor.
  - destruct (IH (S i)) as [Hs Hge]. split.
    + constructor; [done|]. eapply Forall_impl; [done|].
      intros c Hc. cbn in Hc. cbn. lia.
    + constructor; [done|]. eapply Forall_impl; [done|].
      intros c Hc. cbn in Hc. cbn. lia.
Qed.

(** The order [before] admits one sorted arrangement of a list of
    candidates: whatever stable algorithm the engine sorts with, the
    result is the list [js_sort] computes. *)
Lemma before_sorted_unique (l1 l2 : list Cand) :
  l1 ≡ₚ l2 → StronglySorted before l1 → StronglySorted before l2 → l1 = l2.
Proof.
  intros Hp H1 H2. apply (StronglySorted_unique_strong before); [|done..].
  intros x y _ _ [Hxy|[Hxy Hi]] [Hyx|[Hyx Hj]]; first [lra|lia].
Qed.

Section topk.
Variable intent : list R.
Hypothesis intent_length : length intent = FACET_SIZE.


(** The candidates are the similarities, numbered from [i] on. *)
Lemma candidates_spec tools : ∀ i,
  Forall (λ t, length (centroid t) = FACET_SIZE) tools →
  candidates intent tools i =
  Ok (zip_with mkCand (seq i (length tools)) ((λ t, similarity intent (centroid t)) <$> tools)).
Proof using intent_length.
  induction tools as [|t tools IH]; intros i Hlen; [done|].
  apply Forall_cons in Hlen as [Ht Hlen]. cbn [candidates].
  rewrite SIMDFacts.cosineSimilarity_similarity by done.
  cbn [mbind outcome_bind]. by rewrite IH.
Qed.

(** A candidate carries the index of a tool and its similarity. *)
Lemma numbered_elem tools c :
  c ∈ zip_with mkCand (seq 0 (length tools)) ((λ t, similarity intent (centroid t)) <$> tools) →
  ∃ t, tools !! cand_index c = Some t ∧ cand_sim c = similarity intent (centroid t).
Proof.
  intros (i & j & s & -> & Hj & Hs)%elem_of_lookup_zip_with.
  apply lookup_seq in Hj as [-> _].
  rewrite list_lookup_fmap in Hs.
  destruct (tools !! i) as [t|] eqn:Ht; [|done].
  injection Hs as <-. by exists t.
Qed.

End topk.

(** The results are made from the candidates one by one. *)
Lemma results_of_candidates (toolMap : list Tool) (intent : list R) cs :
  Forall (λ c, ∃ t, toolMap !! cand_index c = Some t ∧
                    cand_sim c = similarity intent (centroid t)) cs →
  ∃ rs,
    mapM (λ c, match toolMap !! cand_index c with
               | Some t => Ok (mkResult (toolId t) (Finite (cand_sim c)) intent)
               | None => Throw InvalidIndex
               end) cs = Ok rs ∧
    Forall2 (λ c r, ∃ t, toolMap !! cand_index c = Some t ∧
                         cand_sim c = similarity intent (centroid t) ∧
                         r = mkResult (toolId t) (Finite (cand_sim c)) intent)
            cs rs.
Proof.
  induction cs as [|c cs IH]; intros Hcs.
  - exists []. split; [done|constructor].
  - apply Forall_cons in Hcs as [(t & Ht & Hsim) Hcs].
    destruct (IH Hcs) as (rs & Hrs & Hrel).
    exists (mkResult (toolId t) (Finite (cand_sim c)) intent :: rs). split.
    + cbn [mapM]. rewrite Ht. cbn [mbind outcome_bind]. rewrite Hrs. done.
    + constructor; [by exists t|done].
Qed.

(** C7. [routeTopK(k)] on [m >= 1] registered centroids and [k >= 0]
    returns [min(k, m)] results, one per candidate of the sorted and
    cut candidate list; along that list the similarity never
    increases, and of two candidates with the same similarity the one
    registered first comes first. *)
Theorem routeTopK_sorted_stable (m : NeuralMindService)
    (toolMap : list Tool) (k : Z) :
  Mind.wf m →
  Forall (λ t, length (centroid t) = FACET_SIZE) toolMap →
  toolMap ≠ [] → (0 ≤ k)%Z →
  ∃ cs rs,
    topCandidates m toolMap k = Ok cs ∧
    routeTopK m toolMap k = Ok rs ∧
    length rs = Z.to_nat k `min` length toolMap ∧
    Forall2 (λ c r, ∃ t, toolMap !! cand_index c = Some t ∧
               cand_sim c = similarity (Mind.facetView m INTENT) (centroid t) ∧
               r = mkResult (toolId t) (Finite (cand_sim c))
                     (Mind.facetView m INTENT))
            cs rs ∧
    ∀ p q cp cq, p < q → cs !! p = Some cp → cs !! q = Some cq →
      (cand_sim cq <= cand_sim cp)%R ∧
      (cand_sim cp = cand_sim cq → cand_index cp < cand_index cq).
Proof.
  intros Hwf Hlen Hne Hk.
  assert (0 ≤ INTENT < NUM_FACETS)%Z as Hi by (unfold INTENT, NUM_FACETS; lia).
  pose proof (MindFacts.facetView_length m INTENT Hwf Hi) as Hil.
  set (intent := Mind.facetView m INTENT) in *.
  set (cands := zip_with mkCand (seq 0 (length toolMap))
                  ((λ t, similarity intent (centroid t)) <$> toolMap)).
  set (sorted := js_sort by_sim_desc cands).
  assert (topCandidates m toolMap k = Ok (take (Z.to_nat k) sorted)) as Htop.
  { unfold topCandidates. rewrite decide_False by (by destruct toolMap).
    rewrite MindFacts.getFacet_Ok by done. cbn [mbind outcome_bind].
    fold intent. rewrite candidates_spec by done. cbn [mbind outcome_bind].
    unfold slice0. by rewrite decide_False by lia. }
  assert (StronglySorted before sorted) as Hsorted.
  { apply js_sort_before. unfold cands.
    pose proof (numbered_increasing
      ((λ t, similarity intent (centroid t)) <$> toolMap) 0) as [H _].
    by rewrite length_fmap in H. }
  assert (Forall (λ c, ∃ t, toolMap !! cand_index c = Some t ∧
                    cand_sim c = similarity intent (centroid t))
                 (take (Z.to_nat k) sorted)) as Helems.
  { apply Forall_forall. intros c Hc%subseteq_take.
    unfold sorted in Hc. rewrite js_sort_perm in Hc.
    by apply numbered_elem in Hc. }
  destruct (results_of_candidates toolMap intent _ Helems) as (rs & Hrs & Hrel).
  exists (take (Z.to_nat k) sorted), rs. split; [exact Htop|].
  split.
  { unfold routeTopK. rewrite Htop. cbn [mbind outcome_bind].
    rewrite MindFacts.getFacet_Ok by done. cbn [mbind outcome_bind].
    exact Hrs. }
  split.
  { rewrite <- (Forall2_length _ _ _ Hrel), length_take.
    unfold sorted. rewrite (Permutation_length (js_sort_perm _ _)).
    unfold cands. rewrite length_zip_with, length_seq, length_fmap. lia. }
  split; [exact Hrel|].
  intros p q cp cq Hpq Hp Hq.
  assert (before cp cq) as Hb.
  { rewrite <- (take_drop (Z.to_nat k) sorted) in Hsorted.
    apply StronglySorted_app_1_l in Hsorted.
    rewrite <- (take_drop q (take (Z.to_nat k) sorted)) in Hsorted.
    pose proof (lookup_lt_Some _ _ _ Hq) as Hql.
    rewrite (drop_S _ _ _ Hq) in Hsorted.
    apply (StronglySorted_app_1_elem_of _ _ _ cp cq) in Hsorted; [done| |].
    - apply elem_of_take. eauto.
    - apply elem_of_cons. by left. }
  split; [by apply before_sim|].
  intros Heq. destruct Hb as [?|[_ ?]]; [lra|done].
Qed.

Lemma demoTools_lengths :
  Forall (λ t, length (centroid t) = FACET_SIZE) demoTools.
Proof.
  unfold demoTools. constructor; [apply e0_length|].
  constructor; [apply zeros_length|].
  constructor; [apply e0_length|]. constructor.
Qed.

Lemma routeTopK_sorted_stable_witness :
  ∃ cs rs,
    topCandidates Mind.new demoTools 2 = Ok cs ∧
    routeTopK Mind.new demoTools 2 = Ok rs ∧
    length rs = Z.to_nat 2 `min` length demoTools ∧
    Forall2 (λ c r, ∃ t, demoTools !! cand_index c = Some t ∧
               cand_sim c =
                 similarity (Mind.facetView Mind.new INTENT) (centroid t) ∧
               r = mkResult (toolId t) (Finite (cand_sim c))
                     (Mind.facetView Mind.new INTENT))
            cs rs ∧
    ∀ p q cp cq, p < q → cs !! p = Some cp → cs !! q = Some cq →
      (cand_sim cq <= cand_sim cp)%R ∧
      (cand_sim cp = cand_sim cq → cand_index cp < cand_index cq).
Proof.
  apply (routeTopK_sorted_stable Mind.new demoTools 2).
  - apply MindFacts.mind_wf_new.
  - apply demoTools_lengths.
  - done.
  - lia.
Defined.

(** *** The update of a centroid *)

Lemma blend_loop_length fb lr n : ∀ i c,
  length (blend_loop n i fb lr c) = length c.
Proof.
  induction n as [|n IH]; intros i c; cbn [blend_loop]; [done|].
  by rewrite IH, length_insert.
Qed.

(** The loop rewrites the cells [i .. i+n-1], each from its own old
    value. *)
Lemma blend_loop_lookup fb lr n : ∀ i c j,
  i + n ≤ length c →
  blend_loop n i fb lr c !! j =
  if decide (i ≤ j < i + n)
  then Some (cell c j + lr * (cell fb j - cell c j))%R
  else c !! j.
Proof.
  induction n as [|n IH]; intros i c j Hlen; cbn [blend_loop].
  - rewrite decide_False by lia. done.
  - rewrite IH by (rewrite length_insert; lia).
    destruct (decide (j = i)) as [->|Hne].
    + rewrite decide_False by lia. rewrite decide_True by lia.
      apply list_lookup_insert_eq. lia.
    + unfold cell. rewrite !list_lookup_insert_ne by done.
      repeat case_decide; try done; lia.
Qed.

Lemma blend_loop_blend fb lr c :
  length c = FACET_SIZE → length fb = FACET_SIZE →
  blend_loop FACET_SIZE 0 fb lr c = blend lr c fb.
Proof.
  intros Hc Hfb. apply list_eq. intros j.
  rewrite blend_loop_lookup by lia. unfold blend, cell.
  rewrite lookup_zip_with.
  destruct (decide (j < FACET_SIZE)) as [Hj|Hj].
  - rewrite decide_True by lia.
    destruct (lookup_lt_is_Some_2 c j) as [x ->]; [lia|].
    destruct (lookup_lt_is_Some_2 fb j) as [y ->]; [lia|]. done.
  - rewrite decide_False by lia.
    rewrite (lookup_ge_None_2 c j) by lia. done.
Qed.

Lemma scale_loop_lookup inv n : ∀ i v j,
  i + n ≤ length v →
  scale_loop n i inv v !! j =
  if decide (i ≤ j < i + n) then Some (cell v j * inv)%R else v !! j.
Proof.
  induction n as [|n IH]; intros i v j Hlen; cbn [scale_loop].
  - rewrite decide_False by lia. done.
  - rewrite IH by (rewrite length_insert; lia).
    destruct (decide (j = i)) as [->|Hne].
    + rewrite decide_False by lia. rewrite decide_True by lia.
      apply list_lookup_insert_eq. lia.
    + unfold cell. rewrite !list_lookup_insert_ne by done.
      repeat case_decide; try done; lia.
Qed.

Lemma scale_loop_fmap inv v :
  length v = FACET_SIZE →
  scale_loop FACET_SIZE 0 inv v = (λ x, x * inv)%R <$> v.
Proof.
  intros Hv. apply list_eq. intros j.
  rewrite scale_loop_lookup by lia. unfold cell.
  rewrite list_lookup_fmap.
  destruct (decide (j < FACET_SIZE)) as [Hj|Hj].
  - rewrite decide_True by lia.
    destruct (lookup_lt_is_Some_2 v j) as [x ->]; [lia|]. done.
  - rewrite decide_False by lia.
    rewrite (lookup_ge_None_2 v j) by lia. done.
Qed.

Lemma sumsq_loop_dot n : ∀ i v acc,
  i + n ≤ length v →
  sumsq_loop n i v acc = (acc + dot (view i n v) (view i n v))%R.
Proof.
  induction n as [|n IH]; intros i v acc Hlen; cbn [sumsq_loop].
  - rewrite view_0, dot_nil_l. lra.
  - rewrite IH, view_S, dot_cons by lia. lra.
Qed.

Lemma dot_scale (k : R) a : ∀ b,
  dot ((λ x, x / k)%R <$> a) ((λ x, x / k)%R <$> b) =
  (dot a b / k / k)%R.
Proof.
  induction a as [|x a IH]; intros [|y b]; cbn [fmap list_fmap];
    rewrite ?dot_nil_l, ?dot_cons, ?IH; unfold dot, Rdiv; cbn; lra.
Qed.

(** Scaling a vector of nonzero norm by its norm gives a unit vector. *)
Lemma norm_unit_scale v : norm v ≠ 0%R → norm (unit_scale v) = 1%R.
Proof.
  intros Hn. unfold norm at 1, unit_scale. rewrite dot_scale.
  replace (dot v v / norm v / norm v)%R with 1%R; [apply sqrt_1|].
  assert (norm v * norm v = dot v v)%R as Hsq.
  { unfold norm. apply sqrt_sqrt, dot_self_nonneg. }
  rewrite <- Hsq. by field.
Qed.

(** [normalize] on a vector of the right length. *)
Lemma normalize_unit_scale v :
  length v = FACET_SIZE →
  SIMDOps.normalize v =
  if decide (norm v = 0%R) then v else unit_scale v.
Proof.
  intros Hv. unfold SIMDOps.normalize.
  rewrite sumsq_loop_dot, view_all, Rplus_0_l by lia. fold (norm v).
  pose proof (norm_nonneg v).
  destruct (decide (norm v = 0%R)) as [H0|H0].
  - rewrite decide_False; [done|]. rewrite H0. lra.
  - rewrite decide_True by lra. rewrite scale_loop_fmap by done.
    unfold unit_scale. apply list_fmap_ext. intros _ x _.
    unfold Rdiv. lra.
Qed.

(** What [updateTool] does to the first tool with the given id. *)
Lemma updateTool_found toolMap id feedback lr i t :
  toolMap !! i = Some t → toolId t = id →
  (∀ j t', j < i → toolMap !! j = Some t' → toolId t' ≠ id) →
  length feedback = FACET_SIZE → length (centroid t) = FACET_SIZE →
  updateTool toolMap id feedback lr =
  Ok (<[i := mkTool (toolId t) (name t)
               (if decide (norm (blend lr (centroid t) feedback) = 0%R)
                then blend lr (centroid t) feedback
                else unit_scale (blend lr (centroid t) feedback))
               (hitCount t + 1) (accuracy t)]> toolMap, Silent).
Proof.
  intros Hi Hid Hfirst Hfb Hc. unfold updateTool.
  assert (list_find (λ t, toolId t = id) toolMap = Some (i, t)) as ->.
  { apply list_find_Some. split_and!; [done..|].
    intros j t' Hj Hlt. by eapply Hfirst. }
  rewrite decide_False by (by intros []).
  rewrite blend_loop_blend by done.
  rewrite normalize_unit_scale; [done|].
  unfold blend. rewrite length_zip_with. lia.
Qed.

Lemma updateTool_unknown toolMap id feedback lr :
  (∀ t, t ∈ toolMap → toolId t ≠ id) →
  updateTool toolMap id feedback lr = Ok (toolMap, Warn id).
Proof.
  intros Hno. unfold updateTool.
  assert (list_find (λ t, toolId t = id) toolMap = None) as ->; [|done].
  apply list_find_None, Forall_forall. intros t Ht. by apply Hno.
Qed.

(** With learning rate 1 the blend is the feedback itself. *)
Lemma blend_lr_1 c : ∀ fb, length c = length fb → blend 1 c fb = fb.
Proof.
  induction c as [|x c IH]; intros [|y fb] Hlen; try done.
  injection Hlen as Hlen. unfold blend in *. cbn [zip_with].
  rewrite IH by done. f_equal. lra.
Qed.

(** C8, as the code has it. For the first tool with the given id, a
    feedback and a centroid of [FACET_SIZE] cells,
    [updateTool(id, feedback, lr)] replaces the centroid by the blend
    [centroid[i] + lr*(feedback[i] - centroid[i])], divided by its
    Euclidean norm when that norm is not 0 (the result then has norm 1)
    and left as it is when the blend is the zero vector; the hit count
    goes up by 1 and nothing else changes. With an id that no tool has,
    the tool map is returned as it was, with a warning and no error. *)
Theorem updateTool_spec (toolMap : list Tool) (id : Z) (feedback : list R)
    (lr : R) :
  (∀ i t,
     toolMap !! i = Some t → toolId t = id →
     (∀ j t', j < i → toolMap !! j = Some t' → toolId t' ≠ id) →
     length feedback = FACET_SIZE → length (centroid t) = FACET_SIZE →
     ∃ c',
       updateTool toolMap id feedback lr =
         Ok (<[i := mkTool (toolId t) (name t) c' (hitCount t + 1)
                      (accuracy t)]> toolMap, Silent) ∧
       (norm (blend lr (centroid t) feedback) ≠ 0%R →
        c' = unit_scale (blend lr (centroid t) feedback) ∧ norm c' = 1%R) ∧
       (norm (blend lr (centroid t) feedback) = 0%R →
        c' = blend lr (centroid t) feedback)) ∧
  ((∀ t, t ∈ toolMap → toolId t ≠ id) →
   updateTool toolMap id feedback lr = Ok (toolMap, Warn id)).
Proof.
  split.
  - intros i t Hi Hid Hfirst Hfb Hc.
    eexists. split; [by apply updateTool_found|].
    case_decide as Hn; split; try done.
    intros _. split; [done|]. by apply norm_unit_scale.
  - apply updateTool_unknown.
Qed.

Lemma updateTool_spec_witness :
  (∃ c',
     updateTool demoTools 2 e0 0.5 =
       Ok (<[1 := mkTool 2 "Search" c' (0 + 1) 0%R]> demoTools, Silent) ∧
     (norm (blend 0.5 zeros e0) ≠ 0%R →
      c' = unit_scale (blend 0.5 zeros e0) ∧ norm c' = 1%R) ∧
     (norm (blend 0.5 zeros e0) = 0%R → c' = blend 0.5 zeros e0)) ∧
  updateTool demoTools 7 e0 0.5 = Ok (demoTools, Warn 7).
Proof.
  split.
  - apply (proj1 (updateTool_spec demoTools 2 e0 0.5) 1
             (mkTool 2 "Search" zeros 0 0%R)).
    + reflexivity.
    + reflexivity.
    + intros j t' Hj Ht'. destruct j as [|j]; [|lia].
      injection Ht' as <-. done.
    + apply e0_length.
    + apply zeros_length.
  - apply (proj2 (updateTool_spec demoTools 7 e0 0.5)).
    intros t Ht. unfold demoTools in Ht.
    repeat (apply elem_of_cons in Ht as [->|Ht]; [done|]).
    by apply elem_of_nil in Ht.
Defined.

(** C8 with a result that always has unit length fails when the blend
    is the zero vector: a unit centroid [e0] updated with the zero
    feedback and learning rate 1 becomes the zero vector, which
    [normalize] leaves alone, so the stored centroid has norm 0,
    not 1. *)
Lemma updateTool_unit_length_counterexample :
  ∃ c',
    updateTool [mkTool 1 "Navigate" e0 0 0%R] 1 zeros 1 =
      Ok ([mkTool 1 "Navigate" c' 1 0%R], Silent) ∧
    c' = zeros ∧ norm c' = 0%R ∧ norm c' ≠ 1%R.
Proof.
  exists zeros.
  assert (blend 1 e0 zeros = zeros) as Hb.
  { apply blend_lr_1. by rewrite e0_length, zeros_length. }
  split.
  - rewrite (updateTool_found _ 1 zeros 1 0 (mkTool 1 "Navigate" e0 0 0%R));
      [|done|done|intros; lia|apply zeros_length|apply e0_length].
    cbn [centroid]. rewrite Hb, norm_zeros.
    rewrite decide_True by done. done.
  - rewrite norm_zeros. split_and!; [done|done|lra].
Qed.

End RouterFacts.

(** * Further properties of the engine *)

(** ** The ring buffer: invariants, bounds, traversal *)

Module RingExtra.
Import Ring RingFacts.

Lemma avail_bound rb : wf rb → avail rb ≤ 31.
Proof. intros [Hh Ht _ _]. unfold avail, RING_SLOTS in *. zdiv. Qed.

Lemma list_inserts_0_all (k l : list R) :
  length k = length l → list_inserts 0 k l = k.
Proof.
  intros Hlen. rewrite <- (app_nil_r l), list_inserts_0_r by done.
  apply app_nil_r.
Qed.

Lemma getSlot_Ok rb i :
  (0 ≤ i < RING_SLOTS)%Z → getSlot rb i = Ok (slot_view rb i).
Proof. intros Hi. unfold getSlot. rewrite decide_False; [done|lia]. Qed.

Lemma slot_view_length rb i :
  wf rb → (0 ≤ i < RING_SLOTS)%Z → length (slot_view rb i) = FACET_SIZE.
Proof.
  intros [_ _ _ Hs] Hi. apply view_length. rewrite Hs.
  unfold RING_FLOATS, RING_SLOTS in *. nia.
Qed.

(** X1. Whatever pushes, reads and resets a new buffer goes through,
    its head and tail stay in [0, 32), its generation fits 32 bits, its
    slot array keeps its size and [available()] stays in [0, 31]. *)
Theorem ring_reachable_invariant (rb : RingBufferService) :
  reachable rb →
  (0 ≤ getHead rb < RING_SLOTS)%Z ∧ (0 ≤ getTail rb < RING_SLOTS)%Z ∧
  (0 ≤ getGeneration rb < 2 ^ 32)%Z ∧
  length (rb_slots rb) = RING_FLOATS ∧
  (0 ≤ available rb ≤ 31)%Z.
Proof.
  intros Hr. pose proof (reachable_wf rb Hr) as Hwf.
  pose proof Hwf as [Hh Ht Hg Hs]. pose proof (avail_bound rb Hwf).
  rewrite available_avail by done. unfold getHead, getTail, getGeneration.
  split_and!; first [done|lia].
Qed.

Lemma ring_reachable_invariant_witness :
  ∃ rb, push new e0 = Ok (rb, 0%Z) ∧
    (0 ≤ getHead rb < RING_SLOTS)%Z ∧ (0 ≤ getTail rb < RING_SLOTS)%Z ∧
    (0 ≤ getGeneration rb < 2 ^ 32)%Z ∧
    length (rb_slots rb) = RING_FLOATS ∧
    (0 ≤ available rb ≤ 31)%Z.
Proof.
  eexists. split.
  - apply push_Ok; [apply e0_length|done].
  - apply ring_reachable_invariant.
    eapply reach_push; [apply reach_new|].
    apply push_Ok; [apply e0_length|done].
Defined.

(** X2. A push of a vector of the right length is refused with the
    buffer-full error exactly when 31 slots are unread. With fewer, it
    goes through, returns the old head, leaves every unread vector in
    place and adds the new one behind them. *)
Theorem push_full_iff_31_unread (rb : RingBufferService) (v : list R) :
  wf rb → length v = FACET_SIZE →
  (push rb v = Throw BufferFull ↔ available rb = 31%Z) ∧
  ((available rb < 31)%Z →
   ∃ rb', push rb v = Ok (rb', getHead rb) ∧
          queue rb' = queue rb ++ [v] ∧
          available rb' = (available rb + 1)%Z).
Proof.
  intros Hwf Hv. pose proof (avail_bound rb Hwf) as Hb.
  rewrite available_avail by done.
  assert (avail rb < 31 →
          ∃ rb', push rb v = Ok (rb', getHead rb) ∧
                 queue rb' = queue rb ++ [v] ∧
                 available rb' = (Z.of_nat (avail rb) + 1)%Z) as Hok.
  { intros Hlt.
    destruct (push_queue rb v Hwf Hv Hlt) as (rb' & Hp & Hwf' & _ & Hq & _).
    exists rb'. split; [done|]. split; [done|].
    rewrite available_avail by done.
    rewrite <- (queue_length rb'), <- (queue_length rb), Hq, length_app.
    cbn [length]. lia. }
  split.
  - split.
    + intros Hfull. destruct (decide (avail rb < 31)) as [Hlt|Hge]; [|lia].
      destruct (Hok Hlt) as (rb' & Hp & _). congruence.
    + intros H31. apply push_full; [done|].
      pose proof Hwf as [Hh Ht _ _]. unfold avail, RING_SLOTS in *. zdiv.
  - intros Hlt. apply Hok. lia.
Qed.

Lemma push_full_iff_31_unread_witness :
  (push new e0 = Throw BufferFull ↔ available new = 31%Z) ∧
  ∃ rb', push new e0 = Ok (rb', getHead new) ∧
         queue rb' = queue new ++ [e0] ∧
         available rb' = (available new + 1)%Z.
Proof.
  destruct (push_full_iff_31_unread new e0 ring_wf_new e0_length) as [Hiff Hok].
  split; [exact Hiff|]. apply Hok. reflexivity.
Defined.

(** X3. The index a push returns addresses the vector it wrote:
    [getSlot] and [readSlot] at that index give the vector back, and
    every other slot reads as before the push. *)
Theorem push_then_getSlot (rb rb' : RingBufferService) (v : list R) (i : Z) :
  wf rb → push rb v = Ok (rb', i) →
  (0 ≤ i < RING_SLOTS)%Z ∧
  getSlot rb' i = Ok v ∧
  (∀ dst, length dst = FACET_SIZE → readSlot rb' i dst = Ok v) ∧
  (∀ j, (0 ≤ j < RING_SLOTS)%Z → j ≠ i → getSlot rb' j = getSlot rb j).
Proof.
  intros Hwf Hp. pose proof Hwf as [Hh Ht Hg Hs].
  unfold push in Hp. case_decide as Hv; [done|]. case_decide; [done|].
  injection Hp as <- <-.
  assert (length v = FACET_SIZE) as Hlen by lia.
  assert (getSlot (mkRing ((rb_head rb + 1) mod RING_SLOTS)%Z (rb_tail rb)
             (if decide (((rb_head rb + 1) mod RING_SLOTS)%Z = 0%Z)
              then ((rb_gen rb + 1) mod 2 ^ 32)%Z else rb_gen rb)
             (rb_flags rb)
             (list_inserts (Z.to_nat (rb_head rb) * FACET_SIZE) v
                (rb_slots rb))) (rb_head rb) = Ok v) as Hget.
  { rewrite getSlot_Ok by done. unfold slot_view. rsimpl.
    by rewrite slot_view_inserts_eq. }
  split_and!; [lia..|exact Hget| |].
  - intros dst Hdst. unfold readSlot. rewrite decide_False by lia.
    rewrite Hget. cbn [mbind outcome_bind].
    rewrite list_inserts_0_all by lia. done.
  - intros j Hj Hne. rewrite !getSlot_Ok by done. unfold slot_view. rsimpl.
    rewrite slot_view_inserts_ne; [done|lia..|done].
Qed.

Lemma push_then_getSlot_witness :
  ∃ rb',
    push new e0 = Ok (rb', 0%Z) ∧ getSlot rb' 0 = Ok e0 ∧
    (∀ dst, length dst = FACET_SIZE → readSlot rb' 0 dst = Ok e0) ∧
    (∀ j, (0 ≤ j < RING_SLOTS)%Z → j ≠ 0%Z → getSlot rb' j = getSlot new j).
Proof.
  eexists. split; [apply push_Ok; [apply e0_length|done]|].
  eapply (push_then_getSlot new _ e0 0); [apply ring_wf_new|].
  apply push_Ok; [apply e0_length|done].
Defined.

(** The traversal from [cur] to [head] yields the slots in between. *)
Lemma iterate_loop_spec rb head n : ∀ fuel cur,
  (0 ≤ head < RING_SLOTS)%Z → (0 ≤ cur < RING_SLOTS)%Z →
  Z.to_nat ((head - cur) mod RING_SLOTS) = n → n < fuel →
  iterate_loop fuel rb head cur =
  Some (Ok ((λ j : nat, slot_view rb ((cur + Z.of_nat j) mod RING_SLOTS)%Z)
              <$> seq 0 n)).
Proof.
  induction n as [|n IH]; intros fuel cur Hh Hc Hd Hf;
    (destruct fuel as [|fuel]; [lia|]); cbn [iterate_loop].
  - rewrite decide_False; [done|]. unfold RING_SLOTS in *. zdiv.
  - rewrite decide_True by (unfold RING_SLOTS in *; zdiv).
    rewrite getSlot_Ok by done.
    rewrite (IH fuel ((cur + 1) mod RING_SLOTS)%Z);
      [|done|unfold RING_SLOTS in *; zdiv..|lia].
    cbn [seq fmap list_fmap]. do 3 f_equal.
    + f_equal. unfold RING_SLOTS in *. zdiv.
    + rewrite <- fmap_S_seq, <- list_fmap_compose.
      apply list_fmap_ext. intros _ j _. unfold compose. f_equal.
      unfold RING_SLOTS in *. zdiv.
Qed.

(** X4. [iterate()] ends after at most 31 yields, changes nothing, and
    previews the reads: the vectors it yields are as many as
    [available()] says, and they are what that many calls of
    [readNext] then return, in the same order. *)
Theorem iterate_previews_reads (rb : RingBufferService) (fuel : nat) :
  wf rb → 32 ≤ fuel →
  ∃ vs rb',
    iterate fuel rb = Some (Ok vs) ∧
    Z.of_nat (length vs) = available rb ∧
    read_n (length vs) rb = (rb', Some <$> vs).
Proof.
  intros Hwf Hfuel. pose proof Hwf as [Hh Ht _ _].
  pose proof (avail_bound rb Hwf) as Hb.
  destruct (read_n_queue (queue rb) rb []) as (rb' & Hread & _);
    [done|by rewrite app_nil_r|].
  exists (queue rb), rb'. split_and!.
  - unfold iterate, getHead, getTail.
    apply iterate_loop_spec; [done..|]. fold (avail rb). lia.
  - by rewrite queue_length, available_avail.
  - done.
Qed.

Lemma iterate_previews_reads_witness :
  ∃ vs rb',
    iterate 32 new = Some (Ok vs) ∧
    Z.of_nat (length vs) = available new ∧
    read_n (length vs) new = (rb', Some <$> vs).
Proof. apply (iterate_previews_reads new 32); [apply ring_wf_new|lia]. Defined.

(** X5. [reset()] empties the buffer whatever state it was in, a
    wrapped one included: afterwards [readNext] answers [null] and
    leaves the state alone, [isFull()] is false, [available()] is 0 and
    every slot reads as the zero vector. *)
Theorem reset_empties (rb : RingBufferService) :
  wf rb →
  readNext (reset rb) = (reset rb, None) ∧
  isFull (reset rb) = false ∧
  available (reset rb) = 0%Z ∧
  (∀ i, (0 ≤ i < RING_SLOTS)%Z → getSlot (reset rb) i = Ok zeros).
Proof.
  intros Hwf. rewrite (reset_new rb Hwf). split_and!; [done..|].
  intros i Hi. rewrite getSlot_Ok by done. f_equal.
  unfold slot_view, new, zeros. rsimpl. apply view_replicate.
  unfold RING_FLOATS, RING_SLOTS in *. nia.
Qed.

(** A drained buffer whose head has wrapped once. *)
Lemma wf_drained_wrapped : wf (mkRing 0 0 1 0 (replicate RING_FLOATS 0%R)).
Proof.
  split; rsimpl; unfold RING_SLOTS; try lia. apply length_replicate.
Qed.

Lemma reset_empties_witness :
  readNext (reset (mkRing 0 0 1 0 (replicate RING_FLOATS 0%R))) =
    (reset (mkRing 0 0 1 0 (replicate RING_FLOATS 0%R)), None) ∧
  isFull (reset (mkRing 0 0 1 0 (replicate RING_FLOATS 0%R))) = false ∧
  available (reset (mkRing 0 0 1 0 (replicate RING_FLOATS 0%R))) = 0%Z ∧
  (∀ i, (0 ≤ i < RING_SLOTS)%Z →
     getSlot (reset (mkRing 0 0 1 0 (replicate RING_FLOATS 0%R))) i = Ok zeros).
Proof. apply reset_empties, wf_drained_wrapped. Defined.

(** X6. On a drained buffer whose generation is not 0, a read returns
    the stale slot at the tail, and the buffer then counts 31 unread
    slots and refuses every push as full, although nothing is
    unread. *)
Theorem readNext_drained_wrapped (rb : RingBufferService) :
  wf rb → rb_head rb = rb_tail rb → rb_gen rb ≠ 0%Z →
  ∃ rb',
    readNext rb = (rb', Some (slot_view rb (rb_tail rb))) ∧
    available rb = 0%Z ∧ available rb' = 31%Z ∧
    (∀ v, length v = FACET_SIZE → push rb' v = Throw BufferFull).
Proof.
  intros Hwf Heq Hgen. pose proof Hwf as [Hh Ht _ _].
  unfold readNext. rewrite decide_False by (by intros [_ ?]).
  eexists. split; [done|]. unfold available, getHead, getTail. rsimpl.
  split_and!.
  - rewrite decide_True by lia. lia.
  - unfold RING_SLOTS in *. case_decide; zdiv.
  - intros v Hv. apply push_full; [done|]. rsimpl. by rewrite Heq.
Qed.

Lemma readNext_drained_wrapped_witness :
  ∃ rb',
    readNext (mkRing 0 0 1 0 (replicate RING_FLOATS 0%R)) =
      (rb', Some (slot_view (mkRing 0 0 1 0 (replicate RING_FLOATS 0%R)) 0)) ∧
    available (mkRing 0 0 1 0 (replicate RING_FLOATS 0%R)) = 0%Z ∧
    available rb' = 31%Z ∧
    (∀ v, length v = FACET_SIZE → push rb' v = Throw BufferFull).
Proof.
  apply (readNext_drained_wrapped (mkRing 0 0 1 0 (replicate RING_FLOATS 0%R)));
    [apply wf_drained_wrapped|done|done].
Defined.

(** X7. [isFull()] gives no false alarm: when it answers [true], the
    generation is above 0 and every push of a vector of the right
    length fails with the buffer-full error. *)
Theorem isFull_push_fails (rb : RingBufferService) :
  isFull rb = true →
  (rb_gen rb > 0)%Z ∧
  ∀ v, length v = FACET_SIZE → push rb v = Throw BufferFull.
Proof.
  unfold isFull, getHead, getTail.
  intros [Hnext%bool_decide_eq_true Hgen%bool_decide_eq_true]%andb_prop.
  split; [done|]. intros v Hv. by apply push_full.
Qed.

Lemma isFull_push_fails_witness :
  isFull (mkRing 0 1 1 0 (replicate RING_FLOATS 0%R)) = true ∧
  (rb_gen (mkRing 0 1 1 0 (replicate RING_FLOATS 0%R)) > 0)%Z ∧
  ∀ v, length v = FACET_SIZE →
       push (mkRing 0 1 1 0 (replicate RING_FLOATS 0%R)) v = Throw BufferFull.
Proof.
  split; [reflexivity|].
  apply (isFull_push_fails (mkRing 0 1 1 0 (replicate RING_FLOATS 0%R))).
  reflexivity.
Defined.

End RingExtra.

(** ** The arena: round trips, invariants, gradients *)

Module MindExtra.
Import Mind MindFacts.

Lemma list_inserts_0_full (k l : list R) :
  length k = length l → list_inserts 0 k l = k.
Proof.
  intros Hlen. rewrite <- (app_nil_r l), list_inserts_0_r by done.
  apply app_nil_r.
Qed.

Lemma facet_fits m f :
  wf m → (0 ≤ f < NUM_FACETS)%Z →
  Z.to_nat f * FACET_SIZE + FACET_SIZE ≤ length (mind m).
Proof.
  intros [Hm _ _] Hf. rewrite Hm. unfold MIND_FLOATS, NUM_FACETS in *. nia.
Qed.

Lemma wf_writeFacet m f v m' : wf m → writeFacet m f v = Ok m' → wf m'.
Proof.
  intros [Hm Hn Hs]. unfold writeFacet. case_decide; [done|].
  destruct (getFacet m f); [|done]. cbn [mbind outcome_bind].
  intros [= <-]. split; msimpl; [by rewrite length_inserts|done..].
Qed.

Lemma mind_wf_reset m : wf m → wf (reset m).
Proof.
  intros [Hm Hn Hs]. unfold reset, fill0. split; msimpl.
  - by rewrite length_replicate.
  - by rewrite length_fmap.
  - apply Forall_fmap. eapply Forall_impl; [done|].
    intros s Hlen. cbn. by rewrite length_replicate.
Qed.

Lemma wf_resetFacet m f m' : wf m → resetFacet m f = Ok m' → wf m'.
Proof.
  intros [Hm Hn Hs]. unfold resetFacet.
  destruct (getFacet m f); [|done]. cbn [mbind outcome_bind].
  intros [= <-]. split; msimpl.
  - by rewrite length_inserts.
  - by rewrite length_alter.
  - apply Forall_alter; [done|]. intros s Hl Hlen.
    unfold fill0. by rewrite length_replicate.
Qed.

Lemma applyGradient_Ok_inv m f delta lr mom m' :
  applyGradient m f delta lr mom = Ok m' →
  (0 ≤ f < NUM_FACETS)%Z ∧ length delta = FACET_SIZE.
Proof.
  unfold applyGradient. case_decide as Hd; [done|].
  destruct (getFacet m f) as [t|] eqn:Hg; [|done].
  apply getFacet_Ok_inv in Hg as [Hf _]. intros _. split; [done|lia].
Qed.

Lemma wf_applyGradient m f delta lr mom m' :
  wf m → applyGradient m f delta lr mom = Ok m' → wf m'.
Proof.
  intros Hwf Ha. destruct (applyGradient_Ok_inv _ _ _ _ _ _ Ha) as [Hf Hd].
  destruct (applyGradient_result m f delta lr mom Hwf Hf Hd)
    as (m2 & Ha2 & Hwf2 & _). congruence.
Qed.

Lemma facetView_written m f v :
  wf m → (0 ≤ f < NUM_FACETS)%Z → length v = FACET_SIZE →
  facetView (mkMind (list_inserts (Z.to_nat f * FACET_SIZE) v (mind m))
               (lastSnapshot m)) f = v.
Proof.
  intros Hwf Hf Hlen. unfold facetView. msimpl.
  rewrite <- Hlen at 2. apply view_inserts_eq. rewrite Hlen.
  by apply facet_fits.
Qed.

(** X8. A facet that was written reads back: after
    [writeFacet(f, v)], [getFacet(f)] is [v] and [readFacet(f, dst)]
    fills [dst] with [v]. *)
Theorem writeFacet_then_read (m m' : NeuralMindService) (f : Z)
    (v : list R) :
  wf m → writeFacet m f v = Ok m' →
  getFacet m' f = Ok v ∧
  ∀ dst, length dst = FACET_SIZE → readFacet m' f dst = Ok v.
Proof.
  intros Hwf Hw. unfold writeFacet in Hw. case_decide as Hv; [done|].
  destruct (getFacet m f) as [t|] eqn:Hg; [|done].
  apply getFacet_Ok_inv in Hg as [Hf _]. cbn [mbind outcome_bind] in Hw.
  injection Hw as <-. assert (length v = FACET_SIZE) as Hlen by lia.
  assert (getFacet (mkMind (list_inserts (Z.to_nat f * FACET_SIZE) v (mind m))
            (lastSnapshot m)) f = Ok v) as Hget.
  { rewrite getFacet_Ok by done. f_equal. unfold facetView. msimpl.
    rewrite <- Hlen at 2. apply view_inserts_eq. rewrite Hlen.
    by apply facet_fits. }
  split; [exact Hget|]. intros dst Hdst. unfold readFacet.
  rewrite decide_False by lia. rewrite Hget. cbn [mbind outcome_bind].
  rewrite list_inserts_0_full by lia. done.
Qed.

Lemma writeFacet_then_read_witness :
  ∃ m', writeFacet new 3 e0 = Ok m' ∧ getFacet m' 3 = Ok e0 ∧
    ∀ dst, length dst = FACET_SIZE → readFacet m' 3 dst = Ok e0.
Proof.
  assert (0 ≤ 3 < NUM_FACETS)%Z as H3 by (unfold NUM_FACETS; lia).
  eexists. split; [exact (writeFacet_Ok new 3 e0 H3 e0_length)|].
  exact (writeFacet_then_read new _ 3 e0 mind_wf_new
           (writeFacet_Ok new 3 e0 H3 e0_length)).
Defined.

(** X9. The arena never changes size: every mutator that returns
    leaves a bank of [MIND_FLOATS] cells and 16 shadows of
    [FACET_SIZE] cells. *)
Theorem arena_size_invariant (m : NeuralMindService) :
  wf m →
  (∀ f v m', writeFacet m f v = Ok m' → wf m') ∧
  (∀ f delta lr mom m', applyGradient m f delta lr mom = Ok m' → wf m') ∧
  (∀ f m', resetFacet m f = Ok m' → wf m') ∧
  wf (reset m).
Proof.
  intros Hwf. split_and!.
  - intros f v m'. by apply wf_writeFacet.
  - intros f delta lr mom m'. by apply wf_applyGradient.
  - intros f m'. by apply wf_resetFacet.
  - by apply mind_wf_reset.
Qed.

Lemma arena_size_invariant_witness :
  ∃ m1 m2 m3,
    writeFacet new 0 e0 = Ok m1 ∧ applyGradient new 0 e0 1 0 = Ok m2 ∧
    resetFacet new 0 = Ok m3 ∧
    wf m1 ∧ wf m2 ∧ wf m3 ∧ wf (reset new).
Proof.
  assert (0 ≤ 0 < NUM_FACETS)%Z as H0 by (unfold NUM_FACETS; lia).
  destruct (applyGradient_result new 0 e0 1 0 mind_wf_new H0 e0_length)
    as (m2 & Ha & _).
  destruct (arena_size_invariant new mind_wf_new) as (Hw & Hg & Hr & Hreset).
  eexists _, m2, _.
  split; [exact (writeFacet_Ok new 0 e0 H0 e0_length)|].
  split; [exact Ha|]. split; [exact (resetFacet_Ok new 0 H0)|].
  split; [exact (Hw _ _ _ (writeFacet_Ok new 0 e0 H0 e0_length))|].
  split; [exact (Hg _ _ _ _ _ Ha)|].
  split; [exact (Hr _ _ (resetFacet_Ok new 0 H0))|exact Hreset].
Defined.

(** X10. Momentum has no effect on a gradient that follows a gradient:
    right after an [applyGradient] on facet [f], a second one adds
    [lr*delta[i]] to every cell of the slot, whatever its momentum. *)
Theorem applyGradient_twice_no_momentum (m m1 : NeuralMindService) (f : Z)
    (d1 d2 : list R) (lr1 mom1 lr2 mom2 : R) :
  wf m → applyGradient m f d1 lr1 mom1 = Ok m1 → length d2 = FACET_SIZE →
  ∃ m2, applyGradient m1 f d2 lr2 mom2 = Ok m2 ∧
    ∀ i, i < FACET_SIZE →
      cell (facetView m2 f) i = (cell (facetView m1 f) i + lr2 * cell d2 i)%R.
Proof.
  intros Hwf Ha1 Hd2.
  destruct (applyGradient_Ok_inv _ _ _ _ _ _ Ha1) as [Hf Hd1].
  destruct (applyGradient_result m f d1 lr1 mom1 Hwf Hf Hd1)
    as (m1' & Ha1' & Hwf1 & _ & Hs1).
  assert (m1' = m1) as -> by congruence.
  destruct (applyGradient_result m1 f d2 lr2 mom2 Hwf1 Hf Hd2)
    as (m2 & Ha2 & _ & Hc2 & _).
  exists m2. split; [done|]. intros i Hi. rewrite (Hc2 i Hi), Hs1.
  unfold step. lra.
Qed.

Lemma applyGradient_twice_no_momentum_witness :
  ∃ m1 m2,
    applyGradient new 0 e0 1 1 = Ok m1 ∧
    applyGradient m1 0 e0 0.5 0.9 = Ok m2 ∧
    ∀ i, i < FACET_SIZE →
      cell (facetView m2 0) i = (cell (facetView m1 0) i + 0.5 * cell e0 i)%R.
Proof.
  assert (0 ≤ 0 < NUM_FACETS)%Z as H0 by (unfold NUM_FACETS; lia).
  destruct (applyGradient_result new 0 e0 1 1 mind_wf_new H0 e0_length)
    as (m1 & Ha1 & _).
  destruct (applyGradient_twice_no_momentum new m1 0 e0 e0 1 1 0.5 0.9
              mind_wf_new Ha1 e0_length) as (m2 & Ha2 & Hc).
  exists m1, m2. split; [exact Ha1|]. split; [exact Ha2|exact Hc].
Defined.

Lemma facetView_reset m g :
  wf m → (0 ≤ g < NUM_FACETS)%Z → facetView (reset m) g = zeros.
Proof.
  intros Hwf Hg. pose proof (facet_fits m g Hwf Hg).
  unfold facetView, reset, fill0, zeros. msimpl.
  apply view_replicate. lia.
Qed.

Lemma shadow_reset m g :
  wf m → (0 ≤ g < NUM_FACETS)%Z → shadow (reset m) g = zeros.
Proof.
  intros Hwf Hg. pose proof (shadow_length m g Hwf Hg) as Hl.
  unfold shadow, reset in *. msimpl. rewrite list_lookup_fmap.
  destruct (lastSnapshot m !! Z.to_nat g) as [sn|]; [|done].
  cbn in *. unfold fill0, zeros. by rewrite Hl.
Qed.

(** X11. [reset()] zeroes every facet and every shadow, and the first
    gradient after it sets the slot to [lr*delta] cell by cell,
    whatever the momentum. *)
Theorem gradient_after_reset (m : NeuralMindService) (f : Z)
    (delta : list R) (lr mom : R) :
  wf m → (0 ≤ f < NUM_FACETS)%Z → length delta = FACET_SIZE →
  (∀ g, (0 ≤ g < NUM_FACETS)%Z →
     facetView (reset m) g = zeros ∧ shadow (reset m) g = zeros) ∧
  ∃ m', applyGradient (reset m) f delta lr mom = Ok m' ∧
    ∀ i, i < FACET_SIZE → cell (facetView m' f) i = (lr * cell delta i)%R.
Proof.
  intros Hwf Hf Hd. split.
  - intros g Hg. split; [by apply facetView_reset|by apply shadow_reset].
  - destruct (applyGradient_result (reset m) f delta lr mom
                (mind_wf_reset m Hwf) Hf Hd) as (m' & Ha & _ & Hc & _).
    exists m'. split; [done|]. intros i Hi. rewrite (Hc i Hi).
    rewrite facetView_reset, shadow_reset, cell_zeros by done.
    unfold step. lra.
Qed.

Lemma gradient_after_reset_witness :
  (∀ g, (0 ≤ g < NUM_FACETS)%Z →
     facetView (reset new) g = zeros ∧ shadow (reset new) g = zeros) ∧
  ∃ m', applyGradient (reset new) 0 e0 0.01 0.9 = Ok m' ∧
    ∀ i, i < FACET_SIZE → cell (facetView m' 0) i = (0.01 * cell e0 i)%R.
Proof.
  apply (gradient_after_reset new 0 e0 0.01 0.9);
    [apply mind_wf_new|unfold NUM_FACETS; lia|apply e0_length].
Defined.

(** X12. The facets occupy the first half of the bank. The cells
    behind them, from cell [16*FACET_SIZE] on, are written by no
    facet operation. *)
Theorem facet_ops_spare_upper_bank (m : NeuralMindService) :
  (∀ f v m', writeFacet m f v = Ok m' →
     drop (16 * FACET_SIZE) (mind m') = drop (16 * FACET_SIZE) (mind m)) ∧
  (∀ f delta lr mom m', applyGradient m f delta lr mom = Ok m' →
     drop (16 * FACET_SIZE) (mind m') = drop (16 * FACET_SIZE) (mind m)) ∧
  (∀ f m', resetFacet m f = Ok m' →
     drop (16 * FACET_SIZE) (mind m') = drop (16 * FACET_SIZE) (mind m)).
Proof.
  split_and!.
  - intros f v m'. unfold writeFacet. case_decide as Hv; [done|].
    destruct (getFacet m f) as [t|] eqn:Hg; [|done].
    apply getFacet_Ok_inv in Hg as [Hf _]. cbn [mbind outcome_bind].
    intros [= <-]. msimpl. apply list_eq. intros j. rewrite !lookup_drop.
    apply list_lookup_inserts_ge. unfold NUM_FACETS in *. nia.
  - intros f delta lr mom m'. unfold applyGradient.
    case_decide as Hd; [done|].
    destruct (getFacet m f) as [t|] eqn:Hg; [|done].
    apply getFacet_Ok_inv in Hg as [Hf _]. cbn [mbind outcome_bind].
    pose proof (applyGradient_loop_frame (Z.to_nat f * FACET_SIZE) delta lr
      mom FACET_SIZE 0 (mind m)
      (default [] (lastSnapshot m !! Z.to_nat f))) as Hfr.
    cbv zeta in Hfr.
    destruct (applyGradient_loop _ _ _ _ _ _ _ _) as [cells' snap'].
    cbn [fst snd] in Hfr. destruct Hfr as (_ & _ & Hc & _).
    intros [= <-]. msimpl. apply list_eq. intros j. rewrite !lookup_drop.
    apply Hc. unfold NUM_FACETS in *. nia.
  - intros f m'. unfold resetFacet.
    destruct (getFacet m f) as [t|] eqn:Hg; [|done].
    apply getFacet_Ok_inv in Hg as [Hf ->]. cbn [mbind outcome_bind].
    intros [= <-]. msimpl. apply list_eq. intros j. rewrite !lookup_drop.
    apply list_lookup_inserts_ge. unfold fill0. rewrite length_replicate.
    assert (length (facetView m f) ≤ FACET_SIZE)
      by (unfold facetView, view; rewrite length_take; lia).
    unfold NUM_FACETS in *. nia.
Qed.

Lemma facet_ops_spare_upper_bank_witness :
  ∃ m1 m3,
    writeFacet new 15 e0 = Ok m1 ∧ resetFacet new 15 = Ok m3 ∧
    drop (16 * FACET_SIZE) (mind m1) = drop (16 * FACET_SIZE) (mind new) ∧
    drop (16 * FACET_SIZE) (mind m3) = drop (16 * FACET_SIZE) (mind new).
Proof.
  assert (0 ≤ 15 < NUM_FACETS)%Z as H15 by (unfold NUM_FACETS; lia).
  destruct (facet_ops_spare_upper_bank new) as (Hw & _ & Hr).
  eexists _, _.
  split; [exact (writeFacet_Ok new 15 e0 H15 e0_length)|].
  split; [exact (resetFacet_Ok new 15 H15)|].
  split; [exact (Hw _ _ _ (writeFacet_Ok new 15 e0 H15 e0_length))|].
  exact (Hr _ _ (resetFacet_Ok new 15 H15)).
Defined.

(** The loop of [snapshot] adds the facets [i .. i+n-1] to the map. *)
Lemma snapshot_loop_spec m n : ∀ (i : Z) (map : gmap Z (list R)),
  wf m → (0 ≤ i)%Z → (i + Z.of_nat n ≤ NUM_FACETS)%Z →
  ∃ map', snapshot_loop n i m map = Ok map' ∧
    ∀ j, map' !! j =
         if decide (i ≤ j < i + Z.of_nat n)%Z then Some (facetView m j)
         else map !! j.
Proof.
  induction n as [|n IH]; intros i map Hwf Hi Hn.
  - exists map. split; [done|]. intros j. rewrite decide_False by lia. done.
  - cbn [snapshot_loop]. rewrite getFacet_Ok by lia.
    cbn [mbind outcome_bind].
    rewrite list_inserts_0_full
      by (rewrite length_replicate, facetView_length by (done || lia); done).
    destruct (IH (i + 1)%Z (<[i := facetView m i]> map) Hwf) as (map' & Hl & Hm);
      [lia..|].
    exists map'. split; [done|]. intros j. rewrite Hm.
    destruct (decide (j = i)) as [->|Hne].
    + rewrite decide_False by lia. rewrite decide_True by lia.
      apply lookup_insert_eq.
    + rewrite lookup_insert_ne by done.
      repeat case_decide; try done; lia.
Qed.

(** X13. [snapshot()] returns a map with the keys 0 to 15 and no
    other, and under each key the content of that facet. *)
Theorem snapshot_all_facets (m : NeuralMindService) :
  wf m →
  ∃ s, snapshot m = Ok s ∧
    ∀ j, s !! j =
         if decide (0 ≤ j < NUM_FACETS)%Z then Some (facetView m j) else None.
Proof.
  intros Hwf. unfold snapshot.
  destruct (snapshot_loop_spec m (Z.to_nat NUM_FACETS) 0 ∅ Hwf)
    as (s & Hs & Hl); [lia|unfold NUM_FACETS; lia|].
  exists s. split; [done|]. intros j. rewrite Hl, lookup_empty.
  unfold NUM_FACETS. repeat case_decide; try done; lia.
Qed.

Lemma snapshot_all_facets_witness :
  ∃ s, snapshot new = Ok s ∧
    ∀ j, s !! j =
         if decide (0 ≤ j < NUM_FACETS)%Z then Some (facetView new j) else None.
Proof. apply (snapshot_all_facets new), mind_wf_new. Defined.

End MindExtra.

(** ** The numeric kernels: pointwise meaning, bounds, idempotence *)

Module SIMDExtra.
Import SIMDOps SIMDFacts RouterFacts.

Lemma cell_insert (l : list R) i j x :
  cell (<[i := x]> l) j =
  if decide (i = j ∧ i < length l) then x else cell l j.
Proof. unfold cell. rewrite list_lookup_insert. by case_decide. Qed.

(** The unrolled loop of [addScaled] updates the cells
    [i .. i+4n-1], each from its own old value. *)
Lemma addScaled_loop_lookup src scale n : ∀ i t j,
  i + 4 * n ≤ length t →
  addScaled_loop n i src scale t !! j =
  if decide (i ≤ j < i + 4 * n)
  then Some (cell t j + cell src j * scale)%R
  else t !! j.
Proof.
  induction n as [|n IH]; intros i t j Hlen; cbn [addScaled_loop].
  - rewrite decide_False by lia. done.
  - cbv zeta. rewrite IH by (rewrite !length_insert; lia).
    rewrite !cell_insert, !list_lookup_insert, !length_insert.
    repeat case_decide; try lia; try done.
    all: match goal with
         | H : _ = ?k ∧ _ |- _ = Some (cell _ ?k + _)%R =>
             destruct H as [<- _]
         end; done.
Qed.

(** X14. On two vectors of [FACET_SIZE] cells, the unrolled loop of
    [addScaled] visits every cell of the target once and leaves
    [target[i] + source[i]*scale] in it; the target keeps its
    length. *)
Theorem addScaled_pointwise (target source : list R) (scale : R) :
  length target = FACET_SIZE → length source = FACET_SIZE →
  addScaled target source scale =
    zip_with (λ t s, t + s * scale)%R target source ∧
  length (addScaled target source scale) = FACET_SIZE.
Proof.
  intros Ht Hs.
  assert (addScaled target source scale =
          zip_with (λ t s, t + s * scale)%R target source) as Hzip.
  { apply list_eq. intros j. unfold addScaled.
    change (FACET_SIZE / 4) with 128.
    rewrite addScaled_loop_lookup by (rewrite Ht; unfold FACET_SIZE; lia).
    change (0 + 4 * 128) with FACET_SIZE. rewrite lookup_zip_with.
    unfold cell.
    destruct (decide (j < FACET_SIZE)) as [Hj|Hj].
    - rewrite decide_True by lia.
      destruct (lookup_lt_is_Some_2 target j) as [x ->]; [lia|].
      destruct (lookup_lt_is_Some_2 source j) as [y ->]; [lia|]. done.
    - rewrite decide_False by lia.
      rewrite (lookup_ge_None_2 target j) by lia. done. }
  split; [done|]. rewrite Hzip, length_zip_with. lia.
Qed.

Lemma addScaled_pointwise_witness :
  addScaled zeros e0 2 = zip_with (λ t s, t + s * 2)%R zeros e0 ∧
  length (addScaled zeros e0 2) = FACET_SIZE.
Proof.
  apply (addScaled_pointwise zeros e0 2); [apply zeros_length|apply e0_length].
Defined.

Lemma relu_loop_lookup n : ∀ i v j,
  i + 4 * n ≤ length v →
  relu_loop n i v !! j =
  if decide (i ≤ j < i + 4 * n) then Some (Rmax 0 (cell v j)) else v !! j.
Proof.
  induction n as [|n IH]; intros i v j Hlen; cbn [relu_loop].
  - rewrite decide_False by lia. done.
  - cbv zeta. rewrite IH by (rewrite !length_insert; lia).
    rewrite !cell_insert, !list_lookup_insert, !length_insert.
    repeat case_decide; try lia; try done.
    all: match goal with
         | H : _ = ?k ∧ _ |- _ = Some (Rmax 0 (cell _ ?k)) =>
             destruct H as [<- _]
         end; done.
Qed.

Lemma relu_fmap v : length v = FACET_SIZE → relu v = Rmax 0 <$> v.
Proof.
  intros Hv. apply list_eq. intros j. unfold relu.
  change (FACET_SIZE / 4) with 128.
  rewrite relu_loop_lookup by (rewrite Hv; unfold FACET_SIZE; lia).
  change (0 + 4 * 128) with FACET_SIZE. rewrite list_lookup_fmap. unfold cell.
  destruct (decide (j < FACET_SIZE)) as [Hj|Hj].
  - rewrite decide_True by lia.
    destruct (lookup_lt_is_Some_2 v j) as [x ->]; [lia|]. done.
  - rewrite decide_False by lia.
    rewrite (lookup_ge_None_2 v j) by lia. done.
Qed.

(** X15. On a vector of [FACET_SIZE] cells, [relu] replaces every cell
    by [max(0, cell)]: no cell of the result is negative, a vector
    without negative cells is left as it is, and a second [relu]
    changes nothing. *)
Theorem relu_clamps (v : list R) :
  length v = FACET_SIZE →
  relu v = Rmax 0 <$> v ∧
  Forall (λ x, 0 <= x)%R (relu v) ∧
  (Forall (λ x, 0 <= x)%R v → relu v = v) ∧
  relu (relu v) = relu v.
Proof.
  intros Hv. rewrite !relu_fmap; rewrite ?relu_fmap, ?length_fmap; try done.
  split; [done|]. split_and!.
  - apply Forall_fmap, Forall_true. intros x. apply Rmax_l.
  - intros Hpos. rewrite <- (list_fmap_id v) at 2.
    apply Forall_fmap_ext_1. eapply Forall_impl; [done|].
    intros x Hx. cbn. by apply Rmax_right.
  - rewrite <- list_fmap_compose. apply list_fmap_ext. intros _ x _.
    cbn. apply Rmax_right, Rmax_l.
Qed.

Lemma relu_clamps_witness :
  relu e0 = Rmax 0 <$> e0 ∧
  Forall (λ x, 0 <= x)%R (relu e0) ∧
  (Forall (λ x, 0 <= x)%R e0 → relu e0 = e0) ∧
  relu (relu e0) = relu e0.
Proof. apply (relu_clamps e0), e0_length. Defined.

Lemma unit_scale_length v : length (Router.unit_scale v) = length v.
Proof. unfold Router.unit_scale. apply length_fmap. Qed.

(** No cell of a vector is larger in magnitude than the norm. *)
Lemma elem_le_norm (v : list R) x : x ∈ v → (Rabs x <= norm v)%R.
Proof.
  intros Hx. unfold norm. rewrite <- sqrt_Rsqr_abs.
  apply sqrt_le_1_alt. unfold Rsqr.
  induction v as [|y v IH]; [by apply elem_of_nil in Hx|].
  rewrite dot_cons. pose proof (dot_self_nonneg v).
  apply elem_of_cons in Hx as [->|Hx]; [nra|]. specialize (IH Hx). nra.
Qed.

(** A vector divided by its norm has its cells in [-1, 1]. *)
Lemma unit_scale_range v :
  norm v ≠ 0%R → Forall (λ y, -1 <= y <= 1)%R (Router.unit_scale v).
Proof.
  intros H0. pose proof (norm_nonneg v) as Hn. unfold Router.unit_scale.
  apply Forall_fmap, Forall_forall. intros x Hx. cbn.
  pose proof (elem_le_norm v x Hx) as Hle.
  assert (x / norm v * norm v = x)%R as Hq by (field; done).
  revert Hle. unfold Rabs. destruct Rcase_abs; intros Hle; split; nra.
Qed.

Lemma normalize_range v :
  length v = FACET_SIZE → Forall (λ y, -1 <= y <= 1)%R (normalize v).
Proof.
  intros Hv. rewrite (normalize_unit_scale v Hv).
  destruct (decide (norm v = 0%R)) as [H0|H0]; [|by apply unit_scale_range].
  apply Forall_forall. intros x Hx.
  pose proof (elem_le_norm v x Hx) as Hle. rewrite H0 in Hle.
  revert Hle. unfold Rabs. destruct Rcase_abs; lra.
Qed.

(** X16. On a vector of [FACET_SIZE] cells, [normalize] leaves a
    vector of norm 0 as it is (it never divides by 0) and multiplies
    every cell of any other vector by [1/norm]; the length is kept and
    every cell of the result is in [-1, 1]. *)
Theorem normalize_cells (v : list R) :
  length v = FACET_SIZE →
  length (normalize v) = FACET_SIZE ∧
  (norm v = 0%R → normalize v = v) ∧
  (norm v ≠ 0%R → normalize v = (λ x, x * (1 / norm v))%R <$> v) ∧
  Forall (λ y, -1 <= y <= 1)%R (normalize v).
Proof.
  intros Hv. split_and!.
  - rewrite (normalize_unit_scale v Hv). case_decide; [done|].
    by rewrite unit_scale_length.
  - intros H0. rewrite (normalize_unit_scale v Hv). by rewrite decide_True.
  - intros H0. rewrite (normalize_unit_scale v Hv), decide_False by done.
    unfold Router.unit_scale. apply list_fmap_ext. intros _ x _.
    unfold Rdiv. lra.
  - by apply normalize_range.
Qed.

Lemma normalize_cells_witness :
  length (normalize e0) = FACET_SIZE ∧
  (norm e0 = 0%R → normalize e0 = e0) ∧
  (norm e0 ≠ 0%R → normalize e0 = (λ x, x * (1 / norm e0))%R <$> e0) ∧
  Forall (λ y, -1 <= y <= 1)%R (normalize e0).
Proof. apply (normalize_cells e0), e0_length. Defined.

(** X17. For a bound [max >= 0] and a gradient of [FACET_SIZE] cells,
    [clipGradient] leaves a gradient whose norm is within the bound as
    it is, and multiplies every cell of a longer one by [max/norm], a
    factor in [0, 1]: no cell changes sign or grows in magnitude, and
    the length is kept. *)
Theorem clipGradient_shrinks (g : list R) (max : R) :
  length g = FACET_SIZE → (0 <= max)%R →
  length (clipGradient g max) = FACET_SIZE ∧
  (norm g <= max → clipGradient g max = g)%R ∧
  ((norm g > max)%R →
   clipGradient g max = (λ x, x * (max / norm g))%R <$> g ∧
   (0 <= max / norm g <= 1)%R) ∧
  (∀ i, Rabs (cell (clipGradient g max) i) <= Rabs (cell g i) ∧
        0 <= cell (clipGradient g max) i * cell g i)%R.
Proof.
  intros Hg Hmax. unfold clipGradient.
  rewrite sumsq_loop_dot, view_all, Rplus_0_l by lia. fold (norm g).
  destruct (decide (norm g > max)%R) as [Hgt|Hle].
  - rewrite scale_loop_fmap by done.
    assert (0 <= max / norm g <= 1)%R as Hk.
    { assert (max / norm g * norm g = max)%R as Hq by (field; lra).
      assert (0 < / norm g)%R by (apply Rinv_0_lt_compat; lra).
      unfold Rdiv in *. split; nra. }
    split; [by rewrite length_fmap|]. split; [lra|]. split; [done|].
    intros i. unfold cell. rewrite list_lookup_fmap.
    destruct (g !! i) as [x|]; cbn.
    + rewrite Rabs_mult, (Rabs_pos_eq (max / norm g)) by lra.
      pose proof (Rabs_pos x). split; [nra|].
      replace (x * (max / norm g) * x)%R with (max / norm g * (x * x))%R
        by ring.
      apply Rmult_le_pos; [lra|nra].
    + rewrite Rabs_R0. lra.
  - split; [done|]. split; [done|]. split; [lra|].
    intros i. split; [lra|nra].
Qed.

Lemma clipGradient_shrinks_witness :
  length (clipGradient e0 0.5) = FACET_SIZE ∧
  (norm e0 <= 0.5 → clipGradient e0 0.5 = e0)%R ∧
  ((norm e0 > 0.5)%R →
   clipGradient e0 0.5 = (λ x, x * (0.5 / norm e0))%R <$> e0 ∧
   (0 <= 0.5 / norm e0 <= 1)%R) ∧
  (∀ i, Rabs (cell (clipGradient e0 0.5) i) <= Rabs (cell e0 i) ∧
        0 <= cell (clipGradient e0 0.5) i * cell e0 i)%R.
Proof. apply (clipGradient_shrinks e0 0.5 e0_length). lra. Defined.

(** *** softmax *)

Lemma max_loop_spec v n : ∀ i mx,
  (mx <= max_loop n i v mx)%R ∧
  (∀ j, i ≤ j < i + n → (cell v j <= max_loop n i v mx)%R) ∧
  (max_loop n i v mx = mx ∨
   ∃ j, i ≤ j < i + n ∧ max_loop n i v mx = cell v j).
Proof.
  induction n as [|n IH]; intros i mx; cbn [max_loop].
  - split; [lra|]. split; [intros; lia|by left].
  - destruct (IH (S i) (if decide (cell v i > mx)%R then cell v i else mx))
      as (Hge & Hall & Hwhere).
    split_and!.
    + case_decide; lra.
    + intros j Hj. destruct (decide (j = i)) as [->|Hne].
      * case_decide; lra.
      * apply Hall. lia.
    + destruct Hwhere as [Heq|(j & Hj & Heq)].
      * case_decide; [|by left]. right. exists i. split; [lia|done].
      * right. exists j. split; [lia|done].
Qed.

Lemma exp_loop_spec M n : ∀ i v sum,
  i + n ≤ length v →
  (∀ j, (exp_loop n i M v sum).1 !! j =
        if decide (i ≤ j < i + n) then Some (exp (cell v j - M)) else v !! j) ∧
  (exp_loop n i M v sum).2 =
    (sum + foldr Rplus 0 ((λ x, exp (x - M)) <$> view i n v))%R.
Proof.
  induction n as [|n IH]; intros i v sum Hlen; cbn [exp_loop].
  - split.
    + intros j. rewrite decide_False by lia. done.
    + rewrite view_0. cbn. lra.
  - cbv zeta.
    destruct (IH (S i) (<[i := exp (cell v i - M)]> v)
                (sum + cell (<[i := exp (cell v i - M)]> v) i)%R)
      as [Hl Hs]; [rewrite length_insert; lia|].
    split.
    + intros j. rewrite Hl, cell_insert, list_lookup_insert.
      repeat case_decide; try lia; try done.
      match goal with H : _ = j ∧ _ |- _ => destruct H as [<- _] end. done.
    + rewrite Hs, cell_insert, decide_True by (split; [done|lia]).
      rewrite (view_S i) by lia. cbn [fmap list_fmap foldr].
      rewrite (view_ext (S i) n (<[i := exp (cell v i - M)]> v) v).
      * lra.
      * intros j Hj. apply list_lookup_insert_ne. lia.
Qed.

Lemma sum_nonneg (l : list R) :
  Forall (λ x, 0 <= x)%R l → (0 <= foldr Rplus 0 l)%R.
Proof. induction 1; cbn [foldr]; lra. Qed.

Lemma sum_ge_elem (l : list R) x :
  Forall (λ x, 0 <= x)%R l → x ∈ l → (x <= foldr Rplus 0 l)%R.
Proof.
  induction 1 as [|y l Hy Hl IH]; intros Hin; [by apply elem_of_nil in Hin|].
  cbn [foldr]. pose proof (sum_nonneg l Hl).
  apply elem_of_cons in Hin as [->|Hin]; [lra|]. specialize (IH Hin). lra.
Qed.

(** X18. On a vector of [FACET_SIZE] cells, [softmax] subtracts the
    largest cell [M] before it exponentiates, so no exponent is above
    0; the sum [S] of the exponentials is at least 1, so the division
    is never by 0; the result is [exp(v[i] - M) * (1/S)] in every
    cell, and every cell of the result is in [0, 1]. *)
Theorem softmax_cells (v : list R) :
  length v = FACET_SIZE →
  ∃ M S,
    M ∈ v ∧ Forall (λ x, x <= M)%R v ∧
    S = foldr Rplus 0%R ((λ x, exp (x - M)) <$> v) ∧ (1 <= S)%R ∧
    softmax v = (λ x, exp (x - M) * (1 / S))%R <$> v ∧
    Forall (λ y, 0 <= y <= 1)%R (softmax v).
Proof.
  intros Hv. unfold softmax.
  set (M := max_loop (FACET_SIZE - 1) 1 v (cell v 0)).
  destruct (max_loop_spec v (FACET_SIZE - 1) 1 (cell v 0))
    as (Hge & Hall & Hwhere). fold M in Hge, Hall, Hwhere.
  destruct (exp_loop_spec M FACET_SIZE 0 v 0%R) as [Hl Hs]; [lia|].
  destruct (exp_loop FACET_SIZE 0 M v 0%R) as [v' sum]. cbn [fst snd] in Hl, Hs.
  rewrite view_all, Rplus_0_l in Hs by done.
  assert (v' = (λ x, exp (x - M)) <$> v) as ->.
  { apply list_eq. intros j. rewrite Hl, list_lookup_fmap. unfold cell.
    destruct (decide (j < FACET_SIZE)) as [Hj|Hj].
    - rewrite decide_True by lia.
      destruct (lookup_lt_is_Some_2 v j) as [x ->]; [lia|]. done.
    - rewrite decide_False by lia.
      rewrite (lookup_ge_None_2 v j) by lia. done. }
  assert (0 < FACET_SIZE) as Hpos by (unfold FACET_SIZE; lia).
  assert (Forall (λ y, 0 <= y)%R ((λ x, exp (x - M)) <$> v)) as Hexp.
  { apply Forall_fmap, Forall_true. intros x. cbn.
    pose proof (exp_pos (x - M)). lra. }
  assert (Forall (λ x, x <= M)%R v) as Hmax.
  { apply Forall_lookup. intros j x Hj. pose proof (lookup_lt_Some _ _ _ Hj).
    rewrite <- (cell_lookup _ _ _ Hj).
    destruct (decide (j = 0)) as [->|Hne]; [done|]. apply Hall. lia. }
  assert (M ∈ v) as HM.
  { destruct Hwhere as [Heq|(j & Hj & Heq)]; rewrite Heq.
    - destruct (lookup_lt_is_Some_2 v 0) as [x Hx]; [lia|].
      rewrite (cell_lookup _ _ _ Hx). by eapply list_elem_of_lookup_2.
    - destruct (lookup_lt_is_Some_2 v j) as [x Hx]; [lia|].
      rewrite (cell_lookup _ _ _ Hx). by eapply list_elem_of_lookup_2. }
  assert (1 <= sum)%R as Hsum.
  { assert (exp (M - M) = 1%R) as <- by (rewrite Rminus_diag; apply exp_0).
    rewrite Hs. apply sum_ge_elem; [done|].
    apply (list_elem_of_fmap_2 (λ x, exp (x - M)) v M HM). }
  rewrite scale_loop_fmap by (by rewrite length_fmap).
  rewrite <- list_fmap_compose.
  exists M, sum. split; [done|]. split; [done|]. split; [done|].
  split; [done|]. split; [done|].
  apply Forall_fmap, Forall_forall. intros x Hx. cbn.
  assert (exp (x - M) <= sum)%R as Hle.
  { rewrite Hs. apply sum_ge_elem; [done|].
    apply (list_elem_of_fmap_2 (λ x, exp (x - M)) v x Hx). }
  pose proof (exp_pos (x - M)).
  assert (exp (x - M) * (1 / sum) * sum = exp (x - M))%R as Hq
    by (field; lra).
  split; nra.
Qed.

Lemma softmax_cells_witness :
  ∃ M S,
    M ∈ e0 ∧ Forall (λ x, x <= M)%R e0 ∧
    S = foldr Rplus 0%R ((λ x, exp (x - M)) <$> e0) ∧ (1 <= S)%R ∧
    softmax e0 = (λ x, exp (x - M) * (1 / S))%R <$> e0 ∧
    Forall (λ y, 0 <= y <= 1)%R (softmax e0).
Proof. apply (softmax_cells e0), e0_length. Defined.

(** *** cosineSimilarity *)

Lemma similarity_comm a b : similarity a b = similarity b a.
Proof.
  unfold similarity, cosine. rewrite (dot_comm a b), (Rmult_comm (norm a)).
  destruct (decide (norm a = 0%R ∨ norm b = 0%R)) as [Hz|Hz].
  - rewrite decide_True; [done|]. destruct Hz; [by right|by left].
  - rewrite decide_False; [done|]. intros [?|?]; apply Hz; [by right|by left].
Qed.

Lemma similarity_self a : norm a ≠ 0%R → similarity a a = 1%R.
Proof.
  intros Hn. unfold similarity, cosine.
  rewrite decide_False by (by intros [?|?]).
  assert (norm a * norm a = dot a a)%R as <-.
  { unfold norm. apply sqrt_sqrt, dot_self_nonneg. }
  by field.
Qed.

(** X19. On vectors of [FACET_SIZE] cells, [cosineSimilarity] is
    symmetric, gives 1 for a vector of nonzero norm against itself and
    0 for a vector of norm 0 against itself. *)
Theorem cosineSimilarity_symmetric (a b : list R) :
  length a = FACET_SIZE → length b = FACET_SIZE →
  cosineSimilarity a b = cosineSimilarity b a ∧
  (norm a ≠ 0%R → cosineSimilarity a a = Ok 1%R) ∧
  (norm a = 0%R → cosineSimilarity a a = Ok 0%R).
Proof.
  intros Ha Hb.
  rewrite !cosineSimilarity_similarity; try done.
  split_and!.
  - f_equal. apply similarity_comm.
  - intros Hn. f_equal. by apply similarity_self.
  - intros Hn. unfold similarity. rewrite decide_True by (by left). done.
Qed.

Lemma cosineSimilarity_symmetric_witness :
  cosineSimilarity e0 zeros = cosineSimilarity zeros e0 ∧
  cosineSimilarity e0 e0 = Ok 1%R ∧
  cosineSimilarity zeros zeros = Ok 0%R.
Proof.
  destruct (cosineSimilarity_symmetric e0 zeros e0_length zeros_length)
    as (H1 & H2 & _).
  destruct (cosineSimilarity_symmetric zeros zeros zeros_length zeros_length)
    as (_ & _ & H3).
  split; [exact H1|]. split; [apply H2; rewrite norm_e0; lra|].
  apply H3, norm_zeros.
Defined.

End SIMDExtra.

(** ** The threshold monitor: adaptation and the polling step *)

Module MonitorExtra.
Import Prometheus PrometheusFacts.

(** X20. With a learning rate in [0, 1] and a threshold [t] in the
    clamp range, [adapt(facet, s)] moves the threshold toward the
    observation and never past it: down to no less than [max(0.5, s)]
    when [s <= t], up to no more than [min(0.95, s)] when [s >= t]. The
    thresholds of the other facets are not touched. *)
Theorem adapt_moves_toward_observation (p : PrometheusService) (facet : Z)
    (cfg : ThresholdConfig) (s : R) :
  thresholds p !! facet = Some cfg →
  (0 <= cfg_learningRate cfg <= 1)%R →
  (0.5 <= cfg_threshold cfg <= 0.95)%R →
  ∃ cfg',
    thresholds (adapt p facet s) !! facet = Some cfg' ∧
    (s <= cfg_threshold cfg →
     Rmax 0.5 s <= cfg_threshold cfg' <= cfg_threshold cfg)%R ∧
    (cfg_threshold cfg <= s →
     cfg_threshold cfg <= cfg_threshold cfg' <= Rmin 0.95 s)%R ∧
    (∀ g, g ≠ facet →
       thresholds (adapt p facet s) !! g = thresholds p !! g).
Proof.
  intros Hcfg Hlr Ht. unfold adapt. rewrite Hcfg. eexists.
  split; [apply lookup_insert_eq|]. cbn [cfg_threshold thresholds].
  set (t := cfg_threshold cfg) in *. set (lr := cfg_learningRate cfg) in *.
  split_and!.
  - intros Hs. unfold Rmax, Rmin. repeat destruct Rle_dec; nra.
  - intros Hs. unfold Rmax, Rmin. repeat destruct Rle_dec; nra.
  - intros g Hg. by rewrite lookup_insert_ne.
Qed.

Lemma adapt_moves_toward_observation_witness :
  ∃ cfg',
    thresholds (adapt new 0 0.2%R) !! 0%Z = Some cfg' ∧
    (Rmax 0.5 0.2 <= cfg_threshold cfg' <= 0.7)%R ∧
    (∀ g, g ≠ 0%Z → thresholds (adapt new 0 0.2%R) !! g = thresholds new !! g).
Proof.
  destruct (adapt_moves_toward_observation new 0 (defaultCfg 0) 0.2%R
              new_lookup_INTENT)
    as (cfg' & Hl & Hdown & _ & Hfr);
    [cbn [defaultCfg cfg_learningRate]; lra
    |cbn [defaultCfg cfg_threshold]; lra|].
  exists cfg'. split; [exact Hl|]. split; [|exact Hfr].
  apply Hdown. cbn [defaultCfg cfg_threshold]. lra.
Defined.

Lemma list_inserts_0_same (k l : list R) :
  length k = length l → list_inserts 0 k l = k.
Proof.
  intros Hlen. rewrite <- (app_nil_r l), list_inserts_0_r by done.
  apply app_nil_r.
Qed.

Lemma newMonitor_lookup_INTENT m :
  thresholds (mon_service (newMonitor m)) !! 0%Z = Some (defaultCfg 0) ∧
  mon_lastStates (newMonitor m) !! 0%Z =
    Some (list_inserts 0 (Mind.facetView m 0) (replicate FACET_SIZE 0%R)).
Proof.
  split; [apply new_lookup_INTENT|].
  unfold newMonitor, monitored. cbn [foldl mon_lastStates].
  rewrite !lookup_insert_ne by done. apply lookup_insert_eq.
Qed.

(** The monitor the constructor builds is well formed. *)
Lemma newMonitor_wf m : mon_wf (newMonitor m).
Proof.
  split.
  - intros f. unfold newMonitor, new, monitored.
    cbn [mon_order mon_service thresholds foldl].
    rewrite !lookup_insert_is_Some, lookup_empty, !elem_of_cons, elem_of_nil.
    assert (is_Some (@None ThresholdConfig) ↔ False) as ->
      by (split; [by intros [? ?]|done]).
    lia.
  - unfold newMonitor, monitored. cbn [mon_order].
    repeat (apply NoDup_cons; split;
              [rewrite ?elem_of_cons, elem_of_nil; lia|]).
    apply NoDup_nil_2.
  - intros f. unfold newMonitor, monitored, NUM_FACETS. cbn [mon_order].
    rewrite !elem_of_cons, elem_of_nil. intros H. destruct_or!; subst; lia.
  - intros f. unfold newMonitor, monitored.
    cbn [mon_order mon_lastStates foldl].
    rewrite !elem_of_cons, elem_of_nil. intros H.
    destruct_or!; subst; try done;
      (eexists; split;
        [repeat (rewrite lookup_insert_ne by done); apply lookup_insert_eq
        |by rewrite length_inserts, length_replicate]).
Qed.

(** One iteration of the loop of [check], for a key [g] of a well
    formed monitor: it returns, keeps the monitor well formed, fires
    for no facet but [g] and touches no entry but that of [g]. *)
Lemma check_facet_step m mon g :
  Mind.wf m → mon_wf mon → g ∈ mon_order mon →
  ∃ mon' intrs,
    check_facet m mon g = Ok (mon', intrs) ∧ mon_wf mon' ∧
    mon_order mon' = mon_order mon ∧
    Forall (λ i, intr_facet i = g) intrs ∧
    (∀ h, h ≠ g →
       thresholds (mon_service mon') !! h = thresholds (mon_service mon) !! h ∧
       mon_lastStates mon' !! h = mon_lastStates mon !! h).
Proof.
  intros Hwf Hmon Hg. pose proof Hmon as [Hkeys Hnd Hrange Hsnap].
  destruct (proj1 (Hkeys g) Hg) as [cfg Hcfg].
  destruct (Hsnap g Hg) as (last & Hlast & Hlen).
  pose proof (Hrange g Hg) as Hr.
  unfold check_facet. rewrite Hcfg, MindFacts.getFacet_Ok by done.
  cbn [mbind outcome_bind]. rewrite Hlast.
  rewrite SIMDFacts.cosineSimilarity_similarity
    by (done || by apply MindFacts.facetView_length).
  cbn [mbind outcome_bind]. case_decide as Hsim.
  - eexists _, _. split; [done|]. split_and!.
    + split; cbn [mon_order mon_service mon_lastStates].
      * intros f. rewrite Hkeys. unfold adapt. rewrite Hcfg.
        cbn [thresholds]. rewrite lookup_insert_is_Some.
        destruct (decide (g = f)) as [<-|Hne].
        -- split; [by left|]. intros _. by eexists.
        -- split; [by right|]. by intros [?|[_ ?]].
      * done.
      * done.
      * intros f Hf. destruct (decide (f = g)) as [->|Hne].
        -- eexists. split; [apply lookup_insert_eq|].
           by rewrite length_inserts.
        -- rewrite lookup_insert_ne by done. by apply Hsnap.
    + done.
    + by repeat constructor.
    + intros h Hh. cbn [mon_service mon_lastStates]. unfold adapt.
      rewrite Hcfg. cbn [thresholds].
      by rewrite !lookup_insert_ne by done.
  - eexists _, _. split; [done|]. split_and!; try done.
Qed.

(** A run of iterations over keys of the monitor. *)
Lemma check_loop_steps m fs : ∀ mon,
  Mind.wf m → mon_wf mon → (∀ g, g ∈ fs → g ∈ mon_order mon) →
  ∃ mon' intrs,
    check_loop m mon fs = Ok (mon', intrs) ∧ mon_wf mon' ∧
    mon_order mon' = mon_order mon ∧
    Forall (λ i, intr_facet i ∈ fs) intrs ∧
    (∀ h, h ∉ fs →
       thresholds (mon_service mon') !! h = thresholds (mon_service mon) !! h ∧
       mon_lastStates mon' !! h = mon_lastStates mon !! h).
Proof.
  induction fs as [|g fs IH]; intros mon Hwf Hmon Hsub.
  - exists mon, []. split_and!; try done.
  - destruct (check_facet_step m mon g Hwf Hmon)
      as (mon1 & intrs1 & Hstep & Hmon1 & Hord1 & Hf1 & Hfr1).
    { apply Hsub. by left. }
    destruct (IH mon1 Hwf Hmon1)
      as (mon2 & intrs2 & Hloop & Hmon2 & Hord2 & Hf2 & Hfr2).
    { intros h Hh. rewrite Hord1. apply Hsub. by right. }
    exists mon2, (intrs1 ++ intrs2). cbn [check_loop].
    rewrite Hstep. cbn [mbind outcome_bind]. rewrite Hloop.
    split; [done|]. split; [done|]. split; [congruence|]. split.
    + apply Forall_app. split.
      * eapply Forall_impl; [exact Hf1|]. intros i ->. by left.
      * eapply Forall_impl; [exact Hf2|]. intros i Hi. by right.
    + intros h Hh. apply not_elem_of_cons in Hh as [Hne Hh].
      destruct (Hfr1 h Hne) as [<- <-]. by apply Hfr2.
Qed.

(** An iteration for a facet whose similarity to its snapshot is below
    its threshold fires, stores a threshold of the clamp range and
    takes the facet as the new snapshot. *)
Lemma check_facet_fires m mon f cfg last :
  Mind.wf m → (0 ≤ f < NUM_FACETS)%Z →
  thresholds (mon_service mon) !! f = Some cfg →
  mon_lastStates mon !! f = Some last → length last = FACET_SIZE →
  (similarity (Mind.facetView m f) last < cfg_threshold cfg)%R →
  ∃ mon' cfg' intr,
    check_facet m mon f = Ok (mon', [intr]) ∧
    intr_facet intr = f ∧
    intr_similarity intr = similarity (Mind.facetView m f) last ∧
    thresholds (mon_service mon') !! f = Some cfg' ∧
    (0.5 <= cfg_threshold cfg' <= 0.95)%R ∧
    mon_lastStates mon' !! f = Some (Mind.facetView m f).
Proof.
  intros Hwf Hf Hcfg Hlast Hlen Hsim. unfold check_facet.
  rewrite Hcfg, MindFacts.getFacet_Ok by done.
  cbn [mbind outcome_bind]. rewrite Hlast.
  rewrite SIMDFacts.cosineSimilarity_similarity
    by (done || by apply MindFacts.facetView_length).
  cbn [mbind outcome_bind]. rewrite decide_True by done.
  eexists _, _, _. split; [reflexivity|].
  cbn [intr_facet intr_similarity mon_service mon_lastStates].
  split; [reflexivity|]. split; [reflexivity|].
  unfold adapt. rewrite Hcfg. cbn [thresholds].
  split; [apply lookup_insert_eq|]. cbn [cfg_threshold].
  split; [apply clamp_range|].
  rewrite lookup_insert_eq, list_inserts_0_same; [reflexivity|].
  rewrite Hlen. by apply MindFacts.facetView_length.
Qed.

Lemma check_loop_fires m f fs : ∀ mon cfg last,
  Mind.wf m → mon_wf mon → (∀ g, g ∈ fs → g ∈ mon_order mon) →
  NoDup fs → f ∈ fs →
  thresholds (mon_service mon) !! f = Some cfg →
  mon_lastStates mon !! f = Some last →
  (similarity (Mind.facetView m f) last < cfg_threshold cfg)%R →
  ∃ mon' intrs cfg',
    check_loop m mon fs = Ok (mon', intrs) ∧ mon_wf mon' ∧
    mon_order mon' = mon_order mon ∧
    (∃ intr, intr ∈ intrs ∧ intr_facet intr = f ∧
             intr_similarity intr = similarity (Mind.facetView m f) last) ∧
    thresholds (mon_service mon') !! f = Some cfg' ∧
    (0.5 <= cfg_threshold cfg' <= 0.95)%R ∧
    mon_lastStates mon' !! f = Some (Mind.facetView m f).
Proof.
  induction fs as [|g fs IH];
    intros mon cfg last Hwf Hmon Hsub Hnd Hin Hcfg Hlast Hsim.
  { by apply elem_of_nil in Hin. }
  apply NoDup_cons in Hnd as [Hg Hnd].
  destruct (check_facet_step m mon g Hwf Hmon)
    as (mon1 & intrs1 & Hstep & Hmon1 & Hord1 & Hf1 & Hfr1).
  { apply Hsub. by left. }
  assert (∀ h, h ∈ fs → h ∈ mon_order mon1) as Hsub1.
  { intros h Hh. rewrite Hord1. apply Hsub. by right. }
  cbn [check_loop]. rewrite Hstep. cbn [mbind outcome_bind].
  destruct (decide (g = f)) as [->|Hne].
  - pose proof Hmon as [_ _ Hrange Hsnap].
    assert (f ∈ mon_order mon) as Hfo by (apply Hsub; by left).
    destruct (Hsnap f Hfo) as (last' & Hl' & Hlen).
    assert (last' = last) as -> by congruence.
    destruct (check_facet_fires m mon f cfg last Hwf (Hrange f Hfo)
                Hcfg Hlast Hlen Hsim)
      as (mon1' & cfg' & intr & Hfire & Hif & Hisim & Hc & Hr & Hs).
    rewrite Hfire in Hstep. injection Hstep as <- <-.
    destruct (check_loop_steps m fs mon1' Hwf Hmon1 Hsub1)
      as (mon2 & intrs2 & Hloop & Hmon2 & Hord2 & _ & Hfr2).
    rewrite Hloop. destruct (Hfr2 f Hg) as [Ht2 Hs2].
    exists mon2, ([intr] ++ intrs2), cfg'.
    split; [reflexivity|]. split; [exact Hmon2|].
    split; [by rewrite Hord2|]. split.
    { exists intr. split; [apply elem_of_cons; by left|]. by split. }
    split; [by rewrite Ht2|]. split; [exact Hr|]. by rewrite Hs2.
  - assert (f ∈ fs) as Hin' by (apply elem_of_cons in Hin as [?|?]; done).
    destruct (Hfr1 f ltac:(done)) as [Ht1 Hs1].
    destruct (IH mon1 cfg last Hwf Hmon1 Hsub1 Hnd Hin')
      as (mon2 & intrs2 & cfg' & Hloop & Hmon2 & Hord2 & Hintr & Hc & Hr & Hs);
      [congruence|congruence|done|].
    rewrite Hloop. destruct Hintr as (intr & Hi & Hfi & Hsi).
    exists mon2, (intrs1 ++ intrs2), cfg'.
    split; [reflexivity|]. split; [exact Hmon2|].
    split; [by rewrite Hord2|]. split.
    { exists intr. split; [apply elem_of_app; by right|by split]. }
    split; [exact Hc|]. split; [exact Hr|exact Hs].
Qed.

(** X21. A monitored facet that is all zero fires at every [check()]
    of a well-formed monitor, as long as its threshold is positive:
    its similarity to any snapshot is 0. The check returns, leaves the
    monitor well formed with a threshold of the clamp range and the
    zero snapshot for the facet, and the next check of the same arena
    fires for the facet again. *)
Theorem check_zero_facet_fires (m : NeuralMindService) (mon : Monitor)
    (f : Z) (cfg : ThresholdConfig) :
  Mind.wf m → mon_wf mon →
  thresholds (mon_service mon) !! f = Some cfg →
  (0 < cfg_threshold cfg)%R → Mind.facetView m f = zeros →
  ∃ mon' intrs cfg',
    check m mon = Ok (mon', intrs) ∧ mon_wf mon' ∧
    (∃ intr, intr ∈ intrs ∧ intr_facet intr = f ∧
             intr_similarity intr = 0%R) ∧
    thresholds (mon_service mon') !! f = Some cfg' ∧
    (0.5 <= cfg_threshold cfg' <= 0.95)%R ∧
    mon_lastStates mon' !! f = Some zeros ∧
    ∃ mon'' intrs',
      check m mon' = Ok (mon'', intrs') ∧
      ∃ intr, intr ∈ intrs' ∧ intr_facet intr = f ∧
              intr_similarity intr = 0%R.
Proof.
  intros Hwf Hmon Hcfg Hpos Hzero.
  assert (∀ last, similarity (Mind.facetView m f) last = 0%R) as Hsim.
  { intros last. rewrite Hzero. unfold similarity.
    rewrite decide_True; [done|]. left. apply norm_zeros. }
  assert (∀ mon0 cfg0, mon_wf mon0 →
            thresholds (mon_service mon0) !! f = Some cfg0 →
            (0 < cfg_threshold cfg0)%R →
            ∃ mon' intrs cfg',
              check m mon0 = Ok (mon', intrs) ∧ mon_wf mon' ∧
              (∃ intr, intr ∈ intrs ∧ intr_facet intr = f ∧
                       intr_similarity intr = 0%R) ∧
              thresholds (mon_service mon') !! f = Some cfg' ∧
              (0.5 <= cfg_threshold cfg' <= 0.95)%R ∧
              mon_lastStates mon' !! f = Some zeros) as Hcheck.
  { intros mon0 cfg0 Hmon0 Hcfg0 Hpos0.
    pose proof Hmon0 as [Hkeys Hnd _ Hsnap].
    assert (f ∈ mon_order mon0) as Hfo by (apply Hkeys; by eexists).
    destruct (Hsnap f Hfo) as (last & Hlast & _).
    destruct (check_loop_fires m f (mon_order mon0) mon0 cfg0 last)
      as (mon' & intrs & cfg' & Hloop & Hmon' & _ & Hintr & Hc & Hr & Hs);
      try done.
    { rewrite Hsim. done. }
    exists mon', intrs, cfg'. rewrite Hsim in Hintr. rewrite Hzero in Hs.
    done. }
  destruct (Hcheck mon cfg Hmon Hcfg Hpos)
    as (mon' & intrs & cfg' & Hc1 & Hmon' & Hi1 & Ht1 & Hr1 & Hs1).
  destruct (Hcheck mon' cfg' Hmon' Ht1 ltac:(lra))
    as (mon'' & intrs' & _ & Hc2 & _ & Hi2 & _).
  exists mon', intrs, cfg'. split; [done|]. split; [done|]. split; [done|].
  split; [done|]. split; [done|]. split; [done|].
  by exists mon'', intrs'.
Qed.

Lemma check_zero_facet_fires_witness :
  ∃ mon' intrs cfg',
    check Mind.new (newMonitor Mind.new) = Ok (mon', intrs) ∧ mon_wf mon' ∧
    (∃ intr, intr ∈ intrs ∧ intr_facet intr = 0%Z ∧
             intr_similarity intr = 0%R) ∧
    thresholds (mon_service mon') !! 0%Z = Some cfg' ∧
    (0.5 <= cfg_threshold cfg' <= 0.95)%R ∧
    mon_lastStates mon' !! 0%Z = Some zeros ∧
    ∃ mon'' intrs',
      check Mind.new mon' = Ok (mon'', intrs') ∧
      ∃ intr, intr ∈ intrs' ∧ intr_facet intr = 0%Z ∧
              intr_similarity intr = 0%R.
Proof.
  assert (0 ≤ 0 < NUM_FACETS)%Z as H0 by (unfold NUM_FACETS; lia).
  apply (check_zero_facet_fires Mind.new (newMonitor Mind.new) 0
           (defaultCfg 0) MindFacts.mind_wf_new (newMonitor_wf Mind.new)
           new_lookup_INTENT).
  - cbn [defaultCfg cfg_threshold]. lra.
  - by apply MindFacts.facetView_new.
Defined.

Lemma cosineSimilarity_Ok_inv a b r :
  SIMDOps.cosineSimilarity a b = Ok r →
  length a = FACET_SIZE ∧ length b = FACET_SIZE.
Proof.
  unfold SIMDOps.cosineSimilarity. case_decide as Hlen; [done|]. intros _.
  split; apply dec_stable; intros ?; apply Hlen; [by left|by right].
Qed.

(** A facet that equals its snapshot and is not zero does not fire
    under a threshold of at most 1. *)
Lemma check_facet_silent m mon f cfg :
  Mind.wf m → (0 ≤ f < NUM_FACETS)%Z →
  thresholds (mon_service mon) !! f = Some cfg →
  (cfg_threshold cfg <= 1)%R →
  mon_lastStates mon !! f = Some (Mind.facetView m f) →
  norm (Mind.facetView m f) ≠ 0%R →
  check_facet m mon f = Ok (mon, []).
Proof.
  intros Hwf Hf Hcfg Ht Hlast Hn. unfold check_facet.
  rewrite Hcfg, MindFacts.getFacet_Ok by done.
  cbn [mbind outcome_bind]. rewrite Hlast.
  rewrite SIMDFacts.cosineSimilarity_similarity
    by by apply MindFacts.facetView_length.
  cbn [mbind outcome_bind]. rewrite SIMDExtra.similarity_self by done.
  rewrite decide_False by lra. done.
Qed.

(** An iteration that fired has stored a threshold of the clamp range
    and the facet as the snapshot. *)
Lemma check_facet_fired m mon mon' f intr intrs :
  Mind.wf m → check_facet m mon f = Ok (mon', intr :: intrs) →
  (0 ≤ f < NUM_FACETS)%Z ∧
  ∃ cfg', thresholds (mon_service mon') !! f = Some cfg' ∧
          (cfg_threshold cfg' <= 0.95)%R ∧
          mon_lastStates mon' !! f = Some (Mind.facetView m f).
Proof.
  intros Hwf Hfire. unfold check_facet in Hfire.
  destruct (thresholds (mon_service mon) !! f) as [cfg|] eqn:Hcfg; [|done].
  destruct (Mind.getFacet m f) as [curr|] eqn:Hg; [|done].
  apply MindFacts.getFacet_Ok_inv in Hg as [Hf ->].
  cbn [mbind outcome_bind] in Hfire.
  destruct (mon_lastStates mon !! f) as [last|] eqn:Hlast; [|done].
  destruct (SIMDOps.cosineSimilarity (Mind.facetView m f) last)
    as [sim|] eqn:Hsim; [|done].
  apply cosineSimilarity_Ok_inv in Hsim as [Hlc Hll].
  cbn [mbind outcome_bind] in Hfire. case_decide; [|done].
  injection Hfire as <- _ _. split; [done|].
  cbn [mon_service mon_lastStates]. unfold adapt. rewrite Hcfg.
  cbn [thresholds]. eexists. split; [apply lookup_insert_eq|].
  cbn [cfg_threshold]. split.
  - pose proof (clamp_range (cfg_threshold cfg -
      cfg_learningRate cfg * (cfg_threshold cfg - sim))). lra.
  - rewrite lookup_insert_eq, list_inserts_0_same by lia. done.
Qed.

(** The state a [check] that fired for [f] leaves for [f]. *)
Lemma check_loop_fired m f fs : ∀ mon mon' intrs intr,
  Mind.wf m → mon_wf mon → (∀ g, g ∈ fs → g ∈ mon_order mon) →
  NoDup fs → check_loop m mon fs = Ok (mon', intrs) →
  intr ∈ intrs → intr_facet intr = f →
  (0 ≤ f < NUM_FACETS)%Z ∧
  ∃ cfg', thresholds (mon_service mon') !! f = Some cfg' ∧
          (cfg_threshold cfg' <= 0.95)%R ∧
          mon_lastStates mon' !! f = Some (Mind.facetView m f).
Proof.
  induction fs as [|g fs IH];
    intros mon mon' intrs intr Hwf Hmon Hsub Hnd Hloop Hin Hf.
  { injection Hloop as <- <-. by apply elem_of_nil in Hin. }
  apply NoDup_cons in Hnd as [Hg Hnd].
  destruct (check_facet_step m mon g Hwf Hmon)
    as (mon1 & intrs1 & Hstep & Hmon1 & Hord1 & Hf1 & Hfr1).
  { apply Hsub. by left. }
  assert (∀ h, h ∈ fs → h ∈ mon_order mon1) as Hsub1.
  { intros h Hh. rewrite Hord1. apply Hsub. by right. }
  destruct (check_loop_steps m fs mon1 Hwf Hmon1 Hsub1)
    as (mon2 & intrs2 & Hloop2 & Hmon2 & Hord2 & Hf2 & Hfr2).
  cbn [check_loop] in Hloop. rewrite Hstep in Hloop.
  cbn [mbind outcome_bind] in Hloop. rewrite Hloop2 in Hloop.
  injection Hloop as <- <-.
  apply elem_of_app in Hin as [Hin|Hin].
  - rewrite Forall_forall in Hf1. pose proof (Hf1 intr Hin) as Hgf.
    rewrite Hf in Hgf. subst g.
    destruct intrs1 as [|i1 intrs1]; [by apply elem_of_nil in Hin|].
    destruct (check_facet_fired m mon mon1 f i1 intrs1 Hwf Hstep)
      as (Hr & cfg' & Hc & Ht & Hs).
    split; [done|]. destruct (Hfr2 f Hg) as [-> ->]. by exists cfg'.
  - by apply (IH mon1 mon2 intrs2 intr).
Qed.

(** A [check] of a monitor whose snapshot of a non-zero facet [f] is
    the facet itself is silent for [f] and keeps the entries of [f]. *)
Lemma check_loop_silent m f fs : ∀ mon cfg,
  Mind.wf m → mon_wf mon → (∀ g, g ∈ fs → g ∈ mon_order mon) →
  (0 ≤ f < NUM_FACETS)%Z →
  thresholds (mon_service mon) !! f = Some cfg →
  (cfg_threshold cfg <= 1)%R →
  mon_lastStates mon !! f = Some (Mind.facetView m f) →
  norm (Mind.facetView m f) ≠ 0%R →
  ∃ mon' intrs,
    check_loop m mon fs = Ok (mon', intrs) ∧
    Forall (λ i, intr_facet i ≠ f) intrs ∧
    thresholds (mon_service mon') !! f = Some cfg ∧
    mon_lastStates mon' !! f = Some (Mind.facetView m f).
Proof.
  induction fs as [|g fs IH];
    intros mon cfg Hwf Hmon Hsub Hr Hcfg Ht Hlast Hn.
  { exists mon, []. split_and!; try done. }
  cbn [check_loop].
  destruct (decide (g = f)) as [->|Hne].
  - rewrite (check_facet_silent m mon f cfg) by done.
    cbn [mbind outcome_bind].
    destruct (IH mon cfg Hwf Hmon) as (mon' & intrs & Hloop & Hall & Hc & Hs);
      try done.
    { intros h Hh. apply Hsub. by right. }
    rewrite Hloop. by exists mon', intrs.
  - destruct (check_facet_step m mon g Hwf Hmon)
      as (mon1 & intrs1 & Hstep & Hmon1 & Hord1 & Hf1 & Hfr1).
    { apply Hsub. by left. }
    destruct (Hfr1 f ltac:(done)) as [Ht1 Hs1].
    destruct (IH mon1 cfg Hwf Hmon1) as (mon' & intrs & Hloop & Hall & Hc & Hs);
      try done; try congruence.
    { intros h Hh. rewrite Hord1. apply Hsub. by right. }
    rewrite Hstep. cbn [mbind outcome_bind]. rewrite Hloop.
    eexists _, _. split; [done|]. split; [|done].
    apply Forall_app. split; [|done].
    eapply Forall_impl; [exact Hf1|]. intros i ->. done.
Qed.

(** X22. One change, one notification: when a [check()] of a
    well-formed monitor fires for a facet that is not the zero vector,
    the next [check()] of the unchanged arena returns, does not fire
    for that facet and leaves its threshold and snapshot as they
    are. *)
Theorem check_fires_once (m : NeuralMindService) (mon mon' : Monitor)
    (intrs : list Interrupt) (intr : Interrupt) (f : Z) :
  Mind.wf m → mon_wf mon → check m mon = Ok (mon', intrs) →
  intr ∈ intrs → intr_facet intr = f →
  norm (Mind.facetView m f) ≠ 0%R →
  ∃ mon'' intrs',
    check m mon' = Ok (mon'', intrs') ∧
    Forall (λ i, intr_facet i ≠ f) intrs' ∧
    thresholds (mon_service mon'') !! f = thresholds (mon_service mon') !! f ∧
    mon_lastStates mon'' !! f = mon_lastStates mon' !! f.
Proof.
  intros Hwf Hmon Hcheck Hin Hf Hn. unfold check in *.
  destruct (check_loop_steps m (mon_order mon) mon Hwf Hmon ltac:(done))
    as (mon1 & intrs1 & Hloop & Hmon1 & Hord1 & _).
  rewrite Hcheck in Hloop. injection Hloop as <- <-.
  destruct (check_loop_fired m f (mon_order mon) mon mon' intrs intr)
    as (Hr & cfg' & Hc & Ht & Hs); try done.
  { by destruct Hmon. }
  destruct (check_loop_silent m f (mon_order mon') mon' cfg')
    as (mon'' & intrs' & Hloop' & Hall & Hc' & Hs'); try done.
  { lra. }
  exists mon'', intrs'. split; [done|]. split; [done|]. split; congruence.
Qed.

Lemma check_fires_once_witness :
  ∃ m mon' intrs intr mon'' intrs',
    Mind.writeFacet Mind.new 0 e0 = Ok m ∧
    check m (newMonitor Mind.new) = Ok (mon', intrs) ∧
    intr ∈ intrs ∧ intr_facet intr = 0%Z ∧
    check m mon' = Ok (mon'', intrs') ∧
    Forall (λ i, intr_facet i ≠ 0%Z) intrs' ∧
    thresholds (mon_service mon'') !! 0%Z =
      thresholds (mon_service mon') !! 0%Z ∧
    mon_lastStates mon'' !! 0%Z = mon_lastStates mon' !! 0%Z.
Proof.
  assert (0 ≤ 0 < NUM_FACETS)%Z as H0 by (unfold NUM_FACETS; lia).
  pose proof (MindFacts.writeFacet_Ok Mind.new 0 e0 H0 e0_length) as Hw.
  pose proof (MindExtra.wf_writeFacet _ _ _ _ MindFacts.mind_wf_new Hw) as Hwf.
  pose proof (MindExtra.facetView_written Mind.new 0 e0
                MindFacts.mind_wf_new H0 e0_length) as Hview.
  destruct (newMonitor_lookup_INTENT Mind.new) as [Hcfg Hlast].
  pose proof (newMonitor_wf Mind.new) as Hmon.
  set (m1 := mkMind (list_inserts (Z.to_nat 0 * FACET_SIZE) e0 (mind Mind.new))
               (lastSnapshot Mind.new)) in *.
  destruct (check_loop_fires m1 0 (mon_order (newMonitor Mind.new))
              (newMonitor Mind.new) (defaultCfg 0) _ Hwf Hmon
              ltac:(done) (mon_nodup _ Hmon)
              (proj2 (mon_keys _ Hmon 0%Z) (mk_is_Some _ _ Hcfg)) Hcfg Hlast)
    as (mon' & intrs & cfg' & Hloop & _ & _ & (intr & Hin & Hf & _) & _).
  { rewrite Hview. unfold similarity. rewrite decide_True.
    - cbn [defaultCfg cfg_threshold]. lra.
    - right. rewrite MindFacts.facetView_new by done.
      rewrite list_inserts_0_same
        by (by rewrite length_replicate, zeros_length).
      apply norm_zeros. }
  destruct (check_fires_once m1 (newMonitor Mind.new) mon' intrs intr 0
              Hwf Hmon Hloop Hin Hf)
    as (mon'' & intrs' & Hc2 & Hall & Ht & Hs).
  { rewrite Hview, norm_e0. lra. }
  exists m1, mon', intrs, intr, mon'', intrs'.
  split; [exact Hw|]. split; [exact Hloop|]. split; [exact Hin|].
  split; [exact Hf|]. split; [exact Hc2|]. split; [exact Hall|].
  split; [exact Ht|exact Hs].
Defined.

End MonitorExtra.

(** ** The router: bookkeeping, tie-breaks, learning *)

Module RouterExtra.
Import SIMDOps Router RouterFacts.

Lemma recordAccuracy_found toolMap id correct i t :
  toolMap !! i = Some t → toolId t = id →
  (∀ j t', j < i → toolMap !! j = Some t' → toolId t' ≠ id) →
  recordAccuracy toolMap id correct =
  <[i := mkTool (toolId t) (name t) (centroid t) (hitCount t)
           (0.1 * (if correct then 1 else 0) + (1 - 0.1) * accuracy t)%R]>
    toolMap.
Proof.
  intros Hi Hid Hfirst. unfold recordAccuracy.
  assert (list_find (λ t, toolId t = id) toolMap = Some (i, t)) as ->; [|done].
  apply list_find_Some. split_and!; [done..|].
  intros j t' Hj Hlt. by eapply Hfirst.
Qed.

Lemma recordAccuracy_unknown toolMap id correct :
  (∀ t, t ∈ toolMap → toolId t ≠ id) →
  recordAccuracy toolMap id correct = toolMap.
Proof.
  intros Hno. unfold recordAccuracy.
  assert (list_find (λ t, toolId t = id) toolMap = None) as ->; [|done].
  apply list_find_None, Forall_forall. intros t Ht. by apply Hno.
Qed.

(** X23. [recordAccuracy] blends the outcome into the accuracy of the
    first tool with the given id, with weight 0.1, and changes nothing
    else: ids, centroids and hit counts stay, an accuracy in [0, 1]
    stays in [0, 1], and an id that no tool has changes nothing. *)
Theorem recordAccuracy_average (toolMap : list Tool) (id : Z)
    (correct : bool) :
  (∀ i t, toolMap !! i = Some t → toolId t = id →
     (∀ j t', j < i → toolMap !! j = Some t' → toolId t' ≠ id) →
     recordAccuracy toolMap id correct =
     <[i := mkTool (toolId t) (name t) (centroid t) (hitCount t)
              (0.1 * (if correct then 1 else 0) + 0.9 * accuracy t)%R]>
       toolMap) ∧
  ((∀ t, t ∈ toolMap → toolId t ≠ id) →
   recordAccuracy toolMap id correct = toolMap) ∧
  toolId <$> recordAccuracy toolMap id correct = toolId <$> toolMap ∧
  centroid <$> recordAccuracy toolMap id correct = centroid <$> toolMap ∧
  hitCount <$> recordAccuracy toolMap id correct = hitCount <$> toolMap ∧
  (Forall (λ t, 0 <= accuracy t <= 1)%R toolMap →
   Forall (λ t, 0 <= accuracy t <= 1)%R (recordAccuracy toolMap id correct)).
Proof.
  split; [|split; [apply recordAccuracy_unknown|]].
  { intros i t Hi Hid Hfirst.
    rewrite (recordAccuracy_found _ _ _ i t) by done.
    do 2 f_equal. lra. }
  unfold recordAccuracy.
  destruct (list_find (λ t, toolId t = id) toolMap) as [[i t]|] eqn:Hfind;
    [|done].
  apply list_find_Some in Hfind as (Hi & Hid & _).
  rewrite !list_fmap_insert. cbn [toolId centroid hitCount].
  split_and!; try (apply list_insert_id; by rewrite list_lookup_fmap, Hi).
  intros Hall. apply Forall_insert; [done|]. cbn [accuracy].
  pose proof (Forall_lookup_1 _ _ _ _ Hall Hi) as Ht. cbn in Ht.
  destruct correct; lra.
Qed.

Lemma recordAccuracy_average_witness :
  recordAccuracy demoTools 2 true =
    <[1 := mkTool 2 "Search" zeros 0 (0.1 * 1 + 0.9 * 0)%R]> demoTools ∧
  recordAccuracy demoTools 7 true = demoTools ∧
  Forall (λ t, 0 <= accuracy t <= 1)%R (recordAccuracy demoTools 2 true).
Proof.
  destruct (recordAccuracy_average demoTools 2 true)
    as (Hf & _ & _ & _ & _ & Hb).
  destruct (recordAccuracy_average demoTools 7 true) as (_ & Hu & _).
  split; [|split].
  - apply (Hf 1 (mkTool 2 "Search" zeros 0 0%R)); [done..|].
    intros j t' Hj Ht'. destruct j as [|j]; [|lia].
    injection Ht' as <-. done.
  - apply Hu. intros t Ht. unfold demoTools in Ht.
    repeat (apply elem_of_cons in Ht as [->|Ht]; [done|]).
    by apply elem_of_nil in Ht.
  - apply Hb. unfold demoTools. repeat constructor; cbn; lra.
Defined.

(** One call of [recordAccuracy] keeps the accuracies in [0, 1] and
    everything but the accuracies. *)
Lemma recordAccuracy_step toolMap id correct :
  (Forall (λ t, 0 <= accuracy t <= 1)%R toolMap →
   Forall (λ t, 0 <= accuracy t <= 1)%R (recordAccuracy toolMap id correct)) ∧
  (λ t, (toolId t, name t, centroid t, hitCount t))
    <$> recordAccuracy toolMap id correct =
  (λ t, (toolId t, name t, centroid t, hitCount t)) <$> toolMap.
Proof.
  unfold recordAccuracy.
  destruct (list_find (λ t, toolId t = id) toolMap) as [[i t]|] eqn:Hfind;
    [|done].
  apply list_find_Some in Hfind as (Hi & Hid & _). split.
  - intros Hall. apply Forall_insert; [done|]. cbn [accuracy].
    pose proof (Forall_lookup_1 _ _ _ _ Hall Hi) as Ht. cbn in Ht.
    destruct correct; lra.
  - rewrite list_fmap_insert. cbn [toolId name centroid hitCount].
    apply list_insert_id. by rewrite list_lookup_fmap, Hi.
Qed.

(** X24. Whatever run of outcomes is recorded, for whatever ids, every
    accuracy that started in [0, 1] is still in [0, 1], and the ids,
    names, centroids and hit counts of the tool map are as they
    were. *)
Theorem recordAccuracy_run_bounded (toolMap : list Tool)
    (outcomes : list (Z * bool)) :
  Forall (λ t, 0 <= accuracy t <= 1)%R toolMap →
  Forall (λ t, 0 <= accuracy t <= 1)%R
    (foldl (λ tm o, recordAccuracy tm o.1 o.2) toolMap outcomes) ∧
  (λ t, (toolId t, name t, centroid t, hitCount t))
    <$> foldl (λ tm o, recordAccuracy tm o.1 o.2) toolMap outcomes =
  (λ t, (toolId t, name t, centroid t, hitCount t)) <$> toolMap.
Proof.
  revert toolMap. induction outcomes as [|[id correct] outcomes IH];
    intros toolMap Hall; [done|].
  cbn [foldl fst snd].
  destruct (recordAccuracy_step toolMap id correct) as [Hacc Hframe].
  destruct (IH (recordAccuracy toolMap id correct) (Hacc Hall)) as [H1 H2].
  split; [done|]. by rewrite H2.
Qed.

Lemma recordAccuracy_run_bounded_witness :
  Forall (λ t, 0 <= accuracy t <= 1)%R
    (foldl (λ tm o, recordAccuracy tm o.1 o.2) demoTools
       [(2%Z, true); (7%Z, false); (2%Z, false)]) ∧
  (λ t, (toolId t, name t, centroid t, hitCount t))
    <$> foldl (λ tm o, recordAccuracy tm o.1 o.2) demoTools
          [(2%Z, true); (7%Z, false); (2%Z, false)] =
  (λ t, (toolId t, name t, centroid t, hitCount t)) <$> demoTools.
Proof.
  apply (recordAccuracy_run_bounded demoTools
           [(2%Z, true); (7%Z, false); (2%Z, false)]).
  unfold demoTools. repeat constructor; cbn; lra.
Defined.

(** The scan stops at the first tool of maximal similarity: every tool
    before it is strictly less similar. *)
Lemma route_loop_first intent tools : ∀ i best bestSim,
  length intent = FACET_SIZE →
  Forall (λ t, length (centroid t) = FACET_SIZE) tools →
  ∃ best' bestSim',
    route_loop intent tools i best bestSim = Ok (best', bestSim') ∧
    ((best' = best ∧ bestSim' = bestSim ∧
      ∀ t, t ∈ tools → xgt (similarity intent (centroid t)) bestSim = false) ∨
     (∃ j t, tools !! j = Some t ∧ best' = i + j ∧
        bestSim' = Finite (similarity intent (centroid t)) ∧
        xgt (similarity intent (centroid t)) bestSim = true ∧
        (∀ k tk, k < j → tools !! k = Some tk →
           (similarity intent (centroid tk) <
            similarity intent (centroid t))%R) ∧
        (∀ t', t' ∈ tools →
           (similarity intent (centroid t') <=
            similarity intent (centroid t))%R))).
Proof.
  induction tools as [|t0 tools IH]; intros i best bestSim Hil Hlen.
  - exists best, bestSim. split; [done|]. left.
    split; [done|]. split; [done|]. by intros t Ht%elem_of_nil.
  - apply Forall_cons in Hlen as [Ht0 Hlen]. cbn [route_loop].
    rewrite SIMDFacts.cosineSimilarity_similarity by done.
    cbn [mbind outcome_bind].
    set (s0 := similarity intent (centroid t0)) in *.
    destruct (xgt s0 bestSim) eqn:Hgt.
    + destruct (IH (S i) i (Finite s0) Hil Hlen)
        as (best' & bestSim' & Hr & Hcase).
      exists best', bestSim'. split; [done|]. right.
      destruct Hcase as [(-> & -> & Hall)|(j & t & Hj & -> & -> & Hx & Hbefore & Hmax)].
      * exists 0, t0. split; [done|]. split; [lia|]. split; [done|].
        split; [done|]. split; [intros; lia|].
        intros t' [->|Hin]%elem_of_cons; [fold s0; lra|].
        specialize (Hall t' Hin). cbn in Hall.
        apply bool_decide_eq_false in Hall. fold s0. lra.
      * cbn in Hx. apply bool_decide_eq_true in Hx.
        exists (S j), t. split; [done|]. split; [lia|]. split; [done|].
        split_and!.
        -- destruct bestSim as [|b]; [done|]. cbn in *.
           apply bool_decide_eq_true in Hgt. apply bool_decide_eq_true. lra.
        -- intros k tk Hk Htk. destruct k as [|k].
           ++ injection Htk as <-. fold s0. lra.
           ++ apply (Hbefore k tk); [lia|done].
        -- intros t' [->|Hin]%elem_of_cons; [fold s0; lra|by apply Hmax].
    + destruct (IH (S i) best bestSim Hil Hlen)
        as (best' & bestSim' & Hr & Hcase).
      exists best', bestSim'. split; [done|].
      destruct Hcase as [(-> & -> & Hall)|(j & t & Hj & -> & -> & Hx & Hbefore & Hmax)].
      * left. split; [done|]. split; [done|].
        intros t' [->|Hin]%elem_of_cons; [done|by apply Hall].
      * right. exists (S j), t. split; [done|]. split; [lia|]. split; [done|].
        split; [done|].
        assert (s0 < similarity intent (centroid t))%R as Hlt.
        { destruct bestSim as [|b]; [done|]. cbn in *.
          apply bool_decide_eq_false in Hgt. apply bool_decide_eq_true in Hx.
          lra. }
        split.
        -- intros k tk Hk Htk. destruct k as [|k].
           ++ injection Htk as <-. done.
           ++ apply (Hbefore k tk); [lia|done].
        -- intros t' [->|Hin]%elem_of_cons; [fold s0; lra|by apply Hmax].
Qed.

(** X25. Ties go to the tool registered first: [route()] returns the
    tool at the least index whose similarity to the INTENT facet is
    maximal; every tool before it is strictly less similar. *)
Theorem route_first_of_the_best (m : NeuralMindService)
    (toolMap : list Tool) :
  Mind.wf m → Forall (λ t, length (centroid t) = FACET_SIZE) toolMap →
  toolMap ≠ [] →
  ∃ j t,
    toolMap !! j = Some t ∧
    route m toolMap =
      Ok (mkResult (toolId t)
            (Finite (similarity (Mind.facetView m INTENT) (centroid t)))
            (Mind.facetView m INTENT)) ∧
    (∀ k tk, k < j → toolMap !! k = Some tk →
       (similarity (Mind.facetView m INTENT) (centroid tk) <
        similarity (Mind.facetView m INTENT) (centroid t))%R) ∧
    (∀ t', t' ∈ toolMap →
       (similarity (Mind.facetView m INTENT) (centroid t') <=
        similarity (Mind.facetView m INTENT) (centroid t))%R).
Proof.
  intros Hwf Hlen Hne.
  assert (0 ≤ INTENT < NUM_FACETS)%Z as Hi by (unfold INTENT, NUM_FACETS; lia).
  pose proof (MindFacts.facetView_length m INTENT Hwf Hi) as Hil.
  destruct (route_loop_first (Mind.facetView m INTENT) toolMap 0 0
              NegInfinity Hil Hlen) as (best' & bestSim' & Hr & Hcase).
  destruct Hcase as [(_ & _ & Hall)|(j & t & Hj & -> & -> & _ & Hbefore & Hmax)].
  { destruct toolMap as [|t0 tl]; [done|].
    specialize (Hall t0 ltac:(apply elem_of_cons; by left)). done. }
  exists j, t. split; [done|]. split; [|done].
  unfold route. rewrite decide_False by (by destruct toolMap).
  rewrite MindFacts.getFacet_Ok by done. cbn [mbind outcome_bind].
  rewrite Hr. cbn [mbind outcome_bind Nat.add]. by rewrite Hj.
Qed.

Lemma route_first_of_the_best_witness :
  ∃ j t,
    demoTools !! j = Some t ∧
    route Mind.new demoTools =
      Ok (mkResult (toolId t)
            (Finite (similarity (Mind.facetView Mind.new INTENT) (centroid t)))
            (Mind.facetView Mind.new INTENT)) ∧
    (∀ k tk, k < j → demoTools !! k = Some tk →
       (similarity (Mind.facetView Mind.new INTENT) (centroid tk) <
        similarity (Mind.facetView Mind.new INTENT) (centroid t))%R) ∧
    (∀ t', t' ∈ demoTools →
       (similarity (Mind.facetView Mind.new INTENT) (centroid t') <=
        similarity (Mind.facetView Mind.new INTENT) (centroid t))%R).
Proof.
  apply (route_first_of_the_best Mind.new demoTools);
    [apply MindFacts.mind_wf_new|apply demoTools_lengths|done].
Defined.

(** X26. [routeTopK(1)] and [route()] agree: the one result of
    [routeTopK(1)] is the result of [route()], tie-break included. *)
Theorem routeTopK_1_is_route (m : NeuralMindService) (toolMap : list Tool) :
  Mind.wf m → Forall (λ t, length (centroid t) = FACET_SIZE) toolMap →
  toolMap ≠ [] →
  ∃ r, route m toolMap = Ok r ∧ routeTopK m toolMap 1 = Ok [r].
Proof.
  intros Hwf Hlen Hne.
  assert (0 ≤ INTENT < NUM_FACETS)%Z as Hi by (unfold INTENT, NUM_FACETS; lia).
  pose proof (MindFacts.facetView_length m INTENT Hwf Hi) as Hil.
  destruct (route_loop_first (Mind.facetView m INTENT) toolMap 0 0
              NegInfinity Hil Hlen) as (best' & bestSim' & Hr & Hcase).
  destruct Hcase as [(_ & _ & Hall)|(j & t & Hj & -> & -> & _ & Hbefore & Hmax)].
  { destruct toolMap as [|t0 tl]; [done|].
    specialize (Hall t0 ltac:(apply elem_of_cons; by left)). done. }
  eexists. split.
  { unfold route. rewrite decide_False by (by destruct toolMap).
    rewrite MindFacts.getFacet_Ok by done. cbn [mbind outcome_bind].
    rewrite Hr. cbn [mbind outcome_bind Nat.add]. by rewrite Hj. }
  set (intent := Mind.facetView m INTENT) in *.
  set (cands := zip_with mkCand (seq 0 (length toolMap))
                  ((λ t, similarity intent (centroid t)) <$> toolMap)).
  set (sorted := js_sort by_sim_desc cands).
  assert (StronglySorted before sorted) as Hsorted.
  { apply js_sort_before. unfold cands.
    pose proof (numbered_increasing
      ((λ t, similarity intent (centroid t)) <$> toolMap) 0) as [H _].
    by rewrite length_fmap in H. }
  assert (sorted ≡ₚ cands) as Hperm by apply js_sort_perm.
  set (cj := mkCand j (similarity intent (centroid t))).
  assert (cj ∈ cands) as Hcj.
  { unfold cands, cj.
    apply (elem_of_lookup_zip_with_2 mkCand _ _ j _ cj j).
    - apply lookup_seq. split; [done|]. by eapply lookup_lt_Some.
    - by rewrite list_lookup_fmap, Hj. }
  (* the head of the sorted list is the candidate of index [j] *)
  assert (∃ rest, sorted = cj :: rest) as [rest Hhead].
  { destruct sorted as [|c0 rest] eqn:Hs.
    { rewrite <- Hperm in Hcj. by apply elem_of_nil in Hcj. }
    exists rest. f_equal.
    assert (c0 ∈ cands) as Hc0 by (rewrite <- Hperm; apply elem_of_cons; by left).
    destruct (numbered_elem intent toolMap c0 Hc0) as (t0 & Ht0 & Hs0).
    apply StronglySorted_inv in Hsorted as [_ Hall].
    rewrite <- Hperm in Hcj. apply elem_of_cons in Hcj as [Heq|Hin]; [done|].
    rewrite Forall_forall in Hall. specialize (Hall cj Hin).
    pose proof (Hmax t0 (list_elem_of_lookup_2 _ _ _ Ht0)) as Hle.
    destruct Hall as [Hgt|[Heq Hidx]]; cbn [cj cand_sim cand_index] in *.
    - rewrite Hs0 in Hgt. lra.
    - pose proof (Hbefore _ _ Hidx Ht0) as Hlt. rewrite Hs0 in Heq. lra. }
  unfold routeTopK, topCandidates.
  rewrite decide_False by (by destruct toolMap).
  rewrite MindFacts.getFacet_Ok by done. cbn [mbind outcome_bind].
  fold intent. rewrite candidates_spec by done. cbn [mbind outcome_bind].
  fold cands. fold sorted. rewrite Hhead. unfold slice0.
  rewrite decide_False by lia.
  change (take (Z.to_nat 1) (cj :: rest)) with [cj].
  cbn [mbind outcome_bind mapM].
  cbn [cj cand_index cand_sim]. rewrite Hj. done.
Qed.

Lemma routeTopK_1_is_route_witness :
  ∃ r, route Mind.new demoTools = Ok r ∧ routeTopK Mind.new demoTools 1 = Ok [r].
Proof.
  apply (routeTopK_1_is_route Mind.new demoTools);
    [apply MindFacts.mind_wf_new|apply demoTools_lengths|done].
Defined.



End RouterExtra.

(** ** The spindle worker *)

Module WorkerFacts.
Import Ring RingFacts Worker.

Lemma lcg_loop_length n : ∀ i rng emb,
  length (lcg_loop n i rng emb) = length emb.
Proof.
  induction n as [|n IH]; intros i rng emb; cbn [lcg_loop]; [done|].
  by rewrite IH, length_insert.
Qed.

(** The cell [i + k] holds the value of the [k+1]-th state of the
    generator. *)
Lemma lcg_loop_lookup n : ∀ i rng emb k,
  i + n ≤ length emb → k < n →
  lcg_loop n i rng emb !! (i + k) =
  Some (lcg_value (Nat.iter (S k) lcg_next rng)).
Proof.
  induction n as [|n IH]; intros i rng emb k Hlen Hk; [lia|].
  cbn [lcg_loop]. destruct k as [|k].
  - assert (∀ m i' r e j, j < i' →
              lcg_loop m i' r e !! j = e !! j) as Hframe.
    { clear. induction m as [|m IHm]; intros i' r e j Hj; [done|].
      cbn [lcg_loop]. rewrite IHm by lia.
      apply list_lookup_insert_ne. lia. }
    rewrite Nat.add_0_r, Hframe by lia.
    rewrite list_lookup_insert_eq by lia. done.
  - replace (i + S k) with (S i + k) by lia.
    rewrite IH by (rewrite ?length_insert; lia).
    by rewrite <- Nat.iter_succ_r.
Qed.

Lemma div_loop_lookup k n : ∀ i v j,
  i + n ≤ length v →
  div_loop n i k v !! j =
  if decide (i ≤ j < i + n) then Some (cell v j / k)%R else v !! j.
Proof.
  induction n as [|n IH]; intros i v j Hlen; cbn [div_loop].
  - rewrite decide_False by lia. done.
  - rewrite IH by (rewrite length_insert; lia).
    destruct (decide (j = i)) as [->|Hne].
    + rewrite decide_False by lia. rewrite decide_True by lia.
      by rewrite list_lookup_insert_eq by lia.
    + rewrite list_lookup_insert_ne by done. unfold cell.
      rewrite list_lookup_insert_ne by done.
      repeat case_decide; try done; lia.
Qed.

Lemma div_loop_unit_scale v :
  length v = FACET_SIZE →
  div_loop FACET_SIZE 0 (norm v) v = Router.unit_scale v.
Proof.
  intros Hv. apply list_eq. intros j.
  rewrite div_loop_lookup by lia. unfold Router.unit_scale, cell.
  rewrite list_lookup_fmap.
  destruct (decide (j < FACET_SIZE)) as [Hj|Hj].
  - rewrite decide_True by lia.
    destruct (lookup_lt_is_Some_2 v j ltac:(lia)) as [x ->]. done.
  - rewrite decide_False by lia.
    by rewrite (proj2 (lookup_ge_None v j)) by lia.
Qed.

(** Two consecutive states of the generator are not both [2^31], the
    one state whose value is 0. *)
Lemma lcg_value_0 r : lcg_value r = 0%R → r = 2147483648%Z.
Proof.
  unfold lcg_value. intros H. apply eq_IZR. lra.
Qed.

Lemma lcg_not_twice_0 r :
  lcg_value r = 0%R → lcg_value (lcg_next r) ≠ 0%R.
Proof.
  intros ->%lcg_value_0 H%lcg_value_0. vm_compute in H. done.
Qed.

Lemma dot_self_pos (v : list R) j x :
  v !! j = Some x → x ≠ 0%R → (0 < dot v v)%R.
Proof.
  revert j. induction v as [|y v IH]; intros j Hj Hx; [done|].
  rewrite dot_cons. pose proof (dot_self_nonneg v).
  destruct j as [|j].
  - injection Hj as ->. nra.
  - specialize (IH j Hj Hx). nra.
Qed.

Lemma encodeString_unit_scale str toolId :
  let emb := lcg_loop FACET_SIZE 0 (hashString str + toolId * 31337)%Z
               (replicate FACET_SIZE 0%R) in
  length emb = FACET_SIZE ∧ norm emb ≠ 0%R ∧
  (cell emb 0 ≠ 0%R ∨ cell emb 1 ≠ 0%R) ∧
  encodeString str toolId = Router.unit_scale emb.
Proof.
  intros emb.
  assert (length emb = FACET_SIZE) as Hlen.
  { unfold emb. by rewrite lcg_loop_length, length_replicate. }
  set (rng := (hashString str + toolId * 31337)%Z) in *.
  pose proof (lcg_loop_lookup FACET_SIZE 0 rng (replicate FACET_SIZE 0%R) 0)
    as H0.
  pose proof (lcg_loop_lookup FACET_SIZE 0 rng (replicate FACET_SIZE 0%R) 1)
    as H1.
  rewrite length_replicate in H0, H1. fold emb in H0, H1.
  specialize (H0 ltac:(lia) ltac:(unfold FACET_SIZE; lia)).
  specialize (H1 ltac:(lia) ltac:(unfold FACET_SIZE; lia)).
  change (0 + 0) with 0 in H0. change (0 + 1) with 1 in H1.
  assert (cell emb 0 ≠ 0%R ∨ cell emb 1 ≠ 0%R) as Hcells.
  { rewrite (cell_lookup _ _ _ H0), (cell_lookup _ _ _ H1).
    destruct (decide (lcg_value (Nat.iter 1 lcg_next rng) = 0%R)) as [Hz|Hnz];
      [right|by left].
    rewrite Nat.iter_succ. by apply lcg_not_twice_0. }
  assert (0 < dot emb emb)%R as Hpos.
  { destruct Hcells as [Hc|Hc].
    - apply (dot_self_pos emb _ _ H0). by rewrite <- (cell_lookup _ _ _ H0).
    - apply (dot_self_pos emb _ _ H1). by rewrite <- (cell_lookup _ _ _ H1). }
  assert (0 < norm emb)%R as Hn by (by apply sqrt_lt_R0).
  split; [done|]. split; [lra|]. split; [done|].
  unfold encodeString. fold rng. fold emb.
  rewrite RouterFacts.sumsq_loop_dot, view_all, Rplus_0_l by lia.
  fold (norm emb). rewrite decide_True by lra.
  by apply div_loop_unit_scale.
Qed.

(** X28. [encodeString] never returns the zero vector. For every
    string and every tool id (an integer of at most 16 bits, the range
    in which the seed arithmetic of the source is exact) the generator
    does not yield two zero cells in a row, so the norm is positive and
    the normalisation is not skipped: the result has [FACET_SIZE]
    cells, all in [-1, 1], and one of its first two cells is not 0. *)
Theorem encodeString_nonzero (str : list Z) (toolId : Z) :
  (Z.abs toolId ≤ 65535)%Z →
  length (encodeString str toolId) = FACET_SIZE ∧
  Forall (λ y, -1 <= y <= 1)%R (encodeString str toolId) ∧
  (cell (encodeString str toolId) 0 ≠ 0%R ∨
   cell (encodeString str toolId) 1 ≠ 0%R).
Proof.
  intros _.
  destruct (encodeString_unit_scale str toolId) as (Hlen & Hn & Hcells & ->).
  set (emb := lcg_loop FACET_SIZE 0 (hashString str + toolId * 31337)%Z
                (replicate FACET_SIZE 0%R)) in *.
  split; [by rewrite SIMDExtra.unit_scale_length|].
  split; [by apply SIMDExtra.unit_scale_range|].
  assert (∀ i, i < FACET_SIZE →
            cell (Router.unit_scale emb) i = (cell emb i / norm emb)%R) as Hc.
  { intros i Hi. unfold cell, Router.unit_scale. rewrite list_lookup_fmap.
    destruct (lookup_lt_is_Some_2 emb i ltac:(lia)) as [x ->]. done. }
  assert (∀ x, x ≠ 0%R → (x / norm emb)%R ≠ 0%R) as Hdiv.
  { intros x Hx Hq. apply Hx.
    replace x with (x / norm emb * norm emb)%R by (field; done).
    rewrite Hq. lra. }
  rewrite !Hc by (unfold FACET_SIZE; lia).
  destruct Hcells as [H0|H1]; [left|right]; by apply Hdiv.
Qed.

Lemma encodeString_nonzero_witness :
  length (encodeString [111; 107]%Z 2) = FACET_SIZE ∧
  Forall (λ y, -1 <= y <= 1)%R (encodeString [111; 107]%Z 2) ∧
  (cell (encodeString [111; 107]%Z 2) 0 ≠ 0%R ∨
   cell (encodeString [111; 107]%Z 2) 1 ≠ 0%R).
Proof. apply (encodeString_nonzero [111; 107]%Z 2). cbn. lia. Defined.

(** The worker's push and the engine's push are the same operation on
    the shared buffer. *)
Lemma pushEmbedding_push rb v : pushEmbedding (Some rb) v = push rb v.
Proof.
  unfold pushEmbedding, push, rotateHead.
  case_decide; [done|]. case_decide; done.
Qed.

Lemma getAvailableSlots_available rb :
  getAvailableSlots (Some rb) = available rb.
Proof. done. Qed.

(** X29. The worker is a producer for the engine's ring: on a
    well-formed buffer with fewer than 31 unread slots, [pushEmbedding]
    in the worker does what [push] does in the engine, returns the old
    head, and puts the vector at the back of the queue that the
    engine's [readNext] consumes; the worker's count of available
    slots is the engine's and grows by one. *)
Theorem worker_push_feeds_engine (rb : RingBufferService) (v : list R) :
  wf rb → length v = FACET_SIZE → avail rb < 31 →
  ∃ rb',
    pushEmbedding (Some rb) v = Ok (rb', rb_head rb) ∧
    push rb v = Ok (rb', rb_head rb) ∧
    queue rb' = queue rb ++ [v] ∧
    getAvailableSlots (Some rb') = available rb' ∧
    getAvailableSlots (Some rb') = (getAvailableSlots (Some rb) + 1)%Z.
Proof.
  intros Hwf Hv Hav.
  destruct (push_queue rb v Hwf Hv Hav)
    as (rb' & Hpush & Hwf' & Ht & Hq & Hh & _).
  exists rb'. rewrite pushEmbedding_push. split_and!; try done.
  rewrite !getAvailableSlots_available.
  rewrite !available_avail by done.
  assert (avail rb' = length (queue rb')) as -> by (by rewrite queue_length).
  rewrite Hq, length_app, queue_length. cbn [length]. lia.
Qed.

Lemma worker_push_feeds_engine_witness :
  ∃ rb',
    pushEmbedding (Some new) e0 = Ok (rb', rb_head new) ∧
    push new e0 = Ok (rb', rb_head new) ∧
    queue rb' = queue new ++ [e0] ∧
    getAvailableSlots (Some rb') = available rb' ∧
    getAvailableSlots (Some rb') = (getAvailableSlots (Some new) + 1)%Z.
Proof.
  apply (worker_push_feeds_engine new e0);
    [apply ring_wf_new|apply e0_length|].
  rewrite avail_new. lia.
Defined.

(** A run of push requests on a buffer nobody reads from: request [i]
    is answered with slot [h + i], where [h] is the head before. *)
Lemma run_pushes (embs : list (list R * Z)) : ∀ rb (h : nat),
  rb_head rb = Z.of_nat h → rb_tail rb = 0%Z → h + length embs ≤ 31 →
  RING_FLOATS ≤ length (rb_slots rb) →
  Forall (λ e, length e.1 = FACET_SIZE) embs →
  ∃ rb',
    run (Some rb) ((λ e, MPushEmbedding e.1 e.2) <$> embs) =
      (Some rb', imap (λ i e, EmbeddingPushed (Z.of_nat (h + i)) e.2) embs) ∧
    rb_head rb' = Z.of_nat (h + length embs) ∧ rb_tail rb' = 0%Z ∧
    rb_gen rb' = rb_gen rb ∧
    length (rb_slots rb') = length (rb_slots rb) ∧
    (∀ j, j < h → slot_view rb' (Z.of_nat j) = slot_view rb (Z.of_nat j)) ∧
    (∀ i e, embs !! i = Some e → slot_view rb' (Z.of_nat (h + i)) = e.1).
Proof.
  induction embs as [|[e tid] embs IH]; intros rb h Hh Ht Hcap Hsl Hlen.
  - exists rb. cbn [length] in *. rewrite Nat.add_0_r.
    split_and!; try done.
  - apply Forall_cons in Hlen as [He Hlen]. cbn [fst] in He.
    cbn [length] in Hcap.
    assert (((rb_head rb + 1) mod RING_SLOTS)%Z = Z.of_nat (S h)) as Hnext.
    { rewrite Hh. unfold RING_SLOTS. zdiv. }
    set (rb1 := mkRing (Z.of_nat (S h)) 0 (rb_gen rb) (rb_flags rb)
                  (list_inserts (h * FACET_SIZE) e (rb_slots rb))).
    assert (pushEmbedding (Some rb) e = Ok (rb1, Z.of_nat h)) as Hpush.
    { rewrite pushEmbedding_push, push_Ok
        by first [done | rewrite Hnext, Ht; lia].
      rewrite Hnext, Ht, Hh, Nat2Z.id. by rewrite decide_False by lia. }
    destruct (IH rb1 (S h)) as (rb' & Hrun & Hh' & Ht' & Hg' & Hsl' & Hold & Hnew);
      [done|done|lia|by cbn; rewrite length_inserts|done|].
    exists rb'. cbn [fmap list_fmap run messageHandler fst snd].
    rewrite Hpush.
    change (list_fmap _ _ (λ e0, MPushEmbedding e0.1 e0.2) embs)
      with ((λ e0, MPushEmbedding e0.1 e0.2) <$> embs).
    rewrite Hrun. cbn [imap app length]. rewrite Nat.add_0_r.
    split_and!.
    + do 2 f_equal. apply imap_ext. intros i x _. cbn.
      by replace (h + S i) with (S h + i) by lia.
    + rewrite Hh'. f_equal. lia.
    + done.
    + by rewrite Hg'.
    + rewrite Hsl'. unfold rb1. cbn [rb_slots]. apply length_inserts.
    + intros j Hj. rewrite Hold by lia. unfold slot_view. cbn [rb_slots rb1].
      rewrite !Nat2Z.id. apply view_inserts_ne. rewrite He. nia.
    + intros [|i] e' Hi.
      * injection Hi as <-. rewrite Nat.add_0_r, Hold by lia.
        unfold slot_view. cbn [rb_slots rb1 fst]. rewrite Nat2Z.id.
        rewrite <- He at 2. apply view_inserts_eq.
        rewrite He. unfold RING_FLOATS, RING_SLOTS in *. nia.
      * replace (h + S i) with (S h + i) by lia. by apply Hnew.
Qed.

(** X30. A session with the worker. After [init] on a buffer that is
    large enough (answered with two [initialized] messages), up to 31
    [pushEmbedding] requests with vectors of [FACET_SIZE] cells are
    answered in order with the slot indices 0, 1, 2, ...; [getStats]
    then reports that many available slots, head at that number, tail
    and generation 0, and each slot holds the vector pushed into it.
    After the 31st push every further push is answered with the error
    of a full ring and changes nothing. *)
Theorem worker_session (buf : RingBufferService)
    (embs : list (list R * Z)) :
  RING_FLOATS ≤ length (rb_slots buf) →
  Forall (λ e, length e.1 = FACET_SIZE) embs → length embs ≤ 31 →
  ∃ rb,
    run None (MInit (Some buf) :: ((λ e, MPushEmbedding e.1 e.2) <$> embs)) =
      (Some rb, Initialized :: Initialized ::
                imap (λ i e, EmbeddingPushed (Z.of_nat i) e.2) embs) ∧
    messageHandler (Some rb) MGetStats =
      (Some rb, [Stats (Z.of_nat (length embs)) 0 0
                       (Z.of_nat (length embs))]) ∧
    (∀ i e, embs !! i = Some e → slot_view rb (Z.of_nat i) = e.1) ∧
    (length embs = 31 → ∀ e tid, length e = FACET_SIZE →
       messageHandler (Some rb) (MPushEmbedding e tid) =
       (Some rb, [ErrorMsg (Thrown BufferFull)])).
Proof.
  intros Hbuf Hlen Hcap.
  destruct (run_pushes embs (mkRing 0 0 0 0 (rb_slots buf)) 0)
    as (rb & Hrun & Hh & Ht & Hg & Hsl & _ & Hnew); [done|done|lia|done|done|].
  cbn [rb_gen Nat.add] in *.
  exists rb. split_and!.
  - cbn [run messageHandler init]. rewrite decide_False by lia.
    rewrite Hrun. done.
  - cbn [messageHandler]. unfold getAvailableSlots.
    rewrite Hh, Ht, Hg. rewrite decide_True by lia. do 3 f_equal. lia.
  - exact Hnew.
  - intros H31 e tid He. cbn [messageHandler].
    rewrite pushEmbedding_push, push_full; [done|done|].
    rewrite Hh, Ht, H31. done.
Qed.

Lemma worker_session_witness :
  ∃ rb,
    run None (MInit (Some new) ::
              ((λ e, MPushEmbedding e.1 e.2) <$> [(e0, 7%Z); (zeros, 8%Z)])) =
      (Some rb, Initialized :: Initialized ::
                imap (λ i e, EmbeddingPushed (Z.of_nat i) e.2)
                  [(e0, 7%Z); (zeros, 8%Z)]) ∧
    messageHandler (Some rb) MGetStats =
      (Some rb, [Stats (Z.of_nat (length [(e0, 7%Z); (zeros, 8%Z)])) 0 0
                       (Z.of_nat (length [(e0, 7%Z); (zeros, 8%Z)]))]) ∧
    (∀ i e, [(e0, 7%Z); (zeros, 8%Z)] !! i = Some e →
       slot_view rb (Z.of_nat i) = e.1) ∧
    (length [(e0, 7%Z); (zeros, 8%Z)] = 31 → ∀ e tid, length e = FACET_SIZE →
       messageHandler (Some rb) (MPushEmbedding e tid) =
       (Some rb, [ErrorMsg (Thrown BufferFull)])).
Proof.
  apply (worker_session new [(e0, 7%Z); (zeros, 8%Z)]).
  - unfold new. cbn [rb_slots]. by rewrite length_replicate.
  - apply Forall_cons. split; [apply e0_length|].
    apply Forall_cons. split; [apply zeros_length|]. apply Forall_nil_2.
  - cbn. lia.
Defined.

End WorkerFacts.
